(** * Infeasibility diagnosis (MIS finder) of watertap/core/util/model_diagnostics/mis.py

    A shallow embedding of the Minimal Intractable System finder: the
    bound-to-constraint transformation [_VariableBoundsAsConstraints], the
    relaxation driver and deletion filter of
    [compute_infeasibility_explanation], and the reporting helpers
    [_get_results], [_get_results_with_value] and [_get_constraint].

    The algebraic-modelling library (Pyomo) and the nonlinear solver are
    outside the file: a model is a record of its variables, constraints and
    objectives, components are identified by their names, and the solver is
    an oracle that returns a termination outcome together with the values it
    loads into the free variables.

    The module [Solvers] embeds the solver object the routine obtains from
    [get_solver], [IpoptWaterTAP] of watertap/core/plugins/solvers.py, with
    its options and its cache of scaling factors, and the value cache of
    the debug wrapper of the same file. *)

From Stdlib Require Import List String Ascii Bool Arith Lia QArith Qminmax.
From Stdlib Require Import DecimalString.
Import ListNotations.
Open Scope list_scope.
Open Scope string_scope.


(** ** Python strings: [needle in hay], [s[n:]] *)

Module PyStr.

(** [needle in hay] *)
Fixpoint contains (needle hay : string) : bool :=
  if String.prefix needle hay then true
  else match hay with
       | EmptyString => false
       | String _ rest => contains needle rest
       end.

(** [s[n:]] *)
Fixpoint drop (n : nat) (s : string) : string :=
  match n, s with
  | O, _ => s
  | S _, EmptyString => EmptyString
  | S k, String _ rest => drop k rest
  end.

Fixpoint mem (x : string) (l : list string) : bool :=
  match l with
  | [] => false
  | y :: r => if String.eqb x y then true else mem x r
  end.

End PyStr.

(** ** Exceptions and results *)

Inductive exn : Type :=
| Exception (msg : string)
| RuntimeError (msg : string)
| AssertionError
| AttributeError
| SolverFailure             (* what a failed evaluation raises in [solve] *)
| OutOfBudget.              (* not of the program: a loop budget ran out *)

Inductive result (A : Type) : Type :=
| Ok (a : A)
| Raise (e : exn).

Arguments Ok {A} a.
Arguments Raise {A} e.

Definition bind {A B : Type} (r : result A) (f : A -> result B) : result B :=
  match r with
  | Ok a => f a
  | Raise e => Raise e
  end.

Notation "x <- c1 ;; c2" := (bind c1 (fun x => c2))
  (at level 61, c1 at next level, right associativity).

(** ** Data model *)

(** The domains of [pyo.Var]; each carries the bounds it implies. *)
Inductive Domain : Type :=
| Reals
| NonNegativeReals
| NonPositiveReals
| PercentFraction
| Integers
| Binary.

Definition domain_bounds (d : Domain) : option Q * option Q :=
  match d with
  | Reals => (None, None)
  | NonNegativeReals => (Some 0%Q, None)
  | NonPositiveReals => (None, Some 0%Q)
  | PercentFraction => (Some 0%Q, Some 1%Q)
  | Integers => (None, None)
  | Binary => (Some 0%Q, Some 1%Q)
  end.

Record Var : Type := mkVar {
  v_name : string;          (* name from the model down *)
  v_value : option Q;
  v_lb : option Q;
  v_ub : option Q;
  v_domain : Domain;
  v_fixed : bool }.

Definition tighter (pick : Q -> Q -> Q) (a b : option Q) : option Q :=
  match a, b with
  | None, _ => b
  | _, None => a
  | Some x, Some y => Some (pick x y)
  end.

(** [v.bounds]: the declared bounds tightened by those of the domain;
    [None] where there is no finite bound. *)
Definition bounds (v : Var) : option Q * option Q :=
  (tighter Qmax (v_lb v) (fst (domain_bounds (v_domain v))),
   tighter Qmin (v_ub v) (snd (domain_bounds (v_domain v)))).

Inductive Body : Type :=
| BodyVar (name : string)       (* the variable itself: a bound constraint *)
| BodyExpr (label : string).    (* any other expression, opaque here *)

(** A constraint [lower <= body <= upper]. *)
Record Con : Type := mkCon {
  c_name : string;          (* name, qualified by the blocks of the model *)
  c_local_name : string;    (* name inside its own block *)
  c_lower : option Q;
  c_body : Body;
  c_upper : option Q;
  c_equality : bool;
  c_active : bool }.

Record Obj : Type := mkObj {
  o_name : string;
  o_active : bool }.

(** The caller's model: a pyomo block without a component named
    [_variable_bounds] or [_core_add_slack_variables]. *)
Record Model : Type := mkModel {
  m_name : string;
  m_vars : list Var;
  m_cons : list Con;
  m_objs : list Obj }.

(** A slack variable of the block [_core_add_slack_variables]; [s_name] is
    its local name, [_slack_plus_<constraint>] or [_slack_minus_<constraint>].
    Every slack is fixed at 0 before its value is first read, so the value is
    a number throughout. *)
Record Slack : Type := mkSlack {
  s_name : string;
  s_value : Q;
  s_fixed : bool }.

(** The clone the routine works on: the model's own components, the
    sub-block [_variable_bounds] of the bound transformation and the slack
    variables of the block [_core_add_slack_variables]. *)
Record Modified : Type := mkModified {
  mm_vars : list Var;
  mm_cons : list Con;
  mm_objs : list Obj;
  mm_bounds : list Con;
  mm_slacks : list Slack }.

(** ** Names of components

    Pyomo's [component.name] writes every local name on the way down from the
    model with [name_repr]: as it is when it is plain, and as Python's [repr]
    writes it when it has a character that is special in a component name.
    The characters of a string are taken as the code points below 256. *)

Definition backslash : ascii := ascii_of_nat 92.
Definition single_quote : ascii := ascii_of_nat 39.
Definition double_quote : ascii := ascii_of_nat 34.

Definition has_char (c : ascii) (s : string) : bool :=
  existsb (Ascii.eqb c) (list_ascii_of_string s).

(** [str.isprintable] on one character. *)
Definition printable (c : ascii) : bool :=
  let n := nat_of_ascii c in
  ((32 <=? n)%nat && (n <? 127)%nat) || ((161 <=? n)%nat && negb (n =? 173)%nat).

Definition hex_digit (n : nat) : ascii :=
  nth n (list_ascii_of_string "0123456789abcdef") "0"%char.

(** One character of the text between the quotes of [repr(s)]. *)
Definition escape (quote c : ascii) : string :=
  if Ascii.eqb c quote || Ascii.eqb c backslash
  then String backslash (String c EmptyString)
  else if Ascii.eqb c (ascii_of_nat 9) then String backslash "t"
  else if Ascii.eqb c (ascii_of_nat 10) then String backslash "n"
  else if Ascii.eqb c (ascii_of_nat 13) then String backslash "r"
  else if printable c then String c EmptyString
  else String backslash
         (String "x" (String (hex_digit (nat_of_ascii c / 16))
                        (String (hex_digit (nat_of_ascii c mod 16))
                           EmptyString))).

(** The quote [repr] chooses: double quotes only for a string with a single
    quote and no double quote. *)
Definition quote_of (s : string) : ascii :=
  if has_char single_quote s && negb (has_char double_quote s)
  then double_quote else single_quote.

Fixpoint escaped (quote : ascii) (s : string) : string :=
  match s with
  | EmptyString => EmptyString
  | String c r => escape quote c ++ escaped quote r
  end.

(** [repr(s)] for a string [s]. *)
Definition py_repr (s : string) : string :=
  String (quote_of s)
    (escaped (quote_of s) s ++ String (quote_of s) EmptyString).

(** [special_chars] of [pyomo.core.base.component_namer]. *)
Definition special_chars : list ascii :=
  list_ascii_of_string "()[],.':"
    ++ [double_quote; backslash].

Definition is_special (c : ascii) : bool :=
  existsb (Ascii.eqb c) special_chars.

(** [re_special_char.search] *)
Definition re_special_char (s : string) : bool :=
  existsb is_special (list_ascii_of_string s).

Definition is_digit (c : ascii) : bool :=
  (48 <=? nat_of_ascii c)%nat && (nat_of_ascii c <=? 57)%nat.

(** [[0-9]*] *)
Fixpoint skip_digits (s : string) : string :=
  match s with
  | String c r => if is_digit c then skip_digits r else s
  | EmptyString => s
  end.

(** [[0-9]+], giving what follows. *)
Definition digits (s : string) : option string :=
  match s with
  | String c r => if is_digit c then Some (skip_digits r) else None
  | EmptyString => None
  end.

(** [[-+]?] *)
Definition skip_sign (s : string) : string :=
  match s with
  | String c r => if Ascii.eqb c "+" || Ascii.eqb c "-" then r else s
  | EmptyString => s
  end.

(** [(?:[0-9]+\.?[0-9]*|\.[0-9]+)], giving what follows. *)
Definition mantissa (s : string) : option string :=
  match s with
  | String c r =>
      if Ascii.eqb c "." then digits r
      else match digits s with
           | Some (String d t) =>
               if Ascii.eqb d "." then Some (skip_digits t)
               else Some (String d t)
           | other => other
           end
  | EmptyString => None
  end.

(** [(?:[eE][-+]?[0-9]+)?] up to the end of the string. *)
Definition exponent (s : string) : bool :=
  match s with
  | EmptyString => true
  | String c r =>
      if Ascii.eqb c "e" || Ascii.eqb c "E" then
        match digits (skip_sign r) with
        | Some EmptyString => true
        | _ => false
        end
      else false
  end.

(** [re_number.fullmatch] *)
Definition re_number (s : string) : bool :=
  match s with
  | String c r =>
      if Ascii.eqb c "i" then String.eqb r "nf"
      else if Ascii.eqb c "n" then String.eqb r "an"
      else if Ascii.eqb c "-" && String.eqb r "inf" then true
      else match mantissa (skip_sign s) with
           | Some rest => exponent rest
           | None => false
           end
  | EmptyString => false
  end.

(** [name_repr(x)] for a string [x]: [repr(x)] is kept when what is between
    its quotes starts with a bar, has a special character or reads as a
    number; otherwise the quotes are dropped. *)
Definition starts_with_bar (s : string) : bool :=
  match s with
  | String c _ => Ascii.eqb c "|"
  | EmptyString => false
  end.

Definition name_repr (x : string) : string :=
  let unquoted := escaped (quote_of x) x in
  if starts_with_bar unquoted then py_repr x
  else if re_special_char unquoted then py_repr x
  else if re_number unquoted then py_repr x
  else unquoted.

(** ** [_VariableBoundsAsConstraints._apply_to] *)

Definition boundconstrblockname : string := "_variable_bounds".

(** [pyo.Constraint(expr=(lower, v, upper))]: an active inequality, not yet
    attached to a block. *)
Definition Constraint (lower : option Q) (v : Var) (upper : option Q) : Con :=
  mkCon EmptyString EmptyString lower (BodyVar (v_name v)) upper false true.

(** [block.add_component(name, con)]: a name already declared on the block
    is refused; the name of the constraint is that of the block, a dot and
    [name_repr] of the local name. *)
Definition add_component (name : string) (con : Con) (blk : list Con)
  : result (list Con) :=
  if existsb (fun d => String.eqb (c_local_name d) name) blk
  then Raise (RuntimeError "Cannot add component: name already in use")
  else Ok (blk ++ [mkCon (boundconstrblockname ++ "." ++ name_repr name) name
                     (c_lower con) (c_body con) (c_upper con)
                     (c_equality con) (c_active con)])%list.

Definition strip_bounds (v : Var) : Var :=
  mkVar (v_name v) (v_value v) None None Reals (v_fixed v).

(** The body of the loop over the variables. *)
Definition convert_var (v : Var) (blk : list Con) : result (list Con * Var) :=
  if v_fixed v then Ok (blk, v)
  else
    let '(lb, ub) := bounds v in
    match lb, ub with
    | None, None => Ok (blk, v)
    | _, _ =>
        let var_name := v_name v in
        blk1 <- match lb with
                | Some l => add_component ("lb_for_" ++ var_name)
                              (Constraint (Some l) v None) blk
                | None => Ok blk
                end ;;
        blk2 <- match ub with
                | Some u => add_component ("ub_for_" ++ var_name)
                              (Constraint None v (Some u)) blk1
                | None => Ok blk1
                end ;;
        Ok (blk2, strip_bounds v)
    end.

Fixpoint convert_vars (vs : list Var) (blk : list Con)
  : result (list Con * list Var) :=
  match vs with
  | [] => Ok (blk, [])
  | v :: rest =>
      r <- convert_var v blk ;;
      r' <- convert_vars rest (fst r) ;;
      Ok (fst r', snd r :: snd r')
  end.

Definition _apply_to (instance : Model) : result Modified :=
  r <- convert_vars (m_vars instance) [] ;;
  Ok (mkModified (snd r) (m_cons instance) (m_objs instance) (fst r) []).

(** ** [AddSlackVariables]: the elastic form

    Pyomo's transformation, as the routine relies on it: every objective is
    deactivated; every active constraint gets a slack [_slack_plus_<name>]
    when it has a lower bound and a slack [_slack_minus_<name>] when it has an
    upper bound, declared on the block [_core_add_slack_variables]; the sum of
    the slacks becomes the new objective [_slack_objective]. *)

Definition slack_block_name : string := "_core_add_slack_variables".

Definition Qgtb (x y : Q) : bool := negb (Qle_bool x y).

Definition crossed (c : Con) : bool :=
  match c_lower c, c_upper c with
  | Some l, Some u => Qgtb l u
  | _, _ => false
  end.

Definition slacks_of (c : Con) : list Slack :=
  if c_active c then
    (match c_lower c with
     | Some _ => [mkSlack ("_slack_plus_" ++ c_name c) 0 false]
     | None => []
     end) ++
    (match c_upper c with
     | Some _ => [mkSlack ("_slack_minus_" ++ c_name c) 0 false]
     | None => []
     end)
  else [].

Definition deactivate_obj (o : Obj) : Obj := mkObj (o_name o) false.

Definition AddSlackVariables (mm : Modified) : result Modified :=
  let cons := (mm_cons mm ++ mm_bounds mm)%list in
  if existsb crossed cons
  then Raise (RuntimeError "Lower bound exceeds upper bound in constraint")
  else Ok (mkModified (mm_vars mm) (mm_cons mm)
             (map deactivate_obj (mm_objs mm)
                ++ [mkObj (slack_block_name ++ "._slack_objective") true])%list
             (mm_bounds mm)
             (flat_map slacks_of cons)).

(** ** The solver and the process-wide state *)

(** What [solver.solve] returns when it returns. *)
Inductive Results : Type := Optimal | NonOptimal.

(** The writer registered under the name [nl]. *)
Inductive writer : Type := nl_v2 | nl_v1.

Definition _default_nl_writer : writer := nl_v2.

(** The values a solve loads, by variable name. *)
Definition solution : Type := string -> option Q.

(** The collaborators of the routine.  [solve] and [solve_model] are
    [solver.solve] on the clone and on the caller's model: the result is
    [None] when the call raises.  [repr] is the text an f-string gives a
    value.  [check_none] is [pyo.check_optimal_termination(None)]. *)
Record Env : Type := mkEnv {
  solve : writer -> Modified -> option Results * solution;
  solve_model : writer -> Model -> option Results * solution;
  repr : Q -> string;
  check_none : result bool }.

(** Pyomo's [check_optimal_termination] starts by reading
    [results.solver.status]: on [None] that is an [AttributeError]. *)
Definition pyomo_check_none : result bool := Raise AttributeError.

Definition check_optimal_termination (E : Env) (results : option Results)
  : result bool :=
  match results with
  | Some Optimal => Ok true
  | Some NonOptimal => Ok false
  | None => check_none E
  end.

Inductive event : Type :=
| SolveModified             (* solver.solve(modified_model) *)
| SolveModel                (* solver.solve(model) *)
| WriteBack                 (* v.set_value(...) on the caller's variables *)
| Register (w : writer)     (* WriterFactory.register("nl")(w) *)
| Print (text : string).

Record World : Type := mkWorld {
  w_model : Model;
  w_writer : writer;
  w_log : list event }.

Definition emit (e : event) (w : World) : World :=
  mkWorld (w_model w) (w_writer w) (w_log w ++ [e])%list.

(** ** Primitive operations on the clone *)

Definition set_value (val : option Q) (v : Var) : Var :=
  mkVar (v_name v) val (v_lb v) (v_ub v) (v_domain v) (v_fixed v).

(** [for var, val in cache.items(): var.set_value(val)] *)
Fixpoint reset_vars (cache : list (string * option Q)) (vs : list Var)
  : list Var :=
  match cache with
  | [] => vs
  | (name, val) :: rest =>
      reset_vars rest
        (map (fun v => if String.eqb (v_name v) name then set_value val v
                       else v) vs)
  end.

Definition with_vars (vs : list Var) (mm : Modified) : Modified :=
  mkModified vs (mm_cons mm) (mm_objs mm) (mm_bounds mm) (mm_slacks mm).

Definition with_slacks (ss : list Slack) (mm : Modified) : Modified :=
  mkModified (mm_vars mm) (mm_cons mm) (mm_objs mm) (mm_bounds mm) ss.

Definition reset_values (cache : list (string * option Q)) (mm : Modified)
  : Modified :=
  with_vars (reset_vars cache (mm_vars mm)) mm.

(** Loading a solution: fixed variables are not the solver's to change. *)
Definition load_var (sol : solution) (v : Var) : Var :=
  if v_fixed v then v
  else match sol (v_name v) with
       | Some q => set_value (Some q) v
       | None => v
       end.

(** [v.name] of a slack variable. *)
Definition slack_name (s : Slack) : string :=
  slack_block_name ++ "." ++ s_name s.

Definition load_slack (sol : solution) (s : Slack) : Slack :=
  if s_fixed s then s
  else match sol (slack_name s) with
       | Some q => mkSlack (s_name s) q false
       | None => s
       end.

Definition load (sol : solution) (mm : Modified) : Modified :=
  mkModified (map (load_var sol) (mm_vars mm)) (mm_cons mm) (mm_objs mm)
    (mm_bounds mm) (map (load_slack sol) (mm_slacks mm)).

Definition load_model (sol : solution) (m : Model) : Model :=
  mkModel (m_name m) (map (load_var sol) (m_vars m)) (m_cons m) (m_objs m).

Definition fix0 (s : Slack) : Slack := mkSlack (s_name s) 0 true.

Definition unfix (s : Slack) : Slack := mkSlack (s_name s) (s_value s) false.

Definition unfix_named (name : string) (ss : list Slack) : list Slack :=
  map (fun s => if String.eqb (s_name s) name then unfix s else s) ss.

Definition set_active (b : bool) (c : Con) : Con :=
  mkCon (c_name c) (c_local_name c) (c_lower c) (c_body c) (c_upper c)
    (c_equality c) b.

(** [constr.activate()] / [constr.deactivate()] on the constraint of that
    name. *)
Definition set_active_named (b : bool) (name : string) (mm : Modified)
  : Modified :=
  let f := fun c => if String.eqb (c_name c) name then set_active b c else c in
  mkModified (mm_vars mm) (map f (mm_cons mm)) (mm_objs mm)
    (map f (mm_bounds mm)) (mm_slacks mm).

Definition activate := set_active_named true.
Definition deactivate := set_active_named false.

Definition all_cons (mm : Modified) : list Con :=
  (mm_cons mm ++ mm_bounds mm)%list.

Definition is_active (mm : Modified) (name : string) : bool :=
  existsb (fun c => String.eqb (c_name c) name && c_active c) (all_cons mm).

(** [modified_model.find_component(name)], by the qualified name. *)
Definition find_component (mm : Modified) (name : string) : option Con :=
  find (fun c => String.eqb (c_name c) name) (all_cons mm).

(** [ComponentSet.add]: insertion ordered, no duplicates. *)
Definition set_add (x : string) (l : list string) : list string :=
  if PyStr.mem x l then l else (l ++ [x])%list.

Definition con_mem (c : Con) (l : list Con) : bool :=
  existsb (fun d => String.eqb (c_name d) (c_name c)) l.

Definition con_add (c : Con) (l : list Con) : list Con :=
  if con_mem c l then l else (l ++ [c])%list.

(** ** The reporting helpers *)

Definition tab : string := String (ascii_of_nat 9) EmptyString.
Definition newline : string := String (ascii_of_nat 10) EmptyString.

(** The body of the loop of [_get_results_with_value]. *)
Definition render_with_value (E : Env) (c : Con) (value : Q) (msg : string)
  : result string :=
  let cname := c_name c in
  if PyStr.contains "_variable_bounds" cname then
    let name := c_local_name c in
    if PyStr.contains "lb" name then
      Ok (msg ++ tab ++ "lb of var " ++ PyStr.drop 7 name ++ " by "
              ++ repr E value ++ newline)
    else if PyStr.contains "ub" name then
      Ok (msg ++ tab ++ "ub of var " ++ PyStr.drop 7 name ++ " by "
              ++ repr E value ++ newline)
    else Raise (RuntimeError "unrecongized var name")
  else
    Ok (msg ++ tab ++ "constraint: " ++ cname ++ " by " ++ repr E value
            ++ newline).

(** The body of the loop of [_get_results]. *)
Definition render (c : Con) (msg : string) : result string :=
  let cname := c_name c in
  if PyStr.contains "_variable_bounds" cname then
    let name := c_local_name c in
    if PyStr.contains "lb" name then
      Ok (msg ++ tab ++ "lb of var " ++ PyStr.drop 7 name ++ newline)
    else if PyStr.contains "ub" name then
      Ok (msg ++ tab ++ "ub of var " ++ PyStr.drop 7 name ++ newline)
    else Raise (RuntimeError "unrecongized var name")
  else
    Ok (msg ++ tab ++ "constraint: " ++ cname ++ newline).

Fixpoint render_all_with_value (E : Env) (l : list (Con * Q)) (msg : string)
  : result string :=
  match l with
  | [] => Ok msg
  | (c, value) :: rest =>
      msg1 <- render_with_value E c value msg ;;
      render_all_with_value E rest msg1
  end.

Fixpoint render_all (l : list Con) (msg : string) : result string :=
  match l with
  | [] => Ok msg
  | c :: rest => msg1 <- render c msg ;; render_all rest msg1
  end.

Definition default_msg (msg : option string) : string :=
  match msg with
  | None => EmptyString
  | Some m => m
  end.

Definition _get_results_with_value (E : Env) (constr_value_generator : list (Con * Q))
  (msg : option string) : result string :=
  render_all_with_value E constr_value_generator (default_msg msg).

Definition _get_results (constr_generator : list Con) (msg : option string)
  : result string :=
  render_all constr_generator (default_msg msg).

Definition _get_constraint (modified_model : Modified) (v : Slack)
  : result Con :=
  if PyStr.contains "_slack_plus_" (slack_name v) then
    match find_component modified_model
            (PyStr.drop (String.length "_slack_plus_") (s_name v)) with
    | None => Raise (RuntimeError
                "Bad constraint name {v.local_name[len('_slack_plus_'):]}")
    | Some constr => Ok constr
    end
  else if PyStr.contains "_slack_minus_" (slack_name v) then
    match find_component modified_model
            (PyStr.drop (String.length "_slack_minus_") (s_name v)) with
    | None => Raise (RuntimeError
                "Bad constraint name {v.local_name[len('_slack_minus_'):]}")
    | Some constr => Ok constr
    end
  else Raise (RuntimeError "Bad var name {v.name}").

(** ** The relaxation driver *)

(** What one pass over the slack variables leaves behind. *)
Record Scan : Type := mkScan {
  sc_slacks : list Slack;
  sc_fixed : list string;       (* fixed_slacks, by local name *)
  sc_filter : list Con;         (* elastic_filter *)
  sc_msg : string }.

(** The [for] loop of [_constraint_generator], run against its consumer
    [_get_results_with_value]: the line of a yielded pair is written before
    the generator resumes and fixes the slack. *)
Fixpoint scan_slacks (E : Env) (tolerance : Q) (modified_model : Modified)
  (vs : list Slack) (fixed_slacks : list string) (elastic_filter : list Con)
  (msg : string) : result Scan :=
  match vs with
  | [] => Ok (mkScan [] fixed_slacks elastic_filter msg)
  | v :: rest =>
      if Qgtb (s_value v) tolerance then
        constr <- _get_constraint modified_model v ;;
        msg1 <- render_with_value E constr (s_value v) msg ;;
        r <- scan_slacks E tolerance modified_model rest
               (set_add (s_name v) fixed_slacks)
               (con_add constr elastic_filter) msg1 ;;
        Ok (mkScan (fix0 v :: sc_slacks r) (sc_fixed r) (sc_filter r)
              (sc_msg r))
      else
        r <- scan_slacks E tolerance modified_model rest fixed_slacks
               elastic_filter msg ;;
        Ok (mkScan (v :: sc_slacks r) (sc_fixed r) (sc_filter r) (sc_msg r))
  end.

(** The locals of [compute_infeasibility_explanation] the loops share. *)
Record Loop : Type := mkLoop {
  l_mm : Modified;              (* modified_model *)
  l_fixed : list string;        (* fixed_slacks *)
  l_filter : list Con;          (* elastic_filter *)
  l_msg : string }.

Definition _constraint_generator (E : Env) (tolerance : Q) (model_name : string)
  (st : Loop) : result Loop :=
  let elastic_filter_size_initial := List.length (l_filter st) in
  r <- scan_slacks E tolerance (l_mm st) (mm_slacks (l_mm st)) (l_fixed st)
         (l_filter st) (l_msg st) ;;
  if Nat.eqb (List.length (sc_filter r)) elastic_filter_size_initial
  then Raise (Exception ("Found model " ++ model_name ++ " to be feasible!"))
  else Ok (mkLoop (with_slacks (sc_slacks r) (l_mm st)) (sc_fixed r)
             (sc_filter r) (sc_msg r)).

(** ** Effects: the caller's model, the writer registry, the calls made *)

Definition M (A : Type) : Type := World -> World * result A.

Definition ret {A : Type} (a : A) : M A := fun w => (w, Ok a).

Definition raise {A : Type} (e : exn) : M A := fun w => (w, Raise e).

Definition lift {A : Type} (r : result A) : M A := fun w => (w, r).

Definition bindM {A B : Type} (m : M A) (f : A -> M B) : M B :=
  fun w =>
    match m w with
    | (w', Ok a) => f a w'
    | (w', Raise e) => (w', Raise e)
    end.

Notation "x <~ c1 ;; c2" := (bindM c1 (fun x => c2))
  (at level 61, c1 at next level, right associativity).

Definition tell (e : event) : M unit := fun w => (emit e w, Ok tt).

(** [WriterFactory.register("nl")(cls)] *)
Definition register (cls : writer) : M unit :=
  fun w => (mkWorld (w_model w) cls (w_log w ++ [Register cls])%list, Ok tt).

(** [solver.solve(modified_model, tee=tee)] inside [try]: the outcome, and
    the clone with the solution loaded. *)
Definition try_solve (E : Env) (mm : Modified) : M (option Results * Modified) :=
  fun w =>
    let '(r, sol) := solve E (w_writer w) mm in
    (emit SolveModified w, Ok (r, load sol mm)).

(** The same call outside [try]: a failure propagates. *)
Definition solver_solve (E : Env) (mm : Modified) : M (Results * Modified) :=
  r <~ try_solve E mm ;;
  match fst r with
  | Some results => ret (results, snd r)
  | None => raise SolverFailure
  end.

Definition another (relaxed_things : string) : string :=
  "Another feasible solution was found with only the following "
    ++ relaxed_things ++ " relaxed:" ++ newline.

(** The [while True] of [_constraint_loop]; [budget] bounds the number of
    rounds, [OutOfBudget] says it was not enough. *)
Fixpoint constraint_rounds (E : Env) (tolerance : Q) (model_name : string)
  (cache : list (string * option Q)) (relaxed_things : string)
  (budget : nat) (st : Loop) : M Loop :=
  match budget with
  | O => raise OutOfBudget
  | S k =>
      st1 <~ lift (_constraint_generator E tolerance model_name st) ;;
      r <~ solver_solve E (reset_values cache (l_mm st1)) ;;
      b <~ lift (check_optimal_termination E (Some (fst r))) ;;
      if (b : bool) then
        constraint_rounds E tolerance model_name cache relaxed_things k
          (mkLoop (snd r) (l_fixed st1) (l_filter st1)
             (l_msg st1 ++ another relaxed_things))
      else ret (mkLoop (snd r) (l_fixed st1) (l_filter st1) (l_msg st1))
  end.

Definition _constraint_loop (E : Env) (tolerance : Q) (model_name : string)
  (cache : list (string * option Q)) (relaxed_things : string) (st : Loop)
  : M Loop :=
  let msg :=
    if String.eqb (l_msg st) EmptyString then
      l_msg st ++ "Model " ++ model_name
        ++ " may be infeasible. A feasible solution was found with only the following "
        ++ relaxed_things ++ " relaxed:" ++ newline
    else l_msg st ++ another relaxed_things in
  constraint_rounds E tolerance model_name cache relaxed_things
    (S (List.length (all_cons (l_mm st))))
    (mkLoop (l_mm st) (l_fixed st) (l_filter st) msg).

(** A solve of the clone followed by [_constraint_loop] when it is optimal. *)
Definition relax_phase (E : Env) (tolerance : Q) (model_name : string)
  (cache : list (string * option Q)) (relaxed_things : string) (st : Loop)
  : M Loop :=
  r <~ solver_solve E (l_mm st) ;;
  b <~ lift (check_optimal_termination E (Some (fst r))) ;;
  let st1 := mkLoop (snd r) (l_fixed st) (l_filter st) (l_msg st) in
  if (b : bool) then
    _constraint_loop E tolerance model_name cache relaxed_things st1
  else ret st1.

(** Lines 132-141: free the slacks of the bound constraints. *)
Fixpoint unfix_bound_slacks (cs : list Con) (ss : list Slack)
  : result (list Slack) :=
  match cs with
  | [] => Ok ss
  | c :: rest =>
      let plus := "_slack_plus_" ++ c_name c in
      let minus := "_slack_minus_" ++ c_name c in
      let has := fun n => existsb (fun s => String.eqb (s_name s) n) ss in
      if negb (has plus) && negb (has minus) then Raise AssertionError
      else unfix_bound_slacks rest (unfix_named minus (unfix_named plus ss))
  end.

(** Lines 198-204: free the slacks of the inequality constraints. *)
Fixpoint unfix_inequalities (mm : Modified) (fixed_slacks : list string)
  (vs : list Slack) : result (list Slack) :=
  match vs with
  | [] => Ok []
  | v :: rest =>
      c <- _get_constraint mm v ;;
      r <- unfix_inequalities mm fixed_slacks rest ;;
      if c_equality c then Ok (v :: r)
      else if negb (PyStr.mem (s_name v) fixed_slacks) then Ok (unfix v :: r)
      else Ok (v :: r)
  end.

(** Lines 210-212. *)
Definition unfix_remaining (fixed_slacks : list string) (vs : list Slack)
  : list Slack :=
  map (fun v => if negb (PyStr.mem (s_name v) fixed_slacks) then unfix v
                else v) vs.

(** ** The write-back of lines 220-230 *)

(** [v.set_value(modified_model_var.value)] for every pair of the
    cross-reference map. *)
Definition load_back (mm : Modified) (model : Model) : Model :=
  mkModel (m_name model)
    (map (fun v =>
            match find (fun mv => String.eqb (v_name mv) (v_name v))
                    (mm_vars mm) with
            | Some mv => set_value (v_value mv) v
            | None => v
            end) (m_vars model))
    (m_cons model) (m_objs model).

Definition write_back (E : Env) (mm : Modified) : M unit :=
  fun w =>
    let w1 := mkWorld (load_back mm (w_model w)) (w_writer w)
                (w_log w ++ [WriteBack])%list in
    let '(r, sol) := solve_model E (w_writer w1) (w_model w1) in
    let w2 := mkWorld (load_model sol (w_model w1)) (w_writer w1)
                (w_log w1 ++ [SolveModel])%list in
    match r with
    | None => (w2, Raise SolverFailure)
    | Some results =>
        match check_optimal_termination E (Some results) with
        | Ok true => tell (Print "A feasible solution was found!") w2
        | Ok false =>
            tell (Print "Could not find a feasible solution with violated constraints or bounds. This model is likely unstable") w2
        | Raise e => (w2, Raise e)
        end
    end.

(** ** Phase 2: the deletion filter *)

(** Lines 237-248. *)
Definition deletion_setup (elastic_filter : list Con) (mm : Modified)
  : Modified :=
  let f := fun c => if con_mem c elastic_filter then c
                    else set_active false c in
  mkModified (mm_vars mm) (map f (mm_cons mm))
    (map deactivate_obj (mm_objs mm)) (map f (mm_bounds mm))
    (map fix0 (mm_slacks mm)).

Record Sweep : Type := mkSweep {
  sw_mm : Modified;
  sw_deletion_filter : list Con;
  sw_guards : list Con }.

(** One test of the sweep, lines 261-278. *)
Definition deletion_test (E : Env) (cache : list (string * option Q))
  (constr : Con) (st : Sweep) : M Sweep :=
  r <~ try_solve E (reset_values cache (deactivate (c_name constr) (sw_mm st))) ;;
  match fst r with
  | None =>
      ret (mkSweep (activate (c_name constr) (snd r))
             (sw_deletion_filter st) (sw_guards st ++ [constr])%list)
  | Some results =>
      b <~ lift (check_optimal_termination E (Some results)) ;;
      if (b : bool) then
        ret (mkSweep (activate (c_name constr) (snd r))
               (sw_deletion_filter st ++ [constr])%list (sw_guards st))
      else ret (mkSweep (snd r) (sw_deletion_filter st) (sw_guards st))
  end.

Fixpoint deletion_sweep (E : Env) (cache : list (string * option Q))
  (members : list Con) (st : Sweep) : M Sweep :=
  match members with
  | [] => ret st
  | constr :: rest =>
      st1 <~ deletion_test E cache constr st ;;
      deletion_sweep E cache rest st1
  end.

(** Lines 235-286. *)
Definition deletion_filter_phase (E : Env) (cache : list (string * option Q))
  (st : Loop) : M string :=
  _ <~ register nl_v1 ;;
  r <~ try_solve E (deletion_setup (l_filter st) (l_mm st)) ;;
  b <~ lift (check_optimal_termination E (fst r)) ;;
  msg <~ (if (b : bool) then
            ret (l_msg st ++ "Could not determine Minimal Intractable System"
                   ++ newline)
          else
            sw <~ deletion_sweep E cache (l_filter st) (mkSweep (snd r) [] []) ;;
            let msg0 := l_msg st
                          ++ "Computed Minimal Intractable System (MIS)!"
                          ++ newline ++ "Constraints / bounds in MIS:"
                          ++ newline in
            msg1 <~ lift (_get_results (sw_deletion_filter sw) (Some msg0)) ;;
            lift (_get_results (sw_guards sw)
                    (Some (msg1 ++ "Constraints / bounds in guards for stability:")))) ;;
  _ <~ register _default_nl_writer ;;
  ret msg.

(** ** [compute_infeasibility_explanation] *)

(** Lines 81-141: the clone in elastic form with only the slacks of the
    bound constraints free, and the cache of the starting values. *)
Definition prepare (model : Model)
  : result (Modified * list (string * option Q)) :=
  let _value_cache := map (fun v => (v_name v, v_value v)) (m_vars model) in
  let clone := mkModel (m_name model) (reset_vars _value_cache (m_vars model))
                 (m_cons model) (m_objs model) in
  mm0 <- _apply_to clone ;;
  mm1 <- AddSlackVariables mm0 ;;
  ss <- unfix_bound_slacks (mm_bounds mm1) (map fix0 (mm_slacks mm1)) ;;
  Ok (with_slacks ss mm1, _value_cache).

(** Lines 159-218: the three phases of the relaxation driver. *)
Definition relaxation_driver (E : Env) (tolerance : Q) (name : string)
  (cache : list (string * option Q)) (modified_model : Modified) : M Loop :=
  st1 <~ relax_phase E tolerance name cache "variable bounds"
           (mkLoop modified_model [] [] EmptyString) ;;
  ss <~ lift (unfix_inequalities (l_mm st1) (l_fixed st1)
                (mm_slacks (l_mm st1))) ;;
  st2 <~ relax_phase E tolerance name cache
           "inequality constraints and/or variable bounds"
           (mkLoop (with_slacks ss (l_mm st1)) (l_fixed st1) (l_filter st1)
              (l_msg st1)) ;;
  relax_phase E tolerance name cache
    "inequality constraints, equality constraints, and/or variable bounds"
    (mkLoop (with_slacks (unfix_remaining (l_fixed st2)
                            (mm_slacks (l_mm st2))) (l_mm st2))
       (l_fixed st2) (l_filter st2) (l_msg st2)).

(** The solver is [E]: lines 83-89, which pick it, are not modelled. *)
Definition compute_infeasibility_explanation (E : Env) (tolerance : Q)
  : M unit :=
  fun w =>
    let model := w_model w in
    (p <~ lift (prepare model) ;;
     let cache := snd p in
     st3 <~ relaxation_driver E tolerance (m_name model) cache (fst p) ;;
     _ <~ (if Nat.eqb (List.length (l_filter st3)) 0
           then write_back E (l_mm st3)
           else ret tt) ;;
     msg <~ deletion_filter_phase E cache st3 ;;
     tell (Print msg)) w.

(** ** What the bound transformation is specified to produce *)

(** A character that cannot stand in a component name without quotes. *)
Definition needs_quotes (c : ascii) : bool :=
  is_special c || negb (printable c).

(** How a local name is written inside a qualified name: as it is, or in
    quotes when one of its characters needs them. *)
Definition quoted (local : string) : string :=
  if existsb needs_quotes (list_ascii_of_string local)
  then py_repr local else local.

Definition bound_constraint (kind : string) (v : Var)
  (lower upper : option Q) : Con :=
  mkCon ("_variable_bounds." ++ quoted (kind ++ v_name v)) (kind ++ v_name v)
    lower (BodyVar (v_name v)) upper false true.

Definition has_finite_bound (v : Var) : bool :=
  match bounds v with
  | (None, None) => false
  | _ => true
  end.

(** One constraint per finite bound of a free variable, none for a fixed
    one. *)
Definition expected_constraints (v : Var) : list Con :=
  if v_fixed v then []
  else
    ((match fst (bounds v) with
      | Some lb => [bound_constraint "lb_for_" v (Some lb) None]
      | None => []
      end) ++
     (match snd (bounds v) with
      | Some ub => [bound_constraint "ub_for_" v None (Some ub)]
      | None => []
      end))%list.

(** A free variable with a finite bound loses bounds and domain; any other
    variable is as it was. *)
Definition expected_var (v : Var) : Var :=
  if v_fixed v then v
  else if has_finite_bound v
       then mkVar (v_name v) (v_value v) None None Reals false
  else v.

(** [blk] declares neither bound-constraint name of the variable [x]. *)
Definition fresh_for (x : string) (blk : list Con) : Prop :=
  forall d, In d blk ->
    c_local_name d <> "lb_for_" ++ x /\ c_local_name d <> "ub_for_" ++ x.

(** A constraint named the way the transformation names the ones it adds. *)
Definition synthesized (c : Con) : Prop :=
  exists x,
    (c_local_name c = "lb_for_" ++ x \/ c_local_name c = "ub_for_" ++ x) /\
    c_name c = "_variable_bounds." ++ quoted (c_local_name c).

(** ** What a scan of the slack variables is specified to do *)

(** The value of the slack is strictly above the tolerance. *)
Definition exceeds (tolerance : Q) (v : Slack) : bool :=
  if Qlt_le_dec tolerance (s_value v) then true else false.







(** The clone has a constraint of that name. *)
Definition declared (mm : Modified) (name : string) : bool :=
  existsb (fun c => String.eqb (c_name c) name) (all_cons mm).

(** ** Invariants of the relaxation driver *)

(** The elastic filter is a set of constraints of the clone. *)
Definition filter_ok (cons flt : list Con) : Prop :=
  NoDup (map c_name flt) /\ incl (map c_name flt) (map c_name cons).

(** The events that reach the caller's model. *)
Definition touches_model (e : event) : bool :=
  match e with
  | WriteBack | SolveModel => true
  | _ => false
  end.

(** From [w] to [w'] the caller's model is as it was and no event reached
    it. *)
Definition quiet (w w' : World) : Prop :=
  w_model w' = w_model w /\
  exists new,
    w_log w' = (w_log w ++ new)%list /\
    forallb (fun e => negb (touches_model e)) new = true.

(** ** The state of the slacks when the first phase starts *)

(** [name] is the name of a slack of one of the constraints [cs]. *)
Definition freed (cs : list Con) (name : string) : bool :=
  existsb (fun c => String.eqb name ("_slack_plus_" ++ c_name c)
                    || String.eqb name ("_slack_minus_" ++ c_name c)) cs.

(** One entry of the value cache applied to one variable. *)
Definition restore_entry (v : Var) (entry : string * option Q) : Var :=
  if String.eqb (v_name v) (fst entry) then set_value (snd entry) v else v.

(** The variable [clone] with the value of the variable [start]. *)
Definition back_to_start (p : Var * Var) : Var :=
  set_value (v_value (fst p)) (snd p).

(** The loop state [st'] extends [st]: filter, fixed slacks and message
    only have more at their end. *)
Definition extends (st st' : Loop) : Prop :=
  (exists f, l_filter st' = (l_filter st ++ f)%list) /\
  (exists g, l_fixed st' = (l_fixed st ++ g)%list) /\
  (exists m, l_msg st' = l_msg st ++ m).

(** ** Sample models *)

Definition no_solution : solution := fun _ => None.

(** Two free variables with bounds, one fixed, one free without bounds. *)
Definition tank : Model :=
  mkModel "tank"
    [mkVar "level" (Some 2%Q) (Some 0%Q) (Some 4%Q) Reals false;
     mkVar "inflow" (Some 2%Q) None None NonNegativeReals false;
     mkVar "area" (Some 3%Q) (Some 1%Q) (Some 2%Q) Reals true;
     mkVar "drift" None None None Reals false]
    [mkCon "balance" "balance" (Some 0%Q) (BodyExpr "inflow - level")
       (Some 0%Q) true true]
    [mkObj "obj" true].

(** No free variable is bounded. *)
Definition loose : Model :=
  mkModel "loose"
    [mkVar "area" (Some 3%Q) (Some 1%Q) (Some 2%Q) Reals true;
     mkVar "drift" None None None Reals false;
     mkVar "count" (Some 2%Q) None None Integers false]
    [mkCon "balance" "balance" None (BodyExpr "drift + count") (Some 9%Q)
       false true]
    [mkObj "obj" true].

(** A variable whose name contains [lb], bounded above. *)
Definition priced : Model :=
  mkModel "priced"
    [mkVar "cost_per_lb" (Some 1%Q) None (Some 10%Q) Reals false]
    [] [mkObj "obj" true].

Definition tolerance_default : Q := 1 # 100000000.

(** The clone of a model in elastic form, as [prepare] leaves it. *)
Definition elastic_of (m : Model) : Modified :=
  match prepare m with
  | Ok p => fst p
  | Raise _ => mkModified [] [] [] [] []
  end.

(** A solver that finds every model it is given optimal where it stands. *)
Definition always_optimal : Env :=
  mkEnv (fun _ _ => (Some Optimal, no_solution))
        (fun _ _ => (Some Optimal, no_solution))
        (fun _ => "0") pyomo_check_none.

(** Two bounds in conflict on one variable: [x >= 5] and [x <= 2]. *)
Definition clash : Model :=
  mkModel "clash"
    [mkVar "x" (Some 0%Q) (Some 5%Q) (Some 2%Q) Reals false]
    [] [mkObj "obj" true].

Definition slack_free (mm : Modified) (name : string) : bool :=
  existsb (fun s => String.eqb (s_name s) name && negb (s_fixed s))
    (mm_slacks mm).

Definition lb_x : string := "_variable_bounds.lb_for_x".
Definition ub_x : string := "_variable_bounds.ub_for_x".
Definition plus_lb_x : string := "_slack_plus__variable_bounds.lb_for_x".
Definition minus_ub_x : string := "_slack_minus__variable_bounds.ub_for_x".

Definition point (x plus minus : Q) : solution :=
  fun n =>
    if String.eqb n "x" then Some x
    else if String.eqb n (slack_block_name ++ "." ++ plus_lb_x) then Some plus
    else if String.eqb n (slack_block_name ++ "." ++ minus_ub_x)
         then Some minus
    else None.

(** What an exact solver answers on the clones of [clash]: infeasible when
    both bounds are active with their slacks fixed, else the least
    relaxation. *)
Definition clash_solve (mm : Modified) : option Results * solution :=
  let lb_hard := is_active mm lb_x && negb (slack_free mm plus_lb_x) in
  let ub_hard := is_active mm ub_x && negb (slack_free mm minus_ub_x) in
  if lb_hard && ub_hard then (Some NonOptimal, no_solution)
  else if lb_hard then (Some Optimal, point 5 0 3)
  else (Some Optimal, point 2 3 0).

Definition clash_solver : Env :=
  mkEnv (fun _ mm => clash_solve mm)
        (fun _ _ => (Some NonOptimal, no_solution))
        (fun _ => "3") pyomo_check_none.

(** A solver that never converges and leaves [x] where it stopped. *)
Definition never_converges : Env :=
  mkEnv (fun _ _ => (Some NonOptimal, point 7 0 0))
        (fun _ _ => (Some NonOptimal, point 7 0 0))
        (fun _ => "0") pyomo_check_none.

(** The exact solver of [clash], except that it cannot evaluate the model
    once no objective is active. *)
Definition fragile_solver : Env :=
  mkEnv (fun _ mm => if existsb o_active (mm_objs mm) then clash_solve mm
                     else (None, no_solution))
        (fun _ _ => (Some NonOptimal, no_solution))
        (fun _ => "3") pyomo_check_none.

(** The two constraints its bound transformation adds. *)
Definition clash_lb : Con :=
  mkCon lb_x "lb_for_x" (Some 5%Q) (BodyVar "x") None false true.

Definition clash_ub : Con :=
  mkCon ub_x "ub_for_x" None (BodyVar "x") (Some 2%Q) false true.


(** What the three phases return on [clash] with its exact solver. *)
Definition clash_driven : World * result Loop :=
  Eval vm_compute in
    relaxation_driver clash_solver tolerance_default "clash"
      [("x", Some 0%Q)] (elastic_of clash) (mkWorld clash nl_v2 []).

(** ** The feasibility short-circuit as the specification words it *)

(** The run reports a feasible solution, never enters the deletion filter,
    and loads the solution of the clone back into the caller's model, which
    it solves again. *)
Definition short_circuit_as_stated (E : Env) (tolerance : Q) (w : World)
  : Prop :=
  let w' := fst (compute_infeasibility_explanation E tolerance w) in
  ~ In (Register nl_v1) (w_log w') /\
  In WriteBack (w_log w') /\ In SolveModel (w_log w').

(** A constraint of that name is in the list. *)
Definition named (name : string) (l : list Con) : bool :=
  existsb (fun d => String.eqb (c_name d) name) l.

(** The constraints a sweep has reported so far. *)
Definition reported (st : Sweep) : list Con :=
  (sw_deletion_filter st ++ sw_guards st)%list.

(** What the first phase returns on [clash] with its exact solver. *)
Definition clash_phase_one : World * result Loop :=
  Eval vm_compute in
    relax_phase clash_solver tolerance_default "clash" [("x", Some 0%Q)]
      "variable bounds" (mkLoop (elastic_of clash) [] [] EmptyString)
      (mkWorld clash nl_v2 []).

(** The clone of [tank] after its balance was relaxed upwards and solved
    again: the minus slack of the balance is now above the tolerance. *)
Definition tank_balance : Con :=
  mkCon "balance" "balance" (Some 0%Q) (BodyExpr "inflow - level")
    (Some 0%Q) true true.

Definition tank_second_round : Loop :=
  mkLoop
    (with_slacks [mkSlack "_slack_plus_balance" 0 true;
                  mkSlack "_slack_minus_balance" 1 false]
       (elastic_of tank))
    ["_slack_plus_balance"] [tank_balance] "relaxed: balance".

(** Variables in blocks and in an indexed family, with bounds from the
    declaration and from the domain, one of them fixed. *)
Definition nested : Model :=
  mkModel "nested"
    [mkVar "b.x" (Some 1%Q) (Some 0%Q) (Some 10%Q) Reals false;
     mkVar "flow[1]" (Some 2%Q) (Some 1%Q) None NonNegativeReals false;
     mkVar "share" None None None PercentFraction false;
     mkVar "k" (Some 4%Q) (Some 0%Q) (Some 5%Q) NonNegativeReals true;
     mkVar "free" None None None Reals false]
    [mkCon "b.balance" "balance" (Some 0%Q) (BodyExpr "b.x - flow[1]")
       (Some 0%Q) true true]
    [mkObj "obj" true].

(** Every slack recorded in [fixed_slacks] is fixed at zero. *)
Definition fixed_at_zero (fixed_slacks : list string) (ss : list Slack)
  : Prop :=
  forall s, In s ss -> In (s_name s) fixed_slacks ->
            s_fixed s = true /\ s_value s = 0%Q.

(** * The solver wrapper of watertap/core/plugins/solvers.py

    [compute_infeasibility_explanation] solves through
    [idaes.core.solvers.get_solver()], which this file points at the solver
    [ipopt-watertap].  The solver object keeps its options in a dictionary
    and, around each solve, caches and resets the scaling factors of the
    constraints.  Ipopt itself, the IDAES scaling routine and the writer are
    callees that are not modelled: they appear as the functions of
    [Callees]. *)

Module Solvers.

(** ** Dictionaries keyed by strings *)

Fixpoint assoc_get {V : Type} (k : string) (d : list (string * V))
  : option V :=
  match d with
  | [] => None
  | (k', v) :: r => if String.eqb k' k then Some v else assoc_get k r
  end.

(** [k in d] *)
Definition assoc_has {V : Type} (k : string) (d : list (string * V)) : bool :=
  match assoc_get k d with
  | Some _ => true
  | None => false
  end.

(** [d[k] = v] *)
Fixpoint assoc_set {V : Type} (k : string) (v : V) (d : list (string * V))
  : list (string * V) :=
  match d with
  | [] => [(k, v)]
  | (k', v') :: r =>
      if String.eqb k' k then (k, v) :: r else (k', v') :: assoc_set k v r
  end.

(** [del d[k]], or the removal that [d.pop(k, None)] makes. *)
Definition assoc_del {V : Type} (k : string) (d : list (string * V))
  : list (string * V) :=
  filter (fun p => negb (String.eqb (fst p) k)) d.

(** ** The options of the solver *)

Inductive value : Type :=
| VNone
| VBool (b : bool)
| VNum (q : Q)
| VStr (s : string).

Definition dict : Type := list (string * value).

(** [if key not in options: options[key] = v] *)
Definition set_default (k : string) (v : value) (o : dict) : dict :=
  if assoc_has k o then o else assoc_set k v o.

(** Lines 70-82 of [_presolve]. *)
Definition watertap_defaults (o : dict) : dict :=
  set_default "honor_original_bounds" (VStr "no")
    (set_default "bound_relax_factor" (VNum 0)
       (set_default "ma27_pivtol" (VNum (1 # 100))
          (set_default "acceptable_constr_viol_tol" (VNum (1 # 100000000))
             (set_default "constr_viol_tol" (VNum (1 # 100000000))
                (set_default "tol" (VNum (1 # 100000000)) o))))).

Definition default_names : list string :=
  ["tol"; "constr_viol_tol"; "acceptable_constr_viol_tol"; "ma27_pivtol";
   "bound_relax_factor"; "honor_original_bounds"].

(** The options read by the wrapper and not meant for Ipopt. *)
Definition wrapper_names : list string :=
  ["nlp_scaling_max_gradient"; "nlp_scaling_min_value";
   "ignore_variable_scaling"; "ignore_constraint_scaling"].

(** [v == s] for a string [s]. *)
Definition is_str (v : value) (s : string) : bool :=
  match v with
  | VStr t => String.eqb t s
  | _ => false
  end.

(** ** Errors *)

Inductive error : Type :=
| TypeError (msg : string)
| RuntimeError (msg : string)
| AttributeError
| KeyError
| ImportError (msg : string)
| Passed (msg : string).    (* the exception of a callee, passed on *)

Inductive outcome (A : Type) : Type :=
| Done (a : A)
| Fails (e : error).

Arguments Done {A} a.
Arguments Fails {A} e.

(** ** The solver object and what it acts on *)

Record State : Type := mkState {
  options : dict;
  _cleanup_needed : bool;
  _tee : bool;
  _scaling_cache : option (list (string * option Q));
  _model : bool;                  (* the attribute [self._model] is set *)
  factors : list (string * Q);    (* the scaling factors on the model *)
  filtered : bool;                (* the filter is on the writer's logger *)
  seen : list dict;               (* options [super()._presolve] was given *)
  out : list string }.            (* what was printed *)

Inductive scaled : Type :=
| Scaled (hessian_is_empty : bool)    (* nlp.nnz_hessian_lag() == 0 *)
| ScalingError (msg : string).        (* str(err) of the exception *)

Inductive arg : Type := ABlock | AOther.

(** The callees: the text of a value in an f-string, the IDAES routine
    [constraint_autoscale_large_jac] (the scaling factors it leaves and how it
    ends), [super()._presolve] (the exception it raises, if any) and
    [super()._postsolve]. *)
Record Callees : Type := mkCallees {
  show : value -> string;
  autoscale : value -> value -> value -> value -> list (string * Q)
              -> list (string * Q) * scaled;
  super_presolve : dict -> bool -> option error;
  super_postsolve : outcome unit }.

Definition with_options (o : dict) (st : State) : State :=
  mkState o (_cleanup_needed st) (_tee st) (_scaling_cache st) (_model st)
    (factors st) (filtered st) (seen st) (out st).

Definition with_factors (f : list (string * Q)) (st : State) : State :=
  mkState (options st) (_cleanup_needed st) (_tee st) (_scaling_cache st)
    (_model st) f (filtered st) (seen st) (out st).

Definition print (line : string) (st : State) : State :=
  mkState (options st) (_cleanup_needed st) (_tee st) (_scaling_cache st)
    (_model st) (factors st) (filtered st) (seen st) (out st ++ [line])%list.

(** [_get_option]: the option is popped; [None], set or missing, gives the
    default. *)
Definition _get_option (C : Callees) (option_name : string)
  (default_value : value) (st : State) : value * State :=
  let popped := with_options (assoc_del option_name (options st)) st in
  match assoc_get option_name (options st) with
  | None | Some VNone => (default_value, popped)
  | Some option_value =>
      (option_value,
       if _tee st
       then print ("ipopt-watertap: " ++ option_name ++ "="
                     ++ show C option_value) popped
       else popped)
  end.

Definition _is_user_scaling (C : Callees) (st : State) : bool * State :=
  let st1 := with_options
               (set_default "nlp_scaling_method" (VStr "user-scaling")
                  (options st)) st in
  match assoc_get "nlp_scaling_method" (options st1) with
  | Some v =>
      if is_str v "user-scaling" then (true, st1)
      else (false,
            if _tee st1
            then print ("The ipopt-watertap solver is designed to be run with user-scaling. "
                          ++ "Ipopt with nlp_scaling_method=" ++ show C v
                          ++ " will be used instead") st1
            else st1)
  | None => (true, st1)     (* not reached: the key was just set *)
  end.

(** The names of the active constraints of the model. *)
Definition active_names (cons : list (string * bool)) : list string :=
  map fst (filter snd cons).

Definition _cache_scaling_factors (cons : list (string * bool)) (st : State)
  : State :=
  mkState (options st) (_cleanup_needed st) (_tee st)
    (Some (map (fun c => (c, assoc_get c (factors st))) (active_names cons)))
    (_model st) (factors st) (filtered st) (seen st) (out st).

(** One entry of the cache put back: [unset_scaling_factor] for [None],
    [set_scaling_factor] otherwise. *)
Definition put_back (f : list (string * Q)) (entry : string * option Q)
  : list (string * Q) :=
  match snd entry with
  | None => assoc_del (fst entry) f
  | Some s => assoc_set (fst entry) s f
  end.

Definition _reset_scaling_factors (st : State) : State * option error :=
  match _scaling_cache st with
  | None => (st, Some AttributeError)
  | Some cache =>
      (mkState (options st) (_cleanup_needed st) (_tee st) None
         (_model st) (fold_left put_back cache (factors st))
         (filtered st) (seen st) (out st), None)
  end.

Definition _cleanup (st : State) : State * option error :=
  if _cleanup_needed st then
    match _reset_scaling_factors st with
    | (st1, Some e) => (st1, Some e)
    | (st1, None) =>
        if _model st1
        then (mkState (options st1) (_cleanup_needed st1) (_tee st1)
                (_scaling_cache st1) false (factors st1) false
                (seen st1) (out st1), None)
        else (st1, Some AttributeError)
    end
  else (st, None).

(** [self._cleanup(); raise ...] *)
Definition cleanup_and_raise (e : error) (st : State) : State * outcome unit :=
  match _cleanup st with
  | (st1, None) => (st1, Fails e)
  | (st1, Some e1) => (st1, Fails e1)
  end.

Definition _postsolve (C : Callees) (st : State) : State * outcome unit :=
  match _cleanup st with
  | (st1, None) => (st1, super_postsolve C)
  | (st1, Some e) => (st1, Fails e)
  end.

Definition ampl_message : string :=
  "Error in AMPL evaluation." ++ newline
    ++ "Run ipopt with halt_on_ampl_error=yes and symbolic_solver_labels=True to see the affected function.".

(** The end of [_presolve], lines 147-159. *)
Definition write_problem (C : Callees) (tee : bool) (nlp : option bool)
  (st : State) : State * outcome unit :=
  let st1 :=
    match nlp with
    | Some true =>
        with_options (set_default "alpha_for_y" (VStr "bound-mult")
                        (options st)) st
    | _ => st
    end in
  let st2 := mkState (options st1) (_cleanup_needed st1) (_tee st1)
               (_scaling_cache st1) (_model st1) (factors st1) (filtered st1)
               (seen st1 ++ [options st1])%list (out st1) in
  match super_presolve C (options st2) tee with
  | None => (st2, Done tt)
  | Some e => cleanup_and_raise e st2
  end.

(** Lines 116-159 of [_presolve]: what follows the call of
    [constraint_autoscale_large_jac], which ended as [r]. *)
Definition after_scaling (C : Callees) (tee : bool) (r : scaled) (st : State)
  : State * outcome unit :=
  match r with
  | Scaled hessian_is_empty => write_problem C tee (Some hessian_is_empty) st
  | ScalingError msg =>
      if String.eqb msg "Error in AMPL evaluation" then
        let st1 := print "ipopt-watertap: Issue in AMPL function evaluation; Jacobian constraint scaling not applied." st in
        let halt_on_ampl_error :=
          match assoc_get "halt_on_ampl_error" (options st1) with
          | Some v => v
          | None => VStr "yes"
          end in
        if is_str halt_on_ampl_error "no" then
          write_problem C tee None
            (print "ipopt-watertap: halt_on_ampl_error=no, so continuing with optimization." st1)
        else cleanup_and_raise (RuntimeError ampl_message) st1
      else
        cleanup_and_raise (Passed msg)
          (print "Error in constraint_autoscale_large_jac" st)
  end.

Definition _presolve (C : Callees) (cons : list (string * bool))
  (args : list arg) (tee : bool) (st : State) : State * outcome unit :=
  match args with
  | [ABlock] =>
      let st0 := mkState (watertap_defaults (options st)) false tee
                   (_scaling_cache st) (_model st) (factors st) (filtered st)
                   (seen st) (out st) in
      let '(user, st1) := _is_user_scaling C st0 in
      if negb user then
        let st2 := mkState (options st1) (_cleanup_needed st1) (_tee st1)
                     (_scaling_cache st1) (_model st1) (factors st1)
                     (filtered st1) (seen st1 ++ [options st1])%list
                     (out st1) in
        match super_presolve C (options st2) tee with
        | Some e => (st2, Fails e)
        | None =>
            match _cleanup st2 with
            | (st3, None) => (st3, Done tt)
            | (st3, Some e) => (st3, Fails e)
            end
        end
      else
        let st2 :=
          if _tee st1
          then print "ipopt-watertap: Ipopt with user variable scaling and IDAES jacobian constraint scaling" st1
          else st1 in
        let '(max_grad, st3) :=
          _get_option C "nlp_scaling_max_gradient" (VNum 100) st2 in
        let '(min_scale, st4) :=
          _get_option C "nlp_scaling_min_value" (VNum (1 # 100000000)) st3 in
        let '(ignore_variable_scaling, st5) :=
          _get_option C "ignore_variable_scaling" (VBool false) st4 in
        let '(ignore_constraint_scaling, st6) :=
          _get_option C "ignore_constraint_scaling" (VBool false) st5 in
        let st7 := _cache_scaling_factors cons st6 in
        let st8 := mkState (options st7) true (_tee st7) (_scaling_cache st7)
                     true (factors st7) true (seen st7) (out st7) in
        let '(f, r) := autoscale C ignore_constraint_scaling
                         ignore_variable_scaling max_grad min_scale
                         (factors st8) in
        after_scaling C tee r (with_factors f st8)
  | [AOther] =>
      (st, Fails (TypeError
         "IpoptWaterTAP.solve takes 1 positional argument: a Pyomo ConcreteModel or Block"))
  | _ =>
      (st, Fails (TypeError
         ("IpoptWaterTAP.solve takes 1 positional argument but "
            ++ NilZero.string_of_uint (Nat.to_uint (List.length args))
            ++ " were given")))
  end.

(** ** The debug wrapper: values cached before the solve *)

(** [_cache_initial_values]: entries are added or overwritten, never
    removed. *)
Definition _cache_initial_values (vs : list Var)
  (cache : list (string * option Q)) : list (string * option Q) :=
  fold_left (fun c v => assoc_set (v_name v) (v_value v) c) vs cache.

(** [restore_initial_values]: a variable that was never cached is a
    [KeyError]; the variables before it have been set by then. *)
Fixpoint restore_initial_values (cache : list (string * option Q))
  (vs : list Var) : list Var * option error :=
  match vs with
  | [] => ([], None)
  | v :: rest =>
      match assoc_get (v_name v) cache with
      | None => (v :: rest, Some KeyError)
      | Some val =>
          let '(r, e) := restore_initial_values cache rest in
          (set_value val v :: r, e)
      end
  end.

(** The base solver, as the wrapper sees it: the values it leaves on the
    variables, and the results it returns ([None] also when it raises). *)
Definition base_solver : Type :=
  dict -> list Var -> (string -> option Q) * option Results.

Definition load_values (sol : string -> option Q) (vs : list Var) : list Var :=
  map (fun v => set_value (sol (v_name v)) v) vs.

(** [for k, v in self.options.items(): solver.options[k] = v] *)
Definition copy_options (wrapper_options solver_options : dict) : dict :=
  fold_left (fun o kv => assoc_set (fst kv) (snd kv) o) wrapper_options
    solver_options.

Record Debug : Type := mkDebug {
  d_vars : list Var;
  d_cache : list (string * option Q);
  d_results : option Results;
  d_session : bool }.            (* lines 257-286 were reached *)

(** [_BaseDebugSolverWrapper.solve] up to the point where the interactive
    session opens (line 264); the session itself is not modelled. *)
Definition debug_solve (IPython_available : bool) (solver : base_solver)
  (wrapper_options solver_options : dict)
  (cache : list (string * option Q)) (vs : list Var) : outcome Debug :=
  if negb IPython_available then
    Fails (ImportError "The DebugSolverWrapper requires ipython.")
  else
    let o := copy_options wrapper_options solver_options in
    let cache1 := _cache_initial_values vs cache in
    let '(sol, results) := solver o vs in
    let vs1 := load_values sol vs in
    match results with
    | Some Optimal => Done (mkDebug vs1 cache1 results false)
    | _ =>
        match restore_initial_values cache1 vs1 with
        | (vs2, None) => Done (mkDebug vs2 cache1 results true)
        | (vs2, Some e) => Fails e
        end
    end.

End Solvers.

(** The defaults of lines 70-82 as a table, for the statements below. *)
Definition default_values : Solvers.dict :=
  [("tol", Solvers.VNum (1 # 100000000));
   ("constr_viol_tol", Solvers.VNum (1 # 100000000));
   ("acceptable_constr_viol_tol", Solvers.VNum (1 # 100000000));
   ("ma27_pivtol", Solvers.VNum (1 # 100));
   ("bound_relax_factor", Solvers.VNum 0);
   ("honor_original_bounds", Solvers.VStr "no")].

(** A user's option wins over a default. *)
Definition overlay (user defaults : Solvers.dict) (k : string)
  : option Solvers.value :=
  match Solvers.assoc_get k user with
  | Some v => Some v
  | None => Solvers.assoc_get k defaults
  end.

(** [nlp_scaling_method] is missing or is ["user-scaling"]. *)
Definition user_scaling (o : Solvers.dict) : bool :=
  match Solvers.assoc_get "nlp_scaling_method" o with
  | Some v => Solvers.is_str v "user-scaling"
  | None => true
  end.

(** The options after the wrapper took its own out (lines 97-104). *)
Definition without_wrapper_options (o : Solvers.dict) : Solvers.dict :=
  Solvers.assoc_del "ignore_constraint_scaling"
    (Solvers.assoc_del "ignore_variable_scaling"
       (Solvers.assoc_del "nlp_scaling_min_value"
          (Solvers.assoc_del "nlp_scaling_max_gradient" o))).

(** The cache of line 172 for the factors [f]. *)
Definition cache_of (cons : list (string * bool)) (f : list (string * Q))
  : list (string * option Q) :=
  map (fun c => (c, Solvers.assoc_get c f)) (Solvers.active_names cons).

(** The solver object between a successful [_presolve] with user scaling and
    the [_cleanup] that follows. *)
Definition ready (cache : list (string * option Q)) (st : Solvers.State)
  : Prop :=
  Solvers._cleanup_needed st = true /\
  Solvers._scaling_cache st = Some cache /\
  Solvers._model st = true.

(** [o'] has every option of [o] with its value, and beside them at most
    [alpha_for_y]. *)
Definition keeps (o o' : Solvers.dict) : Prop :=
  (forall k v, Solvers.assoc_get k o = Some v ->
               Solvers.assoc_get k o' = Some v) /\
  (forall k, k <> "alpha_for_y" ->
             Solvers.assoc_get k o' = Solvers.assoc_get k o) /\
  (Solvers.assoc_get "alpha_for_y" o = None ->
   Solvers.assoc_get "alpha_for_y" o' = None \/
   Solvers.assoc_get "alpha_for_y" o' = Some (Solvers.VStr "bound-mult")).

(** The options of the solver when [_presolve] hands over to Ipopt's own
    [_presolve], [alpha_for_y] apart. *)
Definition options_for_ipopt (o : Solvers.dict) : Solvers.dict :=
  let o1 := Solvers.set_default "nlp_scaling_method"
              (Solvers.VStr "user-scaling") (Solvers.watertap_defaults o) in
  if user_scaling o then without_wrapper_options o1 else o1.

(** Sample callees and solver objects. *)
Definition plain_show (v : Solvers.value) : string :=
  match v with
  | Solvers.VStr s => s
  | Solvers.VBool true => "True"
  | Solvers.VBool false => "False"
  | Solvers.VNone => "None"
  | Solvers.VNum _ => "1.0"
  end.

(** The scaling routine sets the factor of [balance] and finds no Hessian
    entry; Ipopt's own [_presolve] returns. *)
Definition lp_callees : Solvers.Callees :=
  Solvers.mkCallees plain_show
    (fun _ _ _ _ f => (Solvers.assoc_set "balance" 5 f, Solvers.Scaled true))
    (fun _ _ => None) (Solvers.Done tt).

(** As [lp_callees], but Ipopt's own [_presolve] raises. *)
Definition failing_writer : Solvers.Callees :=
  Solvers.mkCallees plain_show
    (fun _ _ _ _ f => (Solvers.assoc_set "balance" 5 f, Solvers.Scaled false))
    (fun _ _ => Some (Solvers.Passed "the writer failed")) (Solvers.Done tt).

(** The scaling routine fails in an AMPL function. *)
Definition ampl_callees : Solvers.Callees :=
  Solvers.mkCallees plain_show
    (fun _ _ _ _ f => (f, Solvers.ScalingError "Error in AMPL evaluation"))
    (fun _ _ => None) (Solvers.Done tt).

Definition fresh_solver (o : Solvers.dict) (f : list (string * Q))
  : Solvers.State :=
  Solvers.mkState o false false None false f false [] [].

Definition two_constraints : list (string * bool) :=
  [("balance", true); ("spare", false)].

Definition user_options : Solvers.dict :=
  [("tol", Solvers.VNum (1 # 1000000));
   ("nlp_scaling_max_gradient", Solvers.VNum 10)].

Definition gradient_scaling : Solvers.dict :=
  [("nlp_scaling_method", Solvers.VStr "gradient-based");
   ("nlp_scaling_max_gradient", Solvers.VNum 10)].

(** A base solver that moves [x] to 9 and fails. *)
Definition stuck_solver : Solvers.base_solver :=
  fun _ _ => (fun name => if String.eqb name "x" then Some 9 else None,
              Some NonOptimal).

Definition lp_start : Solvers.State :=
  fresh_solver user_options [("balance", 2)].

(** [_presolve] on [lp_start], when all goes well and when the writer
    fails. *)
Definition lp_run : Solvers.State * Solvers.outcome unit :=
  Eval vm_compute in
    Solvers._presolve lp_callees two_constraints [Solvers.ABlock] false
      lp_start.

(** The options Ipopt's own [_presolve] was given in [lp_run]. *)
Definition lp_sent : Solvers.dict :=
  Eval vm_compute in hd [] (Solvers.seen (fst lp_run)).

Definition failed_run : Solvers.State * Solvers.outcome unit :=
  Eval vm_compute in
    Solvers._presolve failing_writer two_constraints [Solvers.ABlock] false
      lp_start.

Definition ampl_run : Solvers.State * Solvers.outcome unit :=
  Eval vm_compute in
    Solvers._presolve ampl_callees two_constraints [Solvers.ABlock] false
      lp_start.

(** The value [restore_initial_values] gives a variable. *)
Definition cached (cache : list (string * option Q)) (v : Var) : Var :=
  match Solvers.assoc_get (v_name v) cache with
  | Some val => set_value val v
  | None => v
  end.

Definition two_vars : list Var :=
  [mkVar "x" (Some 1%Q) None None Reals false;
   mkVar "y" None (Some 0%Q) None Reals false].

(** * Properties *)

(** ** Strings *)

Lemma mem_In (x : string) (l : list string) :
  PyStr.mem x l = true <-> In x l.
Proof.
  induction l as [|y l IH]; simpl.
  - split; [discriminate | tauto].
  - destruct (String.eqb x y) eqn:E.
    + apply String.eqb_eq in E. subst. tauto.
    + apply String.eqb_neq in E. rewrite IH.
      split; [tauto|]. intros [H|H]; [congruence | exact H].
Qed.

(** ** Names in quotes *)

Lemma quote_of_cases (s : string) :
  quote_of s = single_quote \/ quote_of s = double_quote.
Proof.
  unfold quote_of.
  destruct (has_char single_quote s && negb (has_char double_quote s));
    [right | left]; reflexivity.
Qed.

Lemma escape_plain (q c : ascii) :
  q = single_quote \/ q = double_quote ->
  needs_quotes c = false -> escape q c = String c EmptyString.
Proof.
  intros [-> | ->];
    destruct c as [[|] [|] [|] [|] [|] [|] [|] [|]]; vm_compute;
    intros H; try reflexivity; discriminate H.
Qed.

Lemma escape_special (q c : ascii) :
  q = single_quote \/ q = double_quote ->
  needs_quotes c = true -> re_special_char (escape q c) = true.
Proof.
  intros [-> | ->];
    destruct c as [[|] [|] [|] [|] [|] [|] [|] [|]]; vm_compute;
    intros H; try reflexivity; discriminate H.
Qed.

Lemma re_special_char_app (a b : string) :
  re_special_char (a ++ b) = re_special_char a || re_special_char b.
Proof.
  unfold re_special_char. induction a as [|c a IH]; simpl; [reflexivity|].
  rewrite IH. apply orb_assoc.
Qed.

Lemma re_special_char_escaped (q : ascii) (s : string) :
  q = single_quote \/ q = double_quote ->
  re_special_char (escaped q s) = existsb needs_quotes (list_ascii_of_string s).
Proof.
  intros Q. induction s as [|c s IH]; [reflexivity|].
  cbn [escaped list_ascii_of_string existsb].
  rewrite re_special_char_app, IH.
  destruct (needs_quotes c) eqn:N.
  - now rewrite (escape_special q c Q N).
  - rewrite (escape_plain q c Q N).
    unfold needs_quotes in N. apply orb_false_iff in N. destruct N as [N _].
    unfold re_special_char. simpl. now rewrite N.
Qed.

Lemma escaped_plain (q : ascii) (s : string) :
  q = single_quote \/ q = double_quote ->
  existsb needs_quotes (list_ascii_of_string s) = false ->
  escaped q s = s.
Proof.
  intros Q. induction s as [|c s IH]; [reflexivity|].
  cbn [escaped list_ascii_of_string existsb]. intros H.
  apply orb_false_iff in H. destruct H as [N H].
  now rewrite (escape_plain q c Q N), (IH H).
Qed.

(** [name_repr] puts a name in quotes when one of its characters needs
    them, when it starts with a bar and when it reads as a number. *)
Lemma name_repr_spec (s : string) :
  name_repr s =
  if existsb needs_quotes (list_ascii_of_string s) then py_repr s
  else if starts_with_bar s then py_repr s
  else if re_number s then py_repr s
  else s.
Proof.
  unfold name_repr.
  pose proof (re_special_char_escaped _ s (quote_of_cases s)) as R.
  destruct (existsb needs_quotes (list_ascii_of_string s)) eqn:N.
  - rewrite R. now destruct (starts_with_bar _).
  - rewrite (escaped_plain _ s (quote_of_cases s) N) in *. rewrite R.
    reflexivity.
Qed.

(** The local names of the bound constraints start with a letter: they are
    written in quotes only for a character that needs them. *)
Lemma name_repr_lb (x : string) :
  name_repr ("lb_for_" ++ x) = quoted ("lb_for_" ++ x).
Proof. rewrite name_repr_spec. reflexivity. Qed.

Lemma name_repr_ub (x : string) :
  name_repr ("ub_for_" ++ x) = quoted ("ub_for_" ++ x).
Proof. rewrite name_repr_spec. reflexivity. Qed.

(** ** The bound transformation *)

Lemma existsb_local_false (name : string) (blk : list Con) :
  (forall d, In d blk -> c_local_name d <> name) ->
  existsb (fun d => String.eqb (c_local_name d) name) blk = false.
Proof.
  intros H. apply not_true_iff_false. intros T.
  apply existsb_exists in T. destruct T as [d [Hd He]].
  apply String.eqb_eq in He. exact (H d Hd He).
Qed.

Lemma add_component_fresh (name : string) (con : Con) (blk : list Con) :
  (forall d, In d blk -> c_local_name d <> name) ->
  add_component name con blk =
  Ok (blk ++ [mkCon (boundconstrblockname ++ "." ++ name_repr name) name
                (c_lower con) (c_body con) (c_upper con)
                (c_equality con) (c_active con)])%list.
Proof.
  intros H. unfold add_component.
  rewrite (existsb_local_false _ _ H). reflexivity.
Qed.

Lemma convert_var_spec (v : Var) (blk : list Con) :
  fresh_for (v_name v) blk ->
  convert_var v blk = Ok ((blk ++ expected_constraints v)%list, expected_var v).
Proof.
  intros F. unfold convert_var, expected_constraints, expected_var,
    has_finite_bound.
  destruct (v_fixed v) eqn:Fx.
  { rewrite app_nil_r. reflexivity. }
  assert (Sv : strip_bounds v
               = mkVar (v_name v) (v_value v) None None Reals false).
  { unfold strip_bounds. now rewrite Fx. }
  destruct (bounds v) as [lb ub]. simpl fst. simpl snd.
  unfold bound_constraint.
  destruct lb as [l|], ub as [u|]; cbv iota beta.
  - rewrite add_component_fresh by (intros d Hd; apply (F d Hd)).
    cbn [bind]. rewrite add_component_fresh.
    + cbn [bind]. rewrite <- app_assoc, Sv, name_repr_lb, name_repr_ub.
      reflexivity.
    + intros d Hd. apply in_app_or in Hd. destruct Hd as [Hd|[Hd|[]]].
      * apply (F d Hd).
      * subst d. cbn [c_local_name]. discriminate.
  - rewrite add_component_fresh by (intros d Hd; apply (F d Hd)).
    cbn [bind]. rewrite Sv, name_repr_lb. reflexivity.
  - cbn [bind].
    rewrite add_component_fresh by (intros d Hd; apply (F d Hd)).
    cbn [bind]. rewrite Sv, name_repr_ub. reflexivity.
  - rewrite app_nil_r. reflexivity.
Qed.

Lemma expected_constraints_names (v : Var) (d : Con) :
  In d (expected_constraints v) ->
  c_local_name d = "lb_for_" ++ v_name v \/
  c_local_name d = "ub_for_" ++ v_name v.
Proof.
  unfold expected_constraints. destruct (v_fixed v); [intros []|].
  intros H. apply in_app_or in H.
  destruct H as [H|H].
  - destruct (fst (bounds v)); [|destruct H].
    destruct H as [H|[]]. subst d. left. reflexivity.
  - destruct (snd (bounds v)); [|destruct H].
    destruct H as [H|[]]. subst d. right. reflexivity.
Qed.

Lemma convert_vars_spec (vs : list Var) :
  NoDup (map v_name vs) ->
  forall blk,
    (forall v, In v vs -> fresh_for (v_name v) blk) ->
    convert_vars vs blk =
    Ok ((blk ++ flat_map expected_constraints vs)%list, map expected_var vs).
Proof.
  induction vs as [|v vs IH]; intros ND blk F; simpl.
  - rewrite app_nil_r. reflexivity.
  - inversion ND as [|? ? Hnotin ND']; subst.
    rewrite (convert_var_spec v) by (apply F; left; reflexivity).
    simpl. rewrite IH; [simpl; rewrite app_assoc; reflexivity | exact ND' |].
    intros v' Hv' d Hd. apply in_app_or in Hd. destruct Hd as [Hd|Hd].
    + apply (F v' (or_intror Hv') d Hd).
    + assert (Hne : v_name v <> v_name v').
      { intros E. apply Hnotin. rewrite E. apply in_map. exact Hv'. }
      destruct (expected_constraints_names v d Hd) as [E|E]; rewrite E;
        split; intros Q; simpl in Q; inversion Q; congruence.
Qed.


(** C5: on a model whose variables have distinct names, the bound
    transformation gives every free variable with a finite bound exactly one
    constraint per finite bound in the sub-block, [lb_for_<name>] for
    [lb <= v] and [ub_for_<name>] for [v <= ub], under the qualified name
    [_variable_bounds.<local name>] with the local name in quotes where it
    needs them; the variable then has no lower bound, no upper bound and the
    domain [Reals], with its name and value as before; a fixed variable
    keeps bounds and domain and gets no constraint, and so does a free
    variable without a finite bound. *)
Theorem bounds_become_constraints (instance : Model) :
  NoDup (map v_name (m_vars instance)) ->
  _apply_to instance =
  Ok (mkModified (map expected_var (m_vars instance)) (m_cons instance)
        (m_objs instance) (flat_map expected_constraints (m_vars instance))
        []).
Proof.
  intros ND. unfold _apply_to.
  rewrite (convert_vars_spec _ ND) by (intros v _ d []).
  reflexivity.
Qed.

Lemma bounds_become_constraints_witness :
  NoDup (map v_name (m_vars nested)) /\
  _apply_to nested =
  Ok (mkModified
        [mkVar "b.x" (Some 1%Q) None None Reals false;
         mkVar "flow[1]" (Some 2%Q) None None Reals false;
         mkVar "share" None None None Reals false;
         mkVar "k" (Some 4%Q) (Some 0%Q) (Some 5%Q) NonNegativeReals true;
         mkVar "free" None None None Reals false]
        (m_cons nested) (m_objs nested)
        [mkCon "_variable_bounds.'lb_for_b.x'" "lb_for_b.x" (Some 0%Q)
           (BodyVar "b.x") None false true;
         mkCon "_variable_bounds.'ub_for_b.x'" "ub_for_b.x" None
           (BodyVar "b.x") (Some 10%Q) false true;
         mkCon "_variable_bounds.'lb_for_flow[1]'" "lb_for_flow[1]"
           (Some 1%Q) (BodyVar "flow[1]") None false true;
         mkCon "_variable_bounds.lb_for_share" "lb_for_share" (Some 0%Q)
           (BodyVar "share") None false true;
         mkCon "_variable_bounds.ub_for_share" "ub_for_share" None
           (BodyVar "share") (Some 1%Q) false true]
        []).
Proof.
  assert (ND : NoDup (map v_name (m_vars nested))).
  { simpl. repeat constructor; simpl; intuition discriminate. }
  split; [exact ND | exact (bounds_become_constraints nested ND)].
Defined.

Lemma convert_vars_untouched (vs : list Var) (blk : list Con) :
  (forall v, In v vs -> v_fixed v = false -> bounds v = (None, None)) ->
  convert_vars vs blk = Ok (blk, vs).
Proof.
  induction vs as [|v vs IH]; intros H; simpl; [reflexivity|].
  assert (Hv : convert_var v blk = Ok (blk, v)).
  { unfold convert_var. destruct (v_fixed v) eqn:Fx; [reflexivity|].
    rewrite (H v (or_introl eq_refl) Fx). reflexivity. }
  rewrite Hv. simpl. rewrite IH; [reflexivity|].
  intros v' Hv'. apply H. right. exact Hv'.
Qed.

(** C8: when no free variable has a finite bound, the bound transformation
    adds no constraint and leaves every variable, with its bounds and its
    domain, as it was. *)
Theorem transform_without_bounded_free_variables (instance : Model) :
  (forall v, In v (m_vars instance) -> v_fixed v = false ->
             bounds v = (None, None)) ->
  _apply_to instance =
  Ok (mkModified (m_vars instance) (m_cons instance) (m_objs instance) [] []).
Proof.
  intros H. unfold _apply_to. rewrite (convert_vars_untouched _ [] H).
  reflexivity.
Qed.

Lemma transform_without_bounded_free_variables_witness :
  (forall v, In v (m_vars loose) -> v_fixed v = false ->
             bounds v = (None, None)) /\
  _apply_to loose =
  Ok (mkModified (m_vars loose) (m_cons loose) (m_objs loose) [] []).
Proof.
  assert (H : forall v, In v (m_vars loose) -> v_fixed v = false ->
                        bounds v = (None, None)).
  { simpl. intros v [E|[E|[E|[]]]] Fx; subst v;
      [discriminate Fx | reflexivity | reflexivity]. }
  split; [exact H | exact (transform_without_bounded_free_variables loose H)].
Defined.

(** ** Names of the synthesized constraints and their rendering *)

Lemma add_component_inv (name : string) (con : Con) (blk blk' : list Con) :
  add_component name con blk = Ok blk' ->
  blk' = (blk ++ [mkCon ("_variable_bounds." ++ name_repr name) name
                    (c_lower con) (c_body con) (c_upper con)
                    (c_equality con) (c_active con)])%list.
Proof.
  unfold add_component.
  destruct (existsb _ blk); [discriminate|].
  intros H. inversion H. reflexivity.
Qed.

Lemma convert_var_synth (v : Var) (blk blk' : list Con) (v' : Var) :
  convert_var v blk = Ok (blk', v') ->
  forall d, In d blk' -> In d blk \/ synthesized d.
Proof.
  unfold convert_var. destruct (v_fixed v).
  { intros H. inversion H. subst. tauto. }
  destruct (bounds v) as [lb ub].
  assert (Hlb : forall l b1, add_component ("lb_for_" ++ v_name v)
                  (Constraint (Some l) v None) blk = Ok b1 ->
                forall d, In d b1 -> In d blk \/ synthesized d).
  { intros l b1 H d Hd. rewrite (add_component_inv _ _ _ _ H) in Hd.
    apply in_app_or in Hd. destruct Hd as [Hd|[Hd|[]]]; [tauto|].
    right. subst d. exists (v_name v). cbn [c_name c_local_name].
    split; [left; reflexivity | now rewrite name_repr_lb]. }
  assert (Hub : forall u b1 b2, add_component ("ub_for_" ++ v_name v)
                  (Constraint None v (Some u)) b1 = Ok b2 ->
                forall d, In d b2 -> In d b1 \/ synthesized d).
  { intros u b1 b2 H d Hd. rewrite (add_component_inv _ _ _ _ H) in Hd.
    apply in_app_or in Hd. destruct Hd as [Hd|[Hd|[]]]; [tauto|].
    right. subst d. exists (v_name v). cbn [c_name c_local_name].
    split; [right; reflexivity | now rewrite name_repr_ub]. }
  destruct lb as [l|], ub as [u|]; simpl.
  - destruct (add_component _ _ blk) as [b1|] eqn:A1; [|discriminate].
    simpl. destruct (add_component _ _ b1) as [b2|] eqn:A2; [|discriminate].
    simpl. intros H d Hd. inversion H. subst.
    destruct (Hub _ _ _ A2 d Hd) as [Hd1|Hs]; [|tauto].
    exact (Hlb _ _ A1 d Hd1).
  - destruct (add_component _ _ blk) as [b1|] eqn:A1; [|discriminate].
    simpl. intros H d Hd. inversion H. subst. exact (Hlb _ _ A1 d Hd).
  - destruct (add_component _ _ blk) as [b1|] eqn:A1; [|discriminate].
    simpl. intros H d Hd. inversion H. subst. exact (Hub _ _ _ A1 d Hd).
  - intros H. inversion H. subst. tauto.
Qed.

Lemma convert_vars_synth (vs : list Var) :
  forall blk blk' vs',
    convert_vars vs blk = Ok (blk', vs') ->
    forall d, In d blk' -> In d blk \/ synthesized d.
Proof.
  induction vs as [|v vs IH]; intros blk blk' vs'; simpl.
  - intros H. inversion H. subst. tauto.
  - destruct (convert_var v blk) as [[b1 v1]|] eqn:C1; [|discriminate].
    simpl. destruct (convert_vars vs b1) as [[b2 vs2]|] eqn:C2;
      [|discriminate].
    simpl. intros H d Hd. inversion H. subst.
    destruct (IH _ _ _ C2 d Hd) as [Hd1|Hs]; [|tauto].
    exact (convert_var_synth _ _ _ _ C1 d Hd1).
Qed.

Lemma apply_to_synthesized (instance : Model) (mm : Modified) :
  _apply_to instance = Ok mm ->
  forall c, In c (mm_bounds mm) -> synthesized c.
Proof.
  unfold _apply_to.
  destruct (convert_vars (m_vars instance) []) as [[b vs]|] eqn:C;
    [|discriminate].
  simpl. intros H c Hc. inversion H. subst. simpl in Hc.
  destruct (convert_vars_synth _ _ _ _ C c Hc) as [[]|Hs]. exact Hs.
Qed.

Lemma synthesized_branch (c : Con) :
  synthesized c ->
  PyStr.contains "_variable_bounds" (c_name c) = true /\
  (PyStr.contains "lb" (c_local_name c) = true \/
   PyStr.contains "ub" (c_local_name c) = true).
Proof.
  intros [x [Hl Hn]]. split.
  - rewrite Hn. reflexivity.
  - destruct Hl as [Hl|Hl]; rewrite Hl; [left | right]; reflexivity.
Qed.

Lemma render_synthesized (c : Con) (msg : string) :
  synthesized c -> exists text, render c msg = Ok text.
Proof.
  intros Hs. destruct (synthesized_branch _ Hs) as [Hb Hk].
  unfold render. rewrite Hb.
  destruct (PyStr.contains "lb" (c_local_name c)); [eexists; reflexivity|].
  destruct Hk as [Hk|Hk]; [discriminate|].
  rewrite Hk. eexists; reflexivity.
Qed.

Lemma render_with_value_synthesized (E : Env) (c : Con) (value : Q)
  (msg : string) :
  synthesized c -> exists text, render_with_value E c value msg = Ok text.
Proof.
  intros Hs. destruct (synthesized_branch _ Hs) as [Hb Hk].
  unfold render_with_value. rewrite Hb.
  destruct (PyStr.contains "lb" (c_local_name c)); [eexists; reflexivity|].
  destruct Hk as [Hk|Hk]; [discriminate|].
  rewrite Hk. eexists; reflexivity.
Qed.

Lemma render_all_synthesized (l : list Con) :
  Forall synthesized l ->
  forall msg, exists text, render_all l msg = Ok text.
Proof.
  induction 1 as [|c l Hc _ IH]; intros msg; simpl.
  - eexists; reflexivity.
  - destruct (render_synthesized _ msg Hc) as [t Ht]. rewrite Ht. simpl.
    apply IH.
Qed.

Lemma render_all_with_value_synthesized (E : Env) (l : list (Con * Q)) :
  Forall synthesized (map fst l) ->
  forall msg, exists text, render_all_with_value E l msg = Ok text.
Proof.
  induction l as [|[c q] l IH]; intros F msg; simpl.
  - eexists; reflexivity.
  - inversion F as [|? ? Hc F']; subst.
    destruct (render_with_value_synthesized E _ q msg Hc) as [t Ht].
    rewrite Ht. simpl. apply IH. exact F'.
Qed.

(** C10: every constraint the bound transformation adds has a local name
    that starts with [lb_for_] or [ub_for_], so both reporting helpers take
    the lower-bound or the upper-bound branch on it and return a text: on
    constraints of the bound block they never raise the error
    "unrecongized var name". *)
Theorem bound_block_never_unrecognized (instance : Model) (mm : Modified) :
  _apply_to instance = Ok mm ->
  (forall c, In c (mm_bounds mm) ->
     (exists x, c_local_name c = "lb_for_" ++ x \/
                c_local_name c = "ub_for_" ++ x) /\
     PyStr.contains "_variable_bounds" (c_name c) = true /\
     (PyStr.contains "lb" (c_local_name c) = true \/
      PyStr.contains "ub" (c_local_name c) = true)) /\
  (forall l msg, incl l (mm_bounds mm) ->
     exists text, _get_results l msg = Ok text) /\
  (forall E l msg, incl (map fst l) (mm_bounds mm) ->
     exists text, _get_results_with_value E l msg = Ok text).
Proof.
  intros H. pose proof (apply_to_synthesized _ _ H) as S.
  split; [|split].
  - intros c Hc. pose proof (S c Hc) as Hs.
    split; [|exact (synthesized_branch _ Hs)].
    destruct Hs as [x [Hl _]]. exists x. exact Hl.
  - intros l msg I. unfold _get_results. apply render_all_synthesized.
    apply Forall_forall. intros c Hc. apply S. apply I. exact Hc.
  - intros E l msg I. unfold _get_results_with_value.
    apply render_all_with_value_synthesized.
    apply Forall_forall. intros c Hc. apply S. apply I. exact Hc.
Qed.

Lemma bound_block_never_unrecognized_witness :
  exists mm,
    _apply_to tank = Ok mm /\
    (forall l msg, incl l (mm_bounds mm) ->
       exists text, _get_results l msg = Ok text).
Proof.
  eexists. split; [reflexivity|].
  intros l msg I.
  exact (proj1 (proj2 (bound_block_never_unrecognized tank _ eq_refl))
           l msg I).
Defined.

(** How the helpers render the two kinds of synthesized constraint: the
    lower bound always as a lower bound, the upper bound as an upper bound
    unless the name of the variable contains [lb]. *)
Lemma render_lower_bound (v : Var) (l : Q) (msg : string) :
  render (bound_constraint "lb_for_" v (Some l) None) msg =
  Ok (msg ++ tab ++ "lb of var " ++ v_name v ++ newline).
Proof. reflexivity. Qed.

Lemma render_upper_bound (v : Var) (u : Q) (msg : string) :
  render (bound_constraint "ub_for_" v None (Some u)) msg =
  Ok (msg ++ tab
        ++ (if PyStr.contains "lb" (v_name v) then "lb" else "ub")
        ++ " of var " ++ v_name v ++ newline).
Proof.
  unfold render, bound_constraint. cbn [c_name c_local_name].
  change (PyStr.contains "_variable_bounds"
            ("_variable_bounds." ++ "ub_for_" ++ v_name v)) with true.
  change (PyStr.contains "lb" ("ub_for_" ++ v_name v))
    with (PyStr.contains "lb" (v_name v)).
  destruct (PyStr.contains "lb" (v_name v)); reflexivity.
Qed.

(** C9: the upper-bound constraint the transformation adds for the
    variable [cost_per_lb] is reported as a lower bound, "lb of var
    cost_per_lb", by both helpers: the test for the substring [lb] is made
    on the whole local name [ub_for_cost_per_lb]. *)
Theorem upper_bound_reported_as_lower :
  exists mm c,
    _apply_to priced = Ok mm /\
    mm_bounds mm = [c] /\
    c_local_name c = "ub_for_cost_per_lb" /\
    c_lower c = None /\ c_upper c = Some 10%Q /\
    _get_results [c] None =
      Ok (tab ++ "lb of var cost_per_lb" ++ newline) /\
    forall E value,
      _get_results_with_value E [(c, value)] None =
        Ok (tab ++ "lb of var cost_per_lb by " ++ repr E value ++ newline).
Proof.
  eexists. eexists. split; [reflexivity|].
  split; [reflexivity|].
  repeat split; reflexivity.
Qed.

(** ** One scan of the slack variables *)

Lemma Qgtb_exceeds (tolerance : Q) (v : Slack) :
  Qgtb (s_value v) tolerance = exceeds tolerance v.
Proof.
  unfold Qgtb, exceeds.
  destruct (Qlt_le_dec tolerance (s_value v)) as [L|L].
  - destruct (Qle_bool (s_value v) tolerance) eqn:B; [|reflexivity].
    apply Qle_bool_iff in B. exfalso. exact (Qlt_not_le _ _ L B).
  - apply Qle_bool_iff in L. rewrite L. reflexivity.
Qed.


Lemma set_add_In (x n : string) (l : list string) :
  In n (set_add x l) <-> In n l \/ n = x.
Proof.
  unfold set_add. destruct (PyStr.mem x l) eqn:M.
  - apply mem_In in M. split; [tauto|]. intros [H|H]; [exact H | subst; exact M].
  - rewrite in_app_iff. simpl. split; intros H; intuition congruence.
Qed.

Lemma con_mem_app (c : Con) (l1 l2 : list Con) :
  con_mem c (l1 ++ l2) = con_mem c l1 || con_mem c l2.
Proof. unfold con_mem. apply existsb_app. Qed.


(** ** The deletion sweep *)

Lemma all_cons_set_active_named (b : bool) (n : string) (mm : Modified) :
  all_cons (set_active_named b n mm) =
  map (fun c => if String.eqb (c_name c) n then set_active b c else c)
    (all_cons mm).
Proof. unfold all_cons, set_active_named. simpl. rewrite map_app. reflexivity. Qed.

Lemma is_active_other (b : bool) (n n' : string) (mm : Modified) :
  n' <> n ->
  is_active (set_active_named b n mm) n' = is_active mm n'.
Proof.
  intros Hne. unfold is_active. rewrite all_cons_set_active_named.
  induction (all_cons mm) as [|c l IH]; simpl; [reflexivity|].
  rewrite IH. f_equal.
  destruct (String.eqb (c_name c) n) eqn:E1; [|reflexivity].
  apply String.eqb_eq in E1. simpl.
  destruct (String.eqb (c_name c) n') eqn:E2; [|reflexivity].
  apply String.eqb_eq in E2. congruence.
Qed.

Lemma is_active_same (b : bool) (n : string) (mm : Modified) :
  is_active (set_active_named b n mm) n = b && declared mm n.
Proof.
  unfold is_active, declared. rewrite all_cons_set_active_named.
  induction (all_cons mm) as [|c l IH]; simpl.
  - rewrite andb_false_r. reflexivity.
  - rewrite IH. destruct (String.eqb (c_name c) n) eqn:E1; simpl.
    + rewrite E1. simpl. destruct b; reflexivity.
    + rewrite E1. simpl. reflexivity.
Qed.

Lemma declared_set_active_named (b : bool) (n n' : string) (mm : Modified) :
  declared (set_active_named b n mm) n' = declared mm n'.
Proof.
  unfold declared. rewrite all_cons_set_active_named.
  induction (all_cons mm) as [|c l IH]; simpl; [reflexivity|].
  rewrite IH. destruct (String.eqb (c_name c) n); reflexivity.
Qed.

(** What one test of the sweep comes to. *)
Lemma deletion_test_eq (E : Env) (cache : list (string * option Q))
  (constr : Con) (st : Sweep) (w : World) :
  deletion_test E cache constr st w =
  let tested := reset_values cache (deactivate (c_name constr) (sw_mm st)) in
  (emit SolveModified w,
   Ok (match fst (solve E (w_writer w) tested) with
       | None =>
           mkSweep (activate (c_name constr)
                      (load (snd (solve E (w_writer w) tested)) tested))
             (sw_deletion_filter st) (sw_guards st ++ [constr])%list
       | Some Optimal =>
           mkSweep (activate (c_name constr)
                      (load (snd (solve E (w_writer w) tested)) tested))
             (sw_deletion_filter st ++ [constr])%list (sw_guards st)
       | Some NonOptimal =>
           mkSweep (load (snd (solve E (w_writer w) tested)) tested)
             (sw_deletion_filter st) (sw_guards st)
       end)).
Proof.
  unfold deletion_test, bindM, try_solve. simpl.
  destruct (solve E (w_writer w) _) as [[[|]|] sol]; reflexivity.
Qed.

(** The tests of other members leave a constraint and its record alone. *)
Lemma deletion_sweep_frame (E : Env) (cache : list (string * option Q))
  (constr : Con) (members : list Con) :
  (forall d, In d members -> c_name d <> c_name constr) ->
  forall st w,
  exists w' st',
    deletion_sweep E cache members st w = (w', Ok st') /\
    w_writer w' = w_writer w /\
    w_model w' = w_model w /\
    is_active (sw_mm st') (c_name constr) =
      is_active (sw_mm st) (c_name constr) /\
    declared (sw_mm st') (c_name constr) =
      declared (sw_mm st) (c_name constr) /\
    con_mem constr (sw_deletion_filter st') =
      con_mem constr (sw_deletion_filter st) /\
    con_mem constr (sw_guards st') = con_mem constr (sw_guards st) /\
    incl (sw_deletion_filter st) (sw_deletion_filter st') /\
    incl (sw_guards st) (sw_guards st').
Proof.
  induction members as [|d members IH]; intros Hne st w; simpl.
  - exists w, st. unfold ret. repeat split; auto using incl_refl.
  - unfold bindM. rewrite deletion_test_eq. cbv zeta.
    set (tested := reset_values cache (deactivate (c_name d) (sw_mm st))).
    set (st1 := match fst (solve E (w_writer w) tested) with
                | None => _ | Some Optimal => _ | Some NonOptimal => _ end).
    assert (Hd : c_name constr <> c_name d).
    { intros Q. apply (Hne d (or_introl eq_refl)). symmetry. exact Q. }
    assert (Hd' : String.eqb (c_name d) (c_name constr) = false).
    { apply String.eqb_neq. intros Q. apply Hd. symmetry. exact Q. }
    assert (Ht : is_active tested (c_name constr) =
                 is_active (sw_mm st) (c_name constr)).
    { unfold tested, deactivate.
      rewrite <- (is_active_other false (c_name d) _ (sw_mm st) Hd).
      reflexivity. }
    assert (Hdt : declared tested (c_name constr) =
                  declared (sw_mm st) (c_name constr)).
    { unfold tested, deactivate.
      rewrite <- (declared_set_active_named false (c_name d)
                    (c_name constr) (sw_mm st)).
      reflexivity. }
    assert (H1 : is_active (sw_mm st1) (c_name constr) =
                   is_active (sw_mm st) (c_name constr) /\
                 declared (sw_mm st1) (c_name constr) =
                   declared (sw_mm st) (c_name constr) /\
                 con_mem constr (sw_deletion_filter st1) =
                   con_mem constr (sw_deletion_filter st) /\
                 con_mem constr (sw_guards st1) =
                   con_mem constr (sw_guards st) /\
                 incl (sw_deletion_filter st) (sw_deletion_filter st1) /\
                 incl (sw_guards st) (sw_guards st1)).
    { unfold st1.
      destruct (fst (solve E (w_writer w) tested)) as [[|]|]; simpl;
        unfold activate;
        rewrite ?(is_active_other true (c_name d) _ _ Hd),
                ?declared_set_active_named, ?con_mem_app;
        simpl; rewrite ?Hd', ?orb_false_r;
        repeat split;
        auto using incl_refl, incl_appl. }
    destruct (IH (fun x Hx => Hne x (or_intror Hx)) st1
                (emit SolveModified w))
      as [w' [st' [Hs [Hw [Hm [Ha [Hdc [Hf [Hg [If Ig]]]]]]]]]].
    destruct H1 as [A1 [A2 [A3 [A4 [A5 A6]]]]].
    simpl in Hw, Hm.
    exists w', st'. split; [exact Hs|].
    repeat split; try congruence; eapply incl_tran; eassumption.
Qed.

Lemma deletion_sweep_app (E : Env) (cache : list (string * option Q))
  (l1 l2 : list Con) :
  forall st w w1 st1,
    deletion_sweep E cache l1 st w = (w1, Ok st1) ->
    deletion_sweep E cache (l1 ++ l2) st w = deletion_sweep E cache l2 st1 w1.
Proof.
  induction l1 as [|d l1 IH]; intros st w w1 st1; simpl.
  - unfold ret. intros H. inversion H. reflexivity.
  - unfold bindM. rewrite deletion_test_eq. cbv zeta. apply IH.
Qed.

(** C1: in the sweep over the members of the elastic filter, taken in its
    order and each once, the member under test is deactivated and the model
    solved again; if the solve raises, the member ends active and among the
    guards and not in the deletion filter output; if it is optimal, the
    member ends active and in the deletion filter output and not among the
    guards; if it ends otherwise, the member ends inactive and in neither
    list. *)
Theorem sweep_classifies_member (E : Env) (cache : list (string * option Q))
  (pre post : list Con) (constr : Con) (mm0 : Modified) (w : World) :
  NoDup (map c_name (pre ++ constr :: post)) ->
  declared mm0 (c_name constr) = true ->
  exists w1 st1 wf stf,
    deletion_sweep E cache pre (mkSweep mm0 [] []) w = (w1, Ok st1) /\
    deletion_sweep E cache (pre ++ constr :: post) (mkSweep mm0 [] []) w =
      (wf, Ok stf) /\
    match fst (solve E (w_writer w)
                 (reset_values cache
                    (deactivate (c_name constr) (sw_mm st1)))) with
    | None =>
        is_active (sw_mm stf) (c_name constr) = true /\
        In constr (sw_guards stf) /\
        con_mem constr (sw_deletion_filter stf) = false
    | Some Optimal =>
        is_active (sw_mm stf) (c_name constr) = true /\
        In constr (sw_deletion_filter stf) /\
        con_mem constr (sw_guards stf) = false
    | Some NonOptimal =>
        is_active (sw_mm stf) (c_name constr) = false /\
        con_mem constr (sw_deletion_filter stf) = false /\
        con_mem constr (sw_guards stf) = false
    end.
Proof.
  intros ND Hdecl.
  rewrite map_app in ND. simpl in ND.
  pose proof (NoDup_remove_2 _ _ _ ND) as Hnot.
  assert (Hpre : forall d, In d pre -> c_name d <> c_name constr).
  { intros d Hd Q. apply Hnot. apply in_or_app. left.
    rewrite <- Q. apply in_map. exact Hd. }
  assert (Hpost : forall d, In d post -> c_name d <> c_name constr).
  { intros d Hd Q. apply Hnot. apply in_or_app. right.
    rewrite <- Q. apply in_map. exact Hd. }
  destruct (deletion_sweep_frame E cache constr pre Hpre (mkSweep mm0 [] []) w)
    as [w1 [st1 [S1 [W1 [_ [A1 [D1 [F1 [G1 _]]]]]]]]].
  simpl in A1, D1, F1, G1.
  exists w1, st1.
  pose proof (deletion_sweep_app E cache pre (constr :: post) _ _ _ _ S1) as App.
  simpl in App. unfold bindM in App. rewrite deletion_test_eq in App.
  cbv zeta in App. rewrite W1 in App.
  set (tested := reset_values cache (deactivate (c_name constr) (sw_mm st1)))
    in *.
  set (sol := snd (solve E (w_writer w) tested)) in *.
  assert (Dt : declared (load sol tested) (c_name constr) = true).
  { change (declared (deactivate (c_name constr) (sw_mm st1))
              (c_name constr) = true).
    unfold deactivate. rewrite declared_set_active_named, D1. exact Hdecl. }
  assert (It : is_active (load sol tested) (c_name constr) = false).
  { change (is_active (deactivate (c_name constr) (sw_mm st1))
              (c_name constr) = false).
    unfold deactivate. rewrite is_active_same. reflexivity. }
  assert (Ia : is_active (activate (c_name constr) (load sol tested))
                 (c_name constr) = true).
  { unfold activate. rewrite is_active_same, Dt. reflexivity. }
  destruct (fst (solve E (w_writer w) tested)) as [[|]|].
  - match type of App with
    | _ = deletion_sweep _ _ _ ?s ?w2 =>
        destruct (deletion_sweep_frame E cache constr post Hpost s w2)
          as [wf [stf [S2 [_ [_ [A2 [_ [F2 [G2 [IF2 _]]]]]]]]]]
    end.
    simpl in A2, F2, G2, IF2.
    exists wf, stf. split; [exact S1|]. split; [rewrite App; exact S2|].
    split; [rewrite A2; exact Ia|]. split.
    + apply IF2. apply in_or_app. right. left. reflexivity.
    + rewrite G2. exact G1.
  - match type of App with
    | _ = deletion_sweep _ _ _ ?s ?w2 =>
        destruct (deletion_sweep_frame E cache constr post Hpost s w2)
          as [wf [stf [S2 [_ [_ [A2 [_ [F2 [G2 _]]]]]]]]]
    end.
    simpl in A2, F2, G2.
    exists wf, stf. split; [exact S1|]. split; [rewrite App; exact S2|].
    split; [rewrite A2; exact It|]. split.
    + rewrite F2. exact F1.
    + rewrite G2. exact G1.
  - match type of App with
    | _ = deletion_sweep _ _ _ ?s ?w2 =>
        destruct (deletion_sweep_frame E cache constr post Hpost s w2)
          as [wf [stf [S2 [_ [_ [A2 [_ [F2 [G2 [_ IG2]]]]]]]]]]
    end.
    simpl in A2, F2, G2, IG2.
    exists wf, stf. split; [exact S1|]. split; [rewrite App; exact S2|].
    split; [rewrite A2; exact Ia|]. split.
    + apply IG2. apply in_or_app. right. left. reflexivity.
    + rewrite F2. exact F1.
Qed.

Lemma sweep_classifies_member_witness :
  NoDup (map c_name ([] ++ clash_lb :: [clash_ub])%list) /\
  declared (elastic_of clash) (c_name clash_lb) = true /\
  exists w1 st1 wf stf,
    deletion_sweep clash_solver [] []
      (mkSweep (elastic_of clash) [] []) (mkWorld clash nl_v1 []) =
      (w1, Ok st1) /\
    deletion_sweep clash_solver [] ([] ++ clash_lb :: [clash_ub])%list
      (mkSweep (elastic_of clash) [] []) (mkWorld clash nl_v1 []) =
      (wf, Ok stf) /\
    is_active (sw_mm stf) (c_name clash_lb) = true /\
    In clash_lb (sw_deletion_filter stf) /\
    con_mem clash_lb (sw_guards stf) = false.
Proof.
  assert (ND : NoDup (map c_name ([] ++ clash_lb :: [clash_ub])%list)).
  { simpl. repeat constructor; simpl; intuition discriminate. }
  assert (D : declared (elastic_of clash) (c_name clash_lb) = true)
    by reflexivity.
  split; [exact ND|]. split; [exact D|].
  destruct (sweep_classifies_member clash_solver [] [] [clash_ub] clash_lb
              (elastic_of clash) (mkWorld clash nl_v1 []) ND D)
    as [w1 [st1 [wf [stf [S1 [S2 H]]]]]].
  exists w1, st1, wf, stf. split; [exact S1|]. split; [exact S2|].
  simpl in S1. unfold ret in S1. inversion S1. subst st1.
  simpl in H. exact H.
Defined.

(** ** Phase 2: set-up and confirmation *)

Lemma in_all_cons_deletion_setup (flt : list Con) (mm : Modified) (c : Con) :
  In c (all_cons (deletion_setup flt mm)) ->
  exists c0, In c0 (all_cons mm) /\
    c = (if con_mem c0 flt then c0 else set_active false c0).
Proof.
  unfold all_cons, deletion_setup. simpl. rewrite <- map_app.
  intros H. apply in_map_iff in H. destruct H as [c0 [E H]].
  exists c0. split; [exact H | symmetry; exact E].
Qed.

(** C4: the set-up of the deletion filter leaves every slack variable fixed
    at zero, every objective inactive and every constraint outside the
    elastic filter inactive, on the same slacks, objectives and constraints;
    and when the one solve of this restricted model is optimal, the phase
    ends after that solve with the message "Could not determine Minimal
    Intractable System": no member of the filter is tested. *)
Theorem deletion_filter_setup_and_confirmation (E : Env)
  (cache : list (string * option Q)) (st : Loop) (w : World) :
  let restricted := deletion_setup (l_filter st) (l_mm st) in
  (map s_name (mm_slacks restricted) = map s_name (mm_slacks (l_mm st)) /\
   forall s, In s (mm_slacks restricted) ->
     s_fixed s = true /\ s_value s = 0%Q) /\
  (map o_name (mm_objs restricted) = map o_name (mm_objs (l_mm st)) /\
   forall o, In o (mm_objs restricted) -> o_active o = false) /\
  (map c_name (all_cons restricted) = map c_name (all_cons (l_mm st)) /\
   forall c, In c (all_cons restricted) ->
     con_mem c (l_filter st) = false -> c_active c = false) /\
  (fst (solve E nl_v1 restricted) = Some Optimal ->
   deletion_filter_phase E cache st w =
   (mkWorld (w_model w) _default_nl_writer
      (w_log w ++ [Register nl_v1; SolveModified;
                   Register _default_nl_writer])%list,
    Ok (l_msg st ++ "Could not determine Minimal Intractable System"
          ++ newline))).
Proof.
  cbv zeta. split; [|split; [|split]].
  - split.
    + unfold deletion_setup. simpl. rewrite map_map. reflexivity.
    + unfold deletion_setup. simpl. intros s H.
      apply in_map_iff in H. destruct H as [s0 [Es _]]. subst s.
      split; reflexivity.
  - split.
    + unfold deletion_setup. simpl. rewrite map_map. reflexivity.
    + unfold deletion_setup. simpl. intros o H.
      apply in_map_iff in H. destruct H as [o0 [Eo _]]. subst o.
      reflexivity.
  - split.
    + unfold all_cons, deletion_setup. simpl.
      rewrite <- map_app, map_map. apply map_ext. intros c.
      destruct (con_mem c (l_filter st)); reflexivity.
    + intros c H Hout.
      destruct (in_all_cons_deletion_setup _ _ _ H) as [c0 [_ Ec]].
      destruct (con_mem c0 (l_filter st)) eqn:M0; subst c.
      * rewrite M0 in Hout. discriminate.
      * reflexivity.
  - intros Hopt. unfold deletion_filter_phase, bindM, register, try_solve.
    simpl.
    destruct (solve E nl_v1 (deletion_setup (l_filter st) (l_mm st)))
      as [r sol].
    simpl in Hopt. subst r. simpl. unfold ret, emit. simpl.
    rewrite <- !app_assoc. reflexivity.
Qed.

Lemma deletion_filter_setup_and_confirmation_witness :
  fst (solve always_optimal nl_v1
         (deletion_setup [clash_lb; clash_ub] (elastic_of clash))) =
    Some Optimal /\
  deletion_filter_phase always_optimal []
    (mkLoop (elastic_of clash) [] [clash_lb; clash_ub] EmptyString)
    (mkWorld clash nl_v2 []) =
  (mkWorld clash nl_v2 [Register nl_v1; SolveModified; Register nl_v2],
   Ok ("Could not determine Minimal Intractable System" ++ newline)).
Proof.
  split; [reflexivity|].
  exact (proj2 (proj2 (proj2
    (deletion_filter_setup_and_confirmation always_optimal []
       (mkLoop (elastic_of clash) [] [clash_lb; clash_ub] EmptyString)
       (mkWorld clash nl_v2 [])))) eq_refl).
Defined.

(** ** The run on a feasible model *)

Lemma scan_slacks_quiet (E : Env) (tolerance : Q) (mm : Modified)
  (vs : list Slack) (fixed_slacks : list string) (elastic_filter : list Con)
  (msg : string) :
  (forall v, In v vs -> (s_value v <= tolerance)%Q) ->
  scan_slacks E tolerance mm vs fixed_slacks elastic_filter msg =
  Ok (mkScan vs fixed_slacks elastic_filter msg).
Proof.
  induction vs as [|v vs IH]; intros H; simpl; [reflexivity|].
  assert (X : Qgtb (s_value v) tolerance = false).
  { unfold Qgtb. apply negb_false_iff. apply Qle_bool_iff.
    apply H. left. reflexivity. }
  rewrite X, IH; [reflexivity|].
  intros u Hu. apply H. right. exact Hu.
Qed.

(** C2, as the code has it: when the first solve of the clone in elastic
    form is optimal and leaves no slack above the tolerance, the run ends
    right after that solve by raising the exception "Found model <name> to be
    feasible!"; nothing but that solve is done, so the deletion filter is
    never entered. *)
Theorem feasible_model_stops_before_deletion_filter (E : Env) (tolerance : Q)
  (w : World) (mm : Modified) (cache : list (string * option Q))
  (sol : solution) :
  prepare (w_model w) = Ok (mm, cache) ->
  solve E (w_writer w) mm = (Some Optimal, sol) ->
  (forall s, In s (mm_slacks (load sol mm)) -> (s_value s <= tolerance)%Q) ->
  compute_infeasibility_explanation E tolerance w =
  (emit SolveModified w,
   Raise (Exception ("Found model " ++ m_name (w_model w)
                       ++ " to be feasible!"))).
Proof.
  intros Hp Hs Hq.
  unfold compute_infeasibility_explanation, bindM, lift. rewrite Hp.
  cbn [fst snd].
  unfold relaxation_driver, relax_phase, bindM, solver_solve, bindM, try_solve.
  cbn [l_mm l_fixed l_filter l_msg]. rewrite Hs.
  cbn [fst snd ret lift check_optimal_termination].
  unfold _constraint_loop. cbn [l_mm l_fixed l_filter l_msg String.eqb].
  cbn [constraint_rounds]. unfold bindM, lift, _constraint_generator.
  cbn [l_mm l_fixed l_filter l_msg].
  rewrite (scan_slacks_quiet E tolerance _ _ _ _ _ Hq).
  reflexivity.
Qed.

Lemma feasible_model_stops_before_deletion_filter_witness :
  prepare (w_model (mkWorld tank nl_v2 [])) =
    Ok (elastic_of tank, [("level", Some 2%Q); ("inflow", Some 2%Q);
                          ("area", Some 3%Q); ("drift", None)]) /\
  compute_infeasibility_explanation always_optimal tolerance_default
    (mkWorld tank nl_v2 []) =
  (mkWorld tank nl_v2 [SolveModified],
   Raise (Exception "Found model tank to be feasible!")).
Proof.
  split; [reflexivity|].
  apply (feasible_model_stops_before_deletion_filter always_optimal
           tolerance_default (mkWorld tank nl_v2 []) (elastic_of tank)
           [("level", Some 2%Q); ("inflow", Some 2%Q);
            ("area", Some 3%Q); ("drift", None)] no_solution).
  - reflexivity.
  - reflexivity.
  - vm_compute. intros s H.
    repeat (destruct H as [H|H]; [subst s; discriminate|]).
    destruct H.
Defined.

(** C2, as it is worded, fails on the feasible model [tank]: the run makes
    no write-back and does not solve the caller's model. *)
Lemma feasible_model_is_not_written_back :
  ~ short_circuit_as_stated always_optimal tolerance_default
      (mkWorld tank nl_v2 []).
Proof.
  unfold short_circuit_as_stated. intros [_ [H _]].
  vm_compute in H. destruct H as [H|H]; [discriminate H | exact H].
Qed.

(** ** The caller's model and the writer registry *)

(** C3, at a failing input: on the model [clash] with a solver that never
    converges, the first solve is not optimal and no feasible solution is
    found, yet the run writes the values of the clone back into the caller's
    model and solves it: [x] starts at 0 and ends at 7. *)
Theorem write_back_after_failed_solves :
  let w := mkWorld clash nl_v2 [] in
  let out := compute_infeasibility_explanation never_converges
               tolerance_default w in
  fst (solve never_converges nl_v2 (elastic_of clash)) = Some NonOptimal /\
  snd out = Ok tt /\
  In WriteBack (w_log (fst out)) /\
  In SolveModel (w_log (fst out)) /\
  ~ In (Print "A feasible solution was found!") (w_log (fst out)) /\
  map v_value (m_vars (w_model w)) = [Some 0%Q] /\
  map v_value (m_vars (w_model (fst out))) = [Some 7%Q].
Proof.
  cbv zeta. split; [reflexivity|]. split; [vm_compute; reflexivity|].
  split; [vm_compute; tauto|]. split; [vm_compute; tauto|].
  split.
  - vm_compute. intros H.
    repeat (destruct H as [H|H]; [discriminate H|]). exact H.
  - split; vm_compute; reflexivity.
Qed.

Lemma deletion_sweep_total (E : Env) (cache : list (string * option Q))
  (members : list Con) :
  forall st w,
  exists w' st',
    deletion_sweep E cache members st w = (w', Ok st') /\
    w_writer w' = w_writer w /\ w_model w' = w_model w.
Proof.
  induction members as [|d members IH]; intros st w; simpl.
  - exists w, st. unfold ret. repeat split.
  - unfold bindM. rewrite deletion_test_eq. cbv zeta.
    edestruct IH as [w' [st' [Hs [Hw Hm]]]].
    exists w', st'. split; [exact Hs|]. split; [exact Hw | exact Hm].
Qed.

(** X19: the writer after the deletion filter is the default one when the
    phase returns and the substituted one, [nl_v1], when it raises. *)
Lemma deletion_filter_phase_writer (E : Env)
  (cache : list (string * option Q)) (st : Loop) (w : World) :
  match snd (deletion_filter_phase E cache st w) with
  | Ok _ => w_writer (fst (deletion_filter_phase E cache st w))
            = _default_nl_writer
  | Raise _ => w_writer (fst (deletion_filter_phase E cache st w)) = nl_v1
  end.
Proof.
  unfold deletion_filter_phase, bindM, register, try_solve. simpl.
  destruct (solve E nl_v1 (deletion_setup (l_filter st) (l_mm st)))
    as [r sol].
  simpl. unfold lift.
  destruct (check_optimal_termination E r) as [[|]|e]; simpl;
    [reflexivity | | reflexivity].
  match goal with
  | |- context [deletion_sweep E cache ?l ?s ?w2] =>
      destruct (deletion_sweep_total E cache l s w2)
        as [w' [st' [Hs [Hw _]]]]
  end.
  rewrite Hs. simpl in Hw.
  destruct (_get_results (sw_deletion_filter st') _) as [m1|e1]; simpl;
    [|exact Hw].
  destruct (_get_results (sw_guards st') _) as [m2|e2]; simpl;
    [reflexivity | exact Hw].
Qed.

(** C7, at a failing input: on the model [clash] with a solver that cannot
    evaluate the restricted model, the solve that opens the deletion filter
    raises, [check_optimal_termination] is called on [None] and raises in
    turn, and the run ends with the writer [nl_v1] still registered. *)
Theorem writer_left_substituted_after_failure :
  let w := mkWorld clash _default_nl_writer [] in
  let out := compute_infeasibility_explanation fragile_solver
               tolerance_default w in
  snd out = Raise AttributeError /\
  w_writer (fst out) = nl_v1 /\
  w_writer (fst out) <> _default_nl_writer /\
  w_log (fst out) =
    [SolveModified; SolveModified; SolveModified; SolveModified;
     SolveModified; Register nl_v1; SolveModified].
Proof.
  cbv zeta. split; [vm_compute; reflexivity|].
  split; [vm_compute; reflexivity|].
  split; [vm_compute; discriminate|].
  vm_compute. reflexivity.
Qed.

(** ** The relaxation driver: growth of the filter, budget, frame *)

Lemma quiet_refl (w : World) : quiet w w.
Proof.
  split; [reflexivity|]. exists []. rewrite app_nil_r. split; reflexivity.
Qed.

Lemma quiet_trans (w1 w2 w3 : World) :
  quiet w1 w2 -> quiet w2 w3 -> quiet w1 w3.
Proof.
  intros [M1 [n1 [L1 F1]]] [M2 [n2 [L2 F2]]]. split; [congruence|].
  exists (n1 ++ n2)%list. split.
  - rewrite L2, L1, app_assoc. reflexivity.
  - rewrite forallb_app, F1, F2. reflexivity.
Qed.

Lemma quiet_emit (e : event) (w : World) :
  touches_model e = false -> quiet w (emit e w).
Proof.
  intros H. split; [reflexivity|]. exists [e]. split; [reflexivity|].
  simpl. rewrite H. reflexivity.
Qed.

Lemma find_component_In (mm : Modified) (name : string) (c : Con) :
  find_component mm name = Some c -> In c (all_cons mm).
Proof.
  unfold find_component. intros H. apply find_some in H. tauto.
Qed.

Lemma _get_constraint_In (mm : Modified) (v : Slack) (c : Con) :
  _get_constraint mm v = Ok c -> In c (all_cons mm).
Proof.
  unfold _get_constraint.
  destruct (PyStr.contains "_slack_plus_" (slack_name v)).
  - destruct (find_component mm _) eqn:F; [|discriminate].
    intros H. inversion H. subst. exact (find_component_In _ _ _ F).
  - destruct (PyStr.contains "_slack_minus_" (slack_name v));
      [|discriminate].
    destruct (find_component mm _) eqn:F; [|discriminate].
    intros H. inversion H. subst. exact (find_component_In _ _ _ F).
Qed.

Lemma _get_constraint_error (mm : Modified) (v : Slack) (e : exn) :
  _get_constraint mm v = Raise e -> e <> OutOfBudget.
Proof.
  unfold _get_constraint.
  destruct (PyStr.contains "_slack_plus_" (slack_name v)).
  - destruct (find_component mm _); intros H; inversion H; discriminate.
  - destruct (PyStr.contains "_slack_minus_" (slack_name v)).
    + destruct (find_component mm _); intros H; inversion H; discriminate.
    + intros H; inversion H; discriminate.
Qed.

Lemma render_with_value_error (E : Env) (c : Con) (q : Q) (msg : string)
  (e : exn) :
  render_with_value E c q msg = Raise e -> e <> OutOfBudget.
Proof.
  unfold render_with_value.
  destruct (PyStr.contains "_variable_bounds" (c_name c)); [|discriminate].
  destruct (PyStr.contains "lb" (c_local_name c)); [discriminate|].
  destruct (PyStr.contains "ub" (c_local_name c)); [discriminate|].
  intros H; inversion H; discriminate.
Qed.

Lemma render_error (c : Con) (msg : string) (e : exn) :
  render c msg = Raise e -> e <> OutOfBudget.
Proof.
  unfold render.
  destruct (PyStr.contains "_variable_bounds" (c_name c)); [|discriminate].
  destruct (PyStr.contains "lb" (c_local_name c)); [discriminate|].
  destruct (PyStr.contains "ub" (c_local_name c)); [discriminate|].
  intros H; inversion H; discriminate.
Qed.

Lemma render_all_error (l : list Con) :
  forall msg e, render_all l msg = Raise e -> e <> OutOfBudget.
Proof.
  induction l as [|c l IH]; intros msg e; simpl; [discriminate|].
  destruct (render c msg) as [m1|e1] eqn:R; simpl.
  - apply IH.
  - intros H. inversion H. subst. exact (render_error _ _ _ R).
Qed.

Lemma con_mem_false_name (c : Con) (l : list Con) :
  con_mem c l = false -> ~ In (c_name c) (map c_name l).
Proof.
  unfold con_mem. intros H I. apply in_map_iff in I.
  destruct I as [d [E I]].
  assert (T : existsb (fun d0 => String.eqb (c_name d0) (c_name c)) l = true).
  { apply existsb_exists. exists d. split; [exact I|].
    apply String.eqb_eq. exact E. }
  congruence.
Qed.

Lemma NoDup_snoc (x : string) (l : list string) :
  NoDup l -> ~ In x l -> NoDup (l ++ [x]).
Proof.
  induction 1 as [|y l Hy ND IH]; intros Hx; simpl.
  - constructor; [intros [] | constructor].
  - constructor.
    + intros I. apply in_app_or in I. destruct I as [I|[I|[]]].
      * exact (Hy I).
      * apply Hx. left. symmetry. exact I.
    + apply IH. intros I. apply Hx. right. exact I.
Qed.

Lemma con_add_ok (cons flt : list Con) (c : Con) :
  In c cons -> filter_ok cons flt ->
  filter_ok cons (con_add c flt) /\
  (List.length flt <= List.length (con_add c flt))%nat.
Proof.
  intros Hc [ND I]. unfold con_add.
  destruct (con_mem c flt) eqn:M.
  - split; [split; assumption | apply le_n].
  - split.
    + split.
      * rewrite map_app. simpl.
        apply NoDup_snoc; [exact ND | exact (con_mem_false_name _ _ M)].
      * rewrite map_app. apply incl_app; [exact I|].
        intros n [Hn|[]]. subst n. apply in_map. exact Hc.
    + rewrite length_app. simpl. lia.
Qed.

Lemma scan_slacks_filter (E : Env) (tolerance : Q) (mm : Modified)
  (vs : list Slack) :
  forall fixed flt msg,
    filter_ok (all_cons mm) flt ->
    match scan_slacks E tolerance mm vs fixed flt msg with
    | Ok r => filter_ok (all_cons mm) (sc_filter r) /\
              (List.length flt <= List.length (sc_filter r))%nat
    | Raise e => e <> OutOfBudget
    end.
Proof.
  induction vs as [|v vs IH]; intros fixed flt msg Hok; simpl.
  - split; [exact Hok | apply le_n].
  - destruct (Qgtb (s_value v) tolerance).
    + destruct (_get_constraint mm v) as [constr|e] eqn:G; simpl;
        [|exact (_get_constraint_error _ _ _ G)].
      destruct (render_with_value E constr (s_value v) msg) as [m1|e] eqn:R;
        simpl; [|exact (render_with_value_error _ _ _ _ _ R)].
      destruct (con_add_ok _ _ constr (_get_constraint_In _ _ _ G) Hok)
        as [Hok1 Hle].
      specialize (IH (set_add (s_name v) fixed) (con_add constr flt) m1 Hok1).
      destruct (scan_slacks E tolerance mm vs _ _ m1) as [r|e]; simpl;
        [|exact IH].
      destruct IH as [Hr Hl]. split; [exact Hr | lia].
    + specialize (IH fixed flt msg Hok).
      destruct (scan_slacks E tolerance mm vs fixed flt msg) as [r|e]; simpl;
        [exact IH | exact IH].
Qed.

Lemma _constraint_generator_grows (E : Env) (tolerance : Q) (name : string)
  (st : Loop) :
  filter_ok (all_cons (l_mm st)) (l_filter st) ->
  match _constraint_generator E tolerance name st with
  | Ok st1 =>
      all_cons (l_mm st1) = all_cons (l_mm st) /\
      filter_ok (all_cons (l_mm st)) (l_filter st1) /\
      (List.length (l_filter st) < List.length (l_filter st1))%nat
  | Raise e => e <> OutOfBudget
  end.
Proof.
  intros Hok. unfold _constraint_generator.
  pose proof (scan_slacks_filter E tolerance (l_mm st) (mm_slacks (l_mm st))
                (l_fixed st) (l_filter st) (l_msg st) Hok) as S.
  destruct (scan_slacks E tolerance (l_mm st) _ _ _ _) as [r|e]; simpl;
    [|exact S].
  destruct S as [Hr Hl].
  destruct (Nat.eqb (List.length (sc_filter r)) (List.length (l_filter st)))
    eqn:Q.
  - discriminate.
  - apply Nat.eqb_neq in Q. simpl.
    split; [reflexivity|]. split; [exact Hr | lia].
Qed.

Lemma filter_ok_length (cons flt : list Con) :
  filter_ok cons flt -> (List.length flt <= List.length cons)%nat.
Proof.
  intros [ND I]. pose proof (NoDup_incl_length ND I) as H.
  rewrite !length_map in H. exact H.
Qed.

Lemma solver_solve_eq (E : Env) (mm : Modified) (w : World) :
  solver_solve E mm w =
  (emit SolveModified w,
   match fst (solve E (w_writer w) mm) with
   | Some results => Ok (results, load (snd (solve E (w_writer w) mm)) mm)
   | None => Raise SolverFailure
   end).
Proof.
  unfold solver_solve, bindM, try_solve.
  destruct (solve E (w_writer w) mm) as [[res|] sol]; reflexivity.
Qed.

(** One round of the [while True] of [_constraint_loop]. *)
Lemma constraint_rounds_eq (E : Env) (tolerance : Q) (name : string)
  (cache : list (string * option Q)) (things : string) (k : nat) (st : Loop)
  (w : World) :
  constraint_rounds E tolerance name cache things (S k) st w =
  match _constraint_generator E tolerance name st with
  | Raise e => (w, Raise e)
  | Ok st1 =>
      let mm1 := reset_values cache (l_mm st1) in
      let sol := snd (solve E (w_writer w) mm1) in
      match fst (solve E (w_writer w) mm1) with
      | None => (emit SolveModified w, Raise SolverFailure)
      | Some Optimal =>
          constraint_rounds E tolerance name cache things k
            (mkLoop (load sol mm1) (l_fixed st1) (l_filter st1)
               (l_msg st1 ++ another things))
            (emit SolveModified w)
      | Some NonOptimal =>
          (emit SolveModified w,
           Ok (mkLoop (load sol mm1) (l_fixed st1) (l_filter st1)
                 (l_msg st1)))
      end
  end.
Proof.
  cbn [constraint_rounds]. unfold bindM at 1. unfold lift at 1.
  destruct (_constraint_generator E tolerance name st) as [st1|e];
    [|reflexivity].
  unfold bindM at 1. rewrite solver_solve_eq. cbv zeta.
  destruct (fst (solve E (w_writer w) (reset_values cache (l_mm st1))))
    as [[|]|]; reflexivity.
Qed.

(** The rounds of the constraint loop stay within their budget, grow the
    filter and never reach the caller's model. *)
Lemma constraint_rounds_spec (E : Env) (tolerance : Q) (name : string)
  (cache : list (string * option Q)) (things : string) :
  forall budget st w,
    filter_ok (all_cons (l_mm st)) (l_filter st) ->
    (List.length (all_cons (l_mm st)) - List.length (l_filter st)
       < budget)%nat ->
    quiet w (fst (constraint_rounds E tolerance name cache things budget st w))
    /\
    match snd (constraint_rounds E tolerance name cache things budget st w)
    with
    | Ok st' =>
        all_cons (l_mm st') = all_cons (l_mm st) /\
        filter_ok (all_cons (l_mm st)) (l_filter st') /\
        (List.length (l_filter st) < List.length (l_filter st'))%nat
    | Raise e => e <> OutOfBudget
    end.
Proof.
  induction budget as [|k IH]; intros st w Hok Hb; [lia|].
  rewrite constraint_rounds_eq.
  pose proof (_constraint_generator_grows E tolerance name st Hok) as G.
  destruct (_constraint_generator E tolerance name st) as [st1|e];
    [|split; [apply quiet_refl | exact G]].
  destruct G as [Hc [Hok1 Hl]]. cbv zeta.
  assert (Qe : quiet w (emit SolveModified w))
    by (apply quiet_emit; reflexivity).
  destruct (fst (solve E (w_writer w) (reset_values cache (l_mm st1))))
    as [[|]|].
  - match goal with
    | |- context [constraint_rounds _ _ _ _ _ k ?s ?w2] =>
        destruct (IH s w2) as [Hq Hr]
    end.
    + unfold all_cons in *. simpl. rewrite Hc. exact Hok1.
    + pose proof (filter_ok_length _ _ Hok1).
      unfold all_cons in *. simpl in *. rewrite Hc. lia.
    + split; [exact (quiet_trans _ _ _ Qe Hq)|].
      match goal with
      | |- match snd ?x with _ => _ end =>
          destruct (snd x) as [st'|e]; [|exact Hr]
      end.
      unfold all_cons in *. simpl in *.
      rewrite Hc in Hr. destruct Hr as [A [B C]].
      split; [exact A|]. split; [exact B | lia].
  - split; [exact Qe|]. simpl.
    split; [exact Hc|]. split; [exact Hok1 | exact Hl].
  - split; [exact Qe | discriminate].
Qed.

Lemma relax_phase_eq (E : Env) (tolerance : Q) (name : string)
  (cache : list (string * option Q)) (things : string) (st : Loop)
  (w : World) :
  relax_phase E tolerance name cache things st w =
  let sol := snd (solve E (w_writer w) (l_mm st)) in
  let st1 := mkLoop (load sol (l_mm st)) (l_fixed st) (l_filter st)
               (l_msg st) in
  match fst (solve E (w_writer w) (l_mm st)) with
  | None => (emit SolveModified w, Raise SolverFailure)
  | Some Optimal =>
      _constraint_loop E tolerance name cache things st1
        (emit SolveModified w)
  | Some NonOptimal => (emit SolveModified w, Ok st1)
  end.
Proof.
  unfold relax_phase. unfold bindM at 1. rewrite solver_solve_eq. cbv zeta.
  destruct (fst (solve E (w_writer w) (l_mm st))) as [[|]|]; reflexivity.
Qed.

(** A phase of the relaxation driver: it stays within the budget of its
    loop, keeps the filter a set of constraints of the clone, only adds to
    it, adds at least one member when its first solve is optimal, and never
    reaches the caller's model. *)
Lemma relax_phase_spec (E : Env) (tolerance : Q) (name : string)
  (cache : list (string * option Q)) (things : string) (st : Loop)
  (w : World) :
  filter_ok (all_cons (l_mm st)) (l_filter st) ->
  quiet w (fst (relax_phase E tolerance name cache things st w)) /\
  match snd (relax_phase E tolerance name cache things st w) with
  | Ok st' =>
      all_cons (l_mm st') = all_cons (l_mm st) /\
      filter_ok (all_cons (l_mm st)) (l_filter st') /\
      (List.length (l_filter st) <= List.length (l_filter st'))%nat /\
      (fst (solve E (w_writer w) (l_mm st)) = Some Optimal ->
       (List.length (l_filter st) < List.length (l_filter st'))%nat)
  | Raise e => e <> OutOfBudget
  end.
Proof.
  intros Hok. rewrite relax_phase_eq. cbv zeta.
  assert (Qe : quiet w (emit SolveModified w))
    by (apply quiet_emit; reflexivity).
  destruct (fst (solve E (w_writer w) (l_mm st))) as [[|]|].
  - unfold _constraint_loop. cbn [l_mm l_fixed l_filter l_msg].
    match goal with
    | |- context [constraint_rounds _ _ _ _ _ ?b ?s ?w2] =>
        destruct (constraint_rounds_spec E tolerance name cache things
                    b s w2) as [Hq Hr]
    end.
    + exact Hok.
    + cbn [l_mm l_filter]. unfold all_cons. simpl. lia.
    + split; [exact (quiet_trans _ _ _ Qe Hq)|].
      match goal with
      | |- match snd ?x with _ => _ end =>
          destruct (snd x) as [st'|e]; [|exact Hr]
      end.
      cbn [l_mm l_filter] in Hr. destruct Hr as [A [B C]].
      split; [exact A|]. split; [exact B|]. split; [lia|].
      intros _. exact C.
  - split; [exact Qe|]. simpl.
    split; [reflexivity|]. split; [exact Hok|]. split; [apply le_n|].
    discriminate.
  - split; [exact Qe | discriminate].
Qed.

Lemma add_component_error (name : string) (con : Con) (blk : list Con)
  (e : exn) :
  add_component name con blk = Raise e -> e <> OutOfBudget.
Proof.
  unfold add_component. destruct (existsb _ blk); [|discriminate].
  intros H. inversion H. discriminate.
Qed.

Lemma convert_var_error (v : Var) (blk : list Con) (e : exn) :
  convert_var v blk = Raise e -> e <> OutOfBudget.
Proof.
  unfold convert_var. destruct (v_fixed v); [discriminate|].
  destruct (bounds v) as [[l|] [u|]]; simpl; try discriminate.
  - destruct (add_component _ _ blk) as [b1|e1] eqn:A1; simpl.
    + destruct (add_component _ _ b1) as [b2|e2] eqn:A2; simpl;
        [discriminate|].
      intros H. inversion H. subst. eapply add_component_error; exact A2.
    + intros H. inversion H. subst. eapply add_component_error; exact A1.
  - destruct (add_component _ _ blk) as [b1|e1] eqn:A1; simpl;
      [discriminate|].
    intros H. inversion H. subst. eapply add_component_error; exact A1.
  - destruct (add_component _ _ blk) as [b1|e1] eqn:A1; simpl;
      [discriminate|].
    intros H. inversion H. subst. eapply add_component_error; exact A1.
Qed.

Lemma convert_vars_error (vs : list Var) :
  forall blk e, convert_vars vs blk = Raise e -> e <> OutOfBudget.
Proof.
  induction vs as [|v vs IH]; intros blk e; simpl; [discriminate|].
  destruct (convert_var v blk) as [[b1 v1]|e1] eqn:C1; simpl.
  - destruct (convert_vars vs b1) as [[b2 vs2]|e2] eqn:C2; simpl;
      [discriminate|].
    intros H. inversion H. subst. eapply IH; exact C2.
  - intros H. inversion H. subst. eapply convert_var_error; exact C1.
Qed.

Lemma unfix_bound_slacks_error (cs : list Con) :
  forall ss e, unfix_bound_slacks cs ss = Raise e -> e <> OutOfBudget.
Proof.
  induction cs as [|c cs IH]; intros ss e; simpl; [discriminate|].
  match goal with |- context [if ?b then _ else _] => destruct b end.
  - intros H. inversion H. discriminate.
  - apply IH.
Qed.

Lemma prepare_error (model : Model) (e : exn) :
  prepare model = Raise e -> e <> OutOfBudget.
Proof.
  unfold prepare, _apply_to.
  destruct (convert_vars _ []) as [[b vs]|e1] eqn:C; simpl.
  - unfold AddSlackVariables. simpl.
    destruct (existsb crossed _); simpl.
    + intros H. inversion H. discriminate.
    + match goal with
      | |- context [unfix_bound_slacks ?cs ?ss] =>
          destruct (unfix_bound_slacks cs ss) as [s1|e2] eqn:U
      end; simpl; [discriminate|].
      intros H. inversion H. subst. eapply unfix_bound_slacks_error; exact U.
  - intros H. inversion H. subst. eapply convert_vars_error; exact C.
Qed.

Lemma unfix_inequalities_error (mm : Modified) (fixed : list string)
  (vs : list Slack) :
  forall e, unfix_inequalities mm fixed vs = Raise e -> e <> OutOfBudget.
Proof.
  induction vs as [|v vs IH]; intros e; simpl; [discriminate|].
  destruct (_get_constraint mm v) as [c|e1] eqn:G; simpl.
  - destruct (unfix_inequalities mm fixed vs) as [r|e2]; simpl.
    + destruct (c_equality c); [discriminate|].
      destruct (negb (PyStr.mem (s_name v) fixed)); discriminate.
    + intros H. inversion H. subst. apply IH. reflexivity.
  - intros H. inversion H. subst. eapply _get_constraint_error; exact G.
Qed.

Lemma write_back_error (E : Env) (mm : Modified) (w : World) :
  snd (write_back E mm w) <> Raise OutOfBudget.
Proof.
  unfold write_back. cbv zeta.
  match goal with
  | |- context [solve_model E ?wr ?m] =>
      destruct (solve_model E wr m) as [[[|]|] sol]
  end; simpl; discriminate.
Qed.

Lemma deletion_sweep_quiet (E : Env) (cache : list (string * option Q))
  (members : list Con) :
  forall st w, quiet w (fst (deletion_sweep E cache members st w)).
Proof.
  induction members as [|d members IH]; intros st w; simpl.
  - apply quiet_refl.
  - unfold bindM. rewrite deletion_test_eq. cbv zeta.
    eapply quiet_trans; [apply (quiet_emit SolveModified); reflexivity|].
    apply IH.
Qed.

Lemma quiet_register (cls : writer) (w : World) :
  quiet w (fst (register cls w)).
Proof.
  split; [reflexivity|]. exists [Register cls]. split; reflexivity.
Qed.

Lemma check_optimal_termination_error (E : Env) (r : option Results)
  (e : exn) :
  check_none E <> Raise OutOfBudget ->
  check_optimal_termination E r = Raise e -> e <> OutOfBudget.
Proof.
  intros Hn. destruct r as [[|]|]; simpl; try discriminate.
  intros H Q. subst e. exact (Hn H).
Qed.

(** The deletion filter never reaches the caller's model, and has no loop
    that could run out of budget. *)
Lemma deletion_filter_phase_spec (E : Env)
  (cache : list (string * option Q)) (st : Loop) (w : World) :
  quiet w (fst (deletion_filter_phase E cache st w)) /\
  (check_none E <> Raise OutOfBudget ->
   snd (deletion_filter_phase E cache st w) <> Raise OutOfBudget).
Proof.
  assert (Q1 : quiet w (emit SolveModified (fst (register nl_v1 w)))).
  { eapply quiet_trans; [apply quiet_register|].
    apply quiet_emit. reflexivity. }
  unfold deletion_filter_phase, bindM. simpl.
  unfold try_solve. simpl.
  destruct (solve E nl_v1 (deletion_setup (l_filter st) (l_mm st)))
    as [r sol].
  simpl. unfold lift.
  destruct (check_optimal_termination E r) as [[|]|e] eqn:C; simpl.
  - split; [|discriminate].
    apply (quiet_trans _ _ _ Q1).
    exact (quiet_register _default_nl_writer
             (emit SolveModified (fst (register nl_v1 w)))).
  - pose proof (deletion_sweep_quiet E cache (l_filter st)
                  (mkSweep (load sol (deletion_setup (l_filter st) (l_mm st)))
                     [] [])
                  (emit SolveModified (fst (register nl_v1 w)))) as Q2.
    destruct (deletion_sweep E cache (l_filter st) _ _) as [w3 [sw|e]]
      eqn:DS; simpl in Q2 |- *.
    + destruct (_get_results (sw_deletion_filter sw) _) as [m1|e1] eqn:R1;
        simpl.
      * destruct (_get_results (sw_guards sw) _) as [m2|e2] eqn:R2; simpl.
        -- split; [|discriminate].
           apply (quiet_trans _ _ _ Q1).
           apply (quiet_trans _ _ _ Q2).
           exact (quiet_register _default_nl_writer w3).
        -- split; [exact (quiet_trans _ _ _ Q1 Q2)|].
           intros _ H. inversion H. subst.
           unfold _get_results in R2.
           exact (render_all_error _ _ _ R2 eq_refl).
      * split; [exact (quiet_trans _ _ _ Q1 Q2)|].
        intros _ H. inversion H. subst.
        unfold _get_results in R1.
        exact (render_all_error _ _ _ R1 eq_refl).
    + split; [exact (quiet_trans _ _ _ Q1 Q2)|].
      intros _ H. inversion H. subst.
      destruct (deletion_sweep_total E cache (l_filter st)
                  (mkSweep (load sol (deletion_setup (l_filter st) (l_mm st)))
                     [] [])
                  (emit SolveModified (fst (register nl_v1 w))))
        as [w' [st' [Hs _]]].
      rewrite Hs in DS. discriminate DS.
  - split; [exact Q1|].
    intros Hn H. inversion H. subst.
    exact (check_optimal_termination_error E r _ Hn C eq_refl).
Qed.

Lemma bindM_unfold (A B : Type) (m : M A) (f : A -> M B) (w : World) :
  bindM m f w =
  match m w with
  | (w', Ok a) => f a w'
  | (w', Raise e) => (w', Raise e)
  end.
Proof. reflexivity. Qed.

Lemma filter_ok_nil (cons : list Con) : filter_ok cons [].
Proof. split; [constructor | intros x []]. Qed.

(** The three phases together: within budget, away from the caller's model,
    and with a filter that is not empty when the first solve is optimal. *)
Lemma relaxation_driver_spec (E : Env) (tolerance : Q) (name : string)
  (cache : list (string * option Q)) (mm : Modified) (w : World) :
  quiet w (fst (relaxation_driver E tolerance name cache mm w)) /\
  match snd (relaxation_driver E tolerance name cache mm w) with
  | Ok st3 =>
      fst (solve E (w_writer w) mm) = Some Optimal ->
      (0 < List.length (l_filter st3))%nat
  | Raise e => e <> OutOfBudget
  end.
Proof.
  unfold relaxation_driver. rewrite bindM_unfold.
  destruct (relax_phase_spec E tolerance name cache "variable bounds"
              (mkLoop mm [] [] EmptyString) w (filter_ok_nil _)) as [Q1 R1].
  destruct (relax_phase E tolerance name cache "variable bounds"
              (mkLoop mm [] [] EmptyString) w) as [w1 [st1|e1]];
    cbn [fst snd] in Q1, R1 |- *; [|split; [exact Q1 | exact R1]].
  cbn [l_mm l_filter] in R1. destruct R1 as [A1 [B1 [_ D1]]].
  rewrite bindM_unfold. unfold lift.
  destruct (unfix_inequalities (l_mm st1) (l_fixed st1)
              (mm_slacks (l_mm st1))) as [ss|e] eqn:U;
    [|split; [exact Q1 | eapply unfix_inequalities_error; exact U]].
  rewrite bindM_unfold.
  match goal with
  | |- context [relax_phase E tolerance name cache ?t ?s w1] =>
      destruct (relax_phase_spec E tolerance name cache t s w1) as [Q2 R2];
      [cbn [l_mm l_filter];
       change (filter_ok (all_cons (l_mm st1)) (l_filter st1));
       rewrite A1; exact B1|];
      destruct (relax_phase E tolerance name cache t s w1)
        as [w2 [st2|e2]]
  end; cbn [fst snd] in Q2, R2 |- *;
    [|split; [exact (quiet_trans _ _ _ Q1 Q2) | exact R2]].
  cbn [l_mm l_filter] in R2.
  change (all_cons (with_slacks ss (l_mm st1))) with (all_cons (l_mm st1))
    in R2.
  destruct R2 as [A2 [B2 [C2 _]]].
  match goal with
  | |- context [relax_phase E tolerance name cache ?t ?s w2] =>
      destruct (relax_phase_spec E tolerance name cache t s w2) as [Q3 R3];
      [cbn [l_mm l_filter];
       change (filter_ok (all_cons (l_mm st2)) (l_filter st2));
       rewrite A2; exact B2|];
      destruct (relax_phase E tolerance name cache t s w2)
        as [w3 [st3|e3]]
  end; cbn [fst snd] in Q3, R3 |- *;
    (split; [exact (quiet_trans _ _ _ (quiet_trans _ _ _ Q1 Q2) Q3)|]);
    [|exact R3].
  cbn [l_mm l_filter] in R3. destruct R3 as [_ [_ [C3 _]]].
  intros Hopt. specialize (D1 Hopt). simpl in D1. lia.
Qed.

(** X17: the [while True] of the constraint loop always ends: a round that
    goes on has added a new constraint of the clone to the elastic filter, so
    one round per constraint and one more are enough, and a run never stops
    for lack of rounds. *)
Theorem run_within_budget (E : Env) (tolerance : Q) (w : World) :
  check_none E <> Raise OutOfBudget ->
  snd (compute_infeasibility_explanation E tolerance w) <> Raise OutOfBudget.
Proof.
  intros Hn. unfold compute_infeasibility_explanation.
  rewrite bindM_unfold. unfold lift.
  destruct (prepare (w_model w)) as [p|e] eqn:P; cbn [fst snd];
    [|intros H; inversion H; subst; exact (prepare_error _ _ P eq_refl)].
  rewrite bindM_unfold.
  destruct (relaxation_driver_spec E tolerance (m_name (w_model w)) (snd p)
              (fst p) w) as [_ R].
  destruct (relaxation_driver E tolerance (m_name (w_model w)) (snd p)
              (fst p) w) as [w3 [st3|e3]]; cbn [fst snd] in R |- *;
    [|intros H; inversion H; subst; exact (R eq_refl)].
  rewrite bindM_unfold.
  assert (Hw : forall w0, snd ((if Nat.eqb (List.length (l_filter st3)) 0
                                then write_back E (l_mm st3)
                                else ret tt) w0) <> Raise OutOfBudget).
  { intros w0. destruct (Nat.eqb _ 0); [apply write_back_error|].
    discriminate. }
  specialize (Hw w3).
  destruct ((if Nat.eqb (List.length (l_filter st3)) 0
             then write_back E (l_mm st3) else ret tt) w3) as [w4 [[]|e4]];
    cbn [fst snd] in Hw |- *; [|exact Hw].
  rewrite bindM_unfold.
  destruct (deletion_filter_phase_spec E (snd p) st3 w4) as [_ D].
  specialize (D Hn).
  destruct (deletion_filter_phase E (snd p) st3 w4) as [w5 [msg|e5]];
    cbn [fst snd] in D |- *; [discriminate|].
  intros H. inversion H. subst. exact (D eq_refl).
Qed.

(** X18: when the first solve of the clone is optimal the run never reaches
    the caller's model, however it ends: no write-back, no solve of it, and
    the model at the end is the model of the start. *)
Theorem optimal_first_solve_keeps_model (E : Env) (tolerance : Q) (w : World)
  (mm : Modified) (cache : list (string * option Q)) :
  prepare (w_model w) = Ok (mm, cache) ->
  fst (solve E (w_writer w) mm) = Some Optimal ->
  quiet w (fst (compute_infeasibility_explanation E tolerance w)).
Proof.
  intros P Hopt. unfold compute_infeasibility_explanation.
  rewrite bindM_unfold. unfold lift. rewrite P. cbn [fst snd].
  rewrite bindM_unfold.
  destruct (relaxation_driver_spec E tolerance (m_name (w_model w)) cache
              mm w) as [Q3 R].
  destruct (relaxation_driver E tolerance (m_name (w_model w)) cache mm w)
    as [w3 [st3|e3]]; cbn [fst snd] in Q3, R |- *; [|exact Q3].
  specialize (R Hopt).
  rewrite bindM_unfold.
  destruct (Nat.eqb (List.length (l_filter st3)) 0) eqn:Z.
  { apply Nat.eqb_eq in Z. lia. }
  unfold ret. rewrite bindM_unfold.
  destruct (deletion_filter_phase_spec E cache st3 w3) as [Q4 _].
  destruct (deletion_filter_phase E cache st3 w3) as [w5 [msg|e5]];
    cbn [fst snd] in Q4 |- *; [|exact (quiet_trans _ _ _ Q3 Q4)].
  apply (quiet_trans _ _ _ (quiet_trans _ _ _ Q3 Q4)).
  exact (quiet_emit (Print msg) w5 eq_refl).
Qed.

(** ** [_get_constraint]: from a slack variable back to its constraint *)

Lemma contains_prepend (needle : string) (a : ascii) (hay : string) :
  PyStr.contains needle hay = true ->
  PyStr.contains needle (String a hay) = true.
Proof.
  intros H. simpl.
  destruct needle as [|b n]; [reflexivity|].
  destruct (Ascii.ascii_dec b a); [|exact H].
  destruct (String.prefix n hay); [reflexivity | exact H].
Qed.

Lemma find_component_name (mm : Modified) (name : string) (c : Con) :
  find_component mm name = Some c -> c_name c = name.
Proof.
  unfold find_component. intros H. apply find_some in H.
  apply String.eqb_eq. tauto.
Qed.

(** X1: the slack [_slack_plus_<name>] is resolved to the constraint the
    clone has under <name>, whatever <name> is; when the clone has no such
    constraint the lookup raises a [RuntimeError]. *)
Theorem get_constraint_of_plus_slack (mm : Modified) (name : string)
  (value : Q) (fixed : bool) :
  _get_constraint mm (mkSlack ("_slack_plus_" ++ name) value fixed) =
  match find_component mm name with
  | Some constr => Ok constr
  | None => Raise (RuntimeError
              "Bad constraint name {v.local_name[len('_slack_plus_'):]}")
  end /\
  forall constr, find_component mm name = Some constr ->
                 c_name constr = name /\ In constr (all_cons mm).
Proof.
  split.
  - destruct name; reflexivity.
  - intros constr H. split.
    + exact (find_component_name _ _ _ H).
    + exact (find_component_In _ _ _ H).
Qed.

(** X2: the slack [_slack_minus_<name>] is resolved to the constraint named
    <name> as long as [_slack_plus_] does not occur in [_<name>]. *)
Theorem get_constraint_of_minus_slack (mm : Modified) (name : string)
  (value : Q) (fixed : bool) :
  PyStr.contains "_slack_plus_" ("_" ++ name) = false ->
  _get_constraint mm (mkSlack ("_slack_minus_" ++ name) value fixed) =
  match find_component mm name with
  | Some constr => Ok constr
  | None => Raise (RuntimeError
              "Bad constraint name {v.local_name[len('_slack_minus_'):]}")
  end.
Proof.
  intros H. unfold _get_constraint.
  change (PyStr.contains "_slack_plus_"
            (slack_name (mkSlack ("_slack_minus_" ++ name) value fixed)))
    with (PyStr.contains "_slack_plus_" ("_" ++ name)).
  rewrite H. destruct name; reflexivity.
Qed.

Lemma get_constraint_of_minus_slack_witness :
  PyStr.contains "_slack_plus_" ("_" ++ ub_x) = false /\
  _get_constraint (elastic_of clash) (mkSlack minus_ub_x 0 true) =
  Ok clash_ub.
Proof.
  split; [reflexivity|].
  exact (get_constraint_of_minus_slack (elastic_of clash) ub_x 0 true
           eq_refl).
Defined.

(** X3: when [_slack_plus_] does occur in [_<name>], the slack
    [_slack_minus_<name>] takes the branch of the plus slacks, which cuts one
    character less: the constraint is looked up under [_<name>], not under
    <name>. *)
Theorem get_constraint_of_minus_slack_misread (mm : Modified) (name : string)
  (value : Q) (fixed : bool) :
  PyStr.contains "_slack_plus_" ("_" ++ name) = true ->
  _get_constraint mm (mkSlack ("_slack_minus_" ++ name) value fixed) =
  match find_component mm ("_" ++ name) with
  | Some constr => Ok constr
  | None => Raise (RuntimeError
              "Bad constraint name {v.local_name[len('_slack_plus_'):]}")
  end.
Proof.
  intros H. unfold _get_constraint.
  change (PyStr.contains "_slack_plus_"
            (slack_name (mkSlack ("_slack_minus_" ++ name) value fixed)))
    with (PyStr.contains "_slack_plus_" ("_" ++ name)).
  rewrite H. reflexivity.
Qed.

Lemma get_constraint_of_minus_slack_misread_witness :
  PyStr.contains "_slack_plus_" ("_" ++ "mix_slack_plus_in") = true /\
  _get_constraint (elastic_of clash)
    (mkSlack ("_slack_minus_" ++ "mix_slack_plus_in") 0 true) =
  Raise (RuntimeError
           "Bad constraint name {v.local_name[len('_slack_plus_'):]}").
Proof.
  split; [reflexivity|].
  exact (get_constraint_of_minus_slack_misread (elastic_of clash)
           "mix_slack_plus_in" 0 true eq_refl).
Defined.

(** ** The clone when the first phase starts *)

Lemma unfix_named_map (name : string) (ss : list Slack) :
  map s_name (unfix_named name ss) = map s_name ss.
Proof.
  unfold unfix_named. rewrite map_map. apply map_ext. intros s.
  destruct (String.eqb (s_name s) name); reflexivity.
Qed.

Lemma unfix_bound_slacks_map (cs : list Con) :
  forall ss ss',
    unfix_bound_slacks cs ss = Ok ss' ->
    ss' = map (fun s => if freed cs (s_name s) then unfix s else s) ss.
Proof.
  induction cs as [|c cs IH]; intros ss ss'; simpl.
  - intros H. inversion H. subst. rewrite map_id. reflexivity.
  - match goal with |- context [if ?b then _ else _] => destruct b end;
      [discriminate|].
    intros H. rewrite (IH _ _ H). unfold unfix_named.
    rewrite !map_map. apply map_ext. intros s. unfold freed. simpl.
    destruct (String.eqb (s_name s) _) eqn:P at 1; simpl; rewrite ?P; simpl;
      destruct (String.eqb (s_name s) _) eqn:Mi at 1; simpl;
      rewrite ?P, ?Mi; simpl;
      destruct (existsb _ cs); reflexivity.
Qed.

(** What [prepare] returns, piece by piece. *)
Lemma prepare_shape (model : Model) (mm : Modified)
  (cache : list (string * option Q)) :
  prepare model = Ok (mm, cache) ->
  cache = map (fun v => (v_name v, v_value v)) (m_vars model) /\
  exists mm0,
    _apply_to (mkModel (m_name model)
                 (reset_vars (map (fun v => (v_name v, v_value v))
                                (m_vars model)) (m_vars model))
                 (m_cons model) (m_objs model)) = Ok mm0 /\
    mm_vars mm = mm_vars mm0 /\
    mm_cons mm = mm_cons mm0 /\
    mm_bounds mm = mm_bounds mm0 /\
    existsb crossed (all_cons mm0) = false /\
    mm_slacks mm =
      map (fun s => if freed (mm_bounds mm0) (s_name s) then unfix s else s)
        (map fix0 (flat_map slacks_of (all_cons mm0))).
Proof.
  unfold prepare.
  destruct (_apply_to _) as [mm0|e] eqn:A; [|discriminate].
  simpl. unfold AddSlackVariables.
  change (mm_cons mm0 ++ mm_bounds mm0)%list with (all_cons mm0).
  destruct (existsb crossed (all_cons mm0)) eqn:X; [discriminate|].
  simpl.
  destruct (unfix_bound_slacks (mm_bounds mm0) _) as [ss|e] eqn:U;
    [|discriminate].
  simpl. intros H. inversion H. subst. clear H.
  split; [reflexivity|]. exists mm0.
  split; [reflexivity|]. simpl.
  repeat (split; [reflexivity|]).
  split; [exact X|].
  exact (unfix_bound_slacks_map _ _ _ U).
Qed.

(** X4: when the first phase starts every slack variable has the value
    zero, and a slack is free exactly when it is a plus or a minus slack of a
    constraint of the block [_variable_bounds]; every other slack is fixed. *)
Theorem first_phase_frees_bound_slacks_only (model : Model) (mm : Modified)
  (cache : list (string * option Q)) :
  prepare model = Ok (mm, cache) ->
  forall s, In s (mm_slacks mm) ->
    s_value s = 0%Q /\
    (s_fixed s = false <->
     exists c, In c (mm_bounds mm) /\
       (s_name s = "_slack_plus_" ++ c_name c \/
        s_name s = "_slack_minus_" ++ c_name c)).
Proof.
  intros P s Hs.
  destruct (prepare_shape _ _ _ P) as [_ [mm0 [_ [_ [_ [Hb [_ Hsl]]]]]]].
  rewrite Hsl in Hs. rewrite map_map in Hs.
  apply in_map_iff in Hs. destruct Hs as [s0 [Es _]].
  rewrite Hb. subst s. cbn [fix0 s_name].
  assert (F : freed (mm_bounds mm0) (s_name s0) = true <->
              exists c, In c (mm_bounds mm0) /\
                (s_name s0 = "_slack_plus_" ++ c_name c \/
                 s_name s0 = "_slack_minus_" ++ c_name c)).
  { unfold freed. rewrite existsb_exists.
    split; intros [c [Hc Hn]]; exists c; (split; [exact Hc|]).
    - apply orb_true_iff in Hn. rewrite !String.eqb_eq in Hn. exact Hn.
    - apply orb_true_iff. rewrite !String.eqb_eq. exact Hn. }
  destruct (freed (mm_bounds mm0) (s_name s0)) eqn:Fr; simpl.
  - split; [reflexivity|]. split; [intros _; apply F; reflexivity|].
    reflexivity.
  - split; [reflexivity|]. split; [discriminate|].
    intros H. apply F in H. discriminate.
Qed.

Lemma first_phase_frees_bound_slacks_only_witness :
  prepare tank =
    Ok (elastic_of tank, [("level", Some 2%Q); ("inflow", Some 2%Q);
                          ("area", Some 3%Q); ("drift", None)]) /\
  map s_fixed (mm_slacks (elastic_of tank)) =
    [true; true; false; false; false] /\
  forall s, In s (mm_slacks (elastic_of tank)) -> s_value s = 0%Q.
Proof.
  split; [reflexivity|]. split; [reflexivity|].
  intros s Hs.
  exact (proj1 (first_phase_frees_bound_slacks_only tank (elastic_of tank)
                  _ eq_refl s Hs)).
Defined.

Lemma add_component_runtime (name : string) (con : Con) (blk : list Con)
  (e : exn) :
  add_component name con blk = Raise e -> exists msg, e = RuntimeError msg.
Proof.
  unfold add_component. destruct (existsb _ blk); [|discriminate].
  intros H. inversion H. eexists. reflexivity.
Qed.

Lemma convert_var_runtime (v : Var) (blk : list Con) (e : exn) :
  convert_var v blk = Raise e -> exists msg, e = RuntimeError msg.
Proof.
  unfold convert_var. destruct (v_fixed v); [discriminate|].
  destruct (bounds v) as [[l|] [u|]]; simpl; try discriminate.
  - destruct (add_component _ _ blk) as [b1|e1] eqn:A1; simpl.
    + destruct (add_component _ _ b1) as [b2|e2] eqn:A2; simpl;
        [discriminate|].
      intros H. inversion H. subst. eapply add_component_runtime; exact A2.
    + intros H. inversion H. subst. eapply add_component_runtime; exact A1.
  - destruct (add_component _ _ blk) as [b1|e1] eqn:A1; simpl;
      [discriminate|].
    intros H. inversion H. subst. eapply add_component_runtime; exact A1.
  - destruct (add_component _ _ blk) as [b1|e1] eqn:A1; simpl;
      [discriminate|].
    intros H. inversion H. subst. eapply add_component_runtime; exact A1.
Qed.

Lemma convert_vars_runtime (vs : list Var) :
  forall blk e, convert_vars vs blk = Raise e ->
                exists msg, e = RuntimeError msg.
Proof.
  induction vs as [|v vs IH]; intros blk e; simpl; [discriminate|].
  destruct (convert_var v blk) as [[b1 v1]|e1] eqn:C1; simpl.
  - destruct (convert_vars vs b1) as [[b2 vs2]|e2] eqn:C2; simpl;
      [discriminate|].
    intros H. inversion H. subst. eapply IH; exact C2.
  - intros H. inversion H. subst. eapply convert_var_runtime; exact C1.
Qed.

(** Every constraint the transformation adds is active and has a bound. *)
Lemma convert_var_bounded (v : Var) (blk blk' : list Con) (v' : Var) :
  convert_var v blk = Ok (blk', v') ->
  forall d, In d blk' ->
    In d blk \/
    (c_active d = true /\
     ((exists l, c_lower d = Some l) \/ (exists u, c_upper d = Some u))).
Proof.
  unfold convert_var. destruct (v_fixed v).
  { intros H. inversion H. subst. tauto. }
  destruct (bounds v) as [lb ub].
  assert (Hadd : forall name lower upper b0 b1,
            add_component name (Constraint lower v upper) b0 = Ok b1 ->
            (exists l, lower = Some l) \/ (exists u, upper = Some u) ->
            forall d, In d b1 ->
              In d b0 \/
              (c_active d = true /\
               ((exists l, c_lower d = Some l) \/
                (exists u, c_upper d = Some u)))).
  { intros name lower upper b0 b1 H Hb d Hd.
    rewrite (add_component_inv _ _ _ _ H) in Hd.
    apply in_app_or in Hd. destruct Hd as [Hd|[Hd|[]]]; [tauto|].
    right. subst d. simpl. split; [reflexivity | exact Hb]. }
  destruct lb as [l|], ub as [u|]; simpl.
  - destruct (add_component _ _ blk) as [b1|] eqn:A1; [|discriminate].
    simpl. destruct (add_component _ _ b1) as [b2|] eqn:A2; [|discriminate].
    simpl. intros H d Hd. inversion H. subst.
    destruct (Hadd _ _ _ _ _ A2 (or_intror (ex_intro _ u eq_refl)) d Hd)
      as [Hd1|Hs]; [|tauto].
    exact (Hadd _ _ _ _ _ A1 (or_introl (ex_intro _ l eq_refl)) d Hd1).
  - destruct (add_component _ _ blk) as [b1|] eqn:A1; [|discriminate].
    simpl. intros H d Hd. inversion H. subst.
    exact (Hadd _ _ _ _ _ A1 (or_introl (ex_intro _ l eq_refl)) d Hd).
  - destruct (add_component _ _ blk) as [b1|] eqn:A1; [|discriminate].
    simpl. intros H d Hd. inversion H. subst.
    exact (Hadd _ _ _ _ _ A1 (or_intror (ex_intro _ u eq_refl)) d Hd).
  - intros H. inversion H. subst. tauto.
Qed.

Lemma convert_vars_bounded (vs : list Var) :
  forall blk blk' vs',
    convert_vars vs blk = Ok (blk', vs') ->
    forall d, In d blk' ->
      In d blk \/
      (c_active d = true /\
       ((exists l, c_lower d = Some l) \/ (exists u, c_upper d = Some u))).
Proof.
  induction vs as [|v vs IH]; intros blk blk' vs'; simpl.
  - intros H. inversion H. subst. tauto.
  - destruct (convert_var v blk) as [[b1 v1]|] eqn:C1; [|discriminate].
    simpl. destruct (convert_vars vs b1) as [[b2 vs2]|] eqn:C2;
      [|discriminate].
    simpl. intros H d Hd. inversion H. subst.
    destruct (IH _ _ _ C2 d Hd) as [Hd1|Hs]; [|tauto].
    exact (convert_var_bounded _ _ _ _ C1 d Hd1).
Qed.

Lemma has_unfix_named (n m : string) (ss : list Slack) :
  existsb (fun s => String.eqb (s_name s) n) (unfix_named m ss) =
  existsb (fun s => String.eqb (s_name s) n) ss.
Proof.
  induction ss as [|s ss IH]; simpl; [reflexivity|].
  rewrite IH. destruct (String.eqb (s_name s) m); reflexivity.
Qed.

Lemma unfix_bound_slacks_ok (cs : list Con) :
  forall ss,
    (forall c, In c cs ->
       existsb (fun s => String.eqb (s_name s) ("_slack_plus_" ++ c_name c)) ss
       || existsb (fun s => String.eqb (s_name s)
                              ("_slack_minus_" ++ c_name c)) ss = true) ->
    exists ss', unfix_bound_slacks cs ss = Ok ss'.
Proof.
  induction cs as [|c cs IH]; intros ss H; simpl.
  - eexists; reflexivity.
  - pose proof (H c (or_introl eq_refl)) as Hc. simpl in Hc.
    match goal with |- context [if ?b then _ else _] => destruct b eqn:B end.
    + apply andb_true_iff in B. destruct B as [B1 B2].
      apply negb_true_iff in B1. apply negb_true_iff in B2.
      rewrite B1, B2 in Hc. discriminate.
    + apply IH. intros c' Hc'. rewrite !has_unfix_named.
      exact (H c' (or_intror Hc')).
Qed.

Lemma slack_of_active_constraint (cons : list Con) (c : Con) :
  In c cons -> c_active c = true ->
  (exists l, c_lower c = Some l) \/ (exists u, c_upper c = Some u) ->
  existsb (fun s => String.eqb (s_name s) ("_slack_plus_" ++ c_name c))
    (map fix0 (flat_map slacks_of cons))
  || existsb (fun s => String.eqb (s_name s) ("_slack_minus_" ++ c_name c))
       (map fix0 (flat_map slacks_of cons)) = true.
Proof.
  intros Hc Ha Hb. apply orb_true_iff.
  assert (Hin : forall s, In s (slacks_of c) ->
                          In (fix0 s) (map fix0 (flat_map slacks_of cons))).
  { intros s Hs. apply in_map. apply in_flat_map. exists c. tauto. }
  unfold slacks_of in Hin. rewrite Ha in Hin.
  destruct Hb as [[l Hl]|[u Hu]].
  - left. apply existsb_exists. rewrite Hl in Hin.
    eexists. split; [apply Hin; left; reflexivity|].
    apply String.eqb_refl.
  - right. apply existsb_exists. rewrite Hu in Hin.
    eexists. split; [apply Hin; apply in_or_app; right; left; reflexivity|].
    apply String.eqb_refl.
Qed.

(** X5: setting the clone up can only fail with a [RuntimeError] (a name
    already declared, a constraint whose lower bound exceeds its upper
    bound): the assertion that every bound constraint has a slack never
    fails. *)
Theorem prepare_raises_only_runtime_errors (model : Model) (e : exn) :
  prepare model = Raise e -> exists msg, e = RuntimeError msg.
Proof.
  unfold prepare, _apply_to.
  destruct (convert_vars _ []) as [[b vs]|e1] eqn:C; simpl.
  - unfold AddSlackVariables. simpl.
    destruct (existsb crossed _); simpl.
    + intros H. inversion H. eexists. reflexivity.
    + match goal with
      | |- context [unfix_bound_slacks ?cs ?ss] =>
          destruct (unfix_bound_slacks_ok cs ss) as [ss' U]
      end.
      * intros c Hc.
        destruct (convert_vars_bounded _ _ _ _ C c Hc) as [[]|[Ha Hb]].
        apply slack_of_active_constraint;
          [apply in_or_app; right; exact Hc | exact Ha | exact Hb].
      * rewrite U. simpl. discriminate.
  - intros H. inversion H. subst. eapply convert_vars_runtime; exact C.
Qed.

Lemma prepare_raises_only_runtime_errors_witness :
  prepare (mkModel "crossed" []
             [mkCon "c" "c" (Some 3%Q) (BodyExpr "x") (Some 1%Q) false true]
             []) =
    Raise (RuntimeError "Lower bound exceeds upper bound in constraint") /\
  exists msg,
    RuntimeError "Lower bound exceeds upper bound in constraint" =
    RuntimeError msg.
Proof.
  split; [reflexivity|].
  exact (prepare_raises_only_runtime_errors
           (mkModel "crossed" []
              [mkCon "c" "c" (Some 3%Q) (BodyExpr "x") (Some 1%Q) false true]
              [])
           _ eq_refl).
Defined.

Lemma _get_constraint_by_name (mm : Modified) (s : Slack) (n : string) :
  s_name s = n ->
  _get_constraint mm s = _get_constraint mm (mkSlack n 0 false).
Proof. intros H. destruct s. simpl in H. subst. reflexivity. Qed.

Lemma _get_constraint_plus (mm : Modified) (name : string) (c : Con) :
  find_component mm name = Some c ->
  _get_constraint mm (mkSlack ("_slack_plus_" ++ name) 0 false) = Ok c.
Proof.
  intros H. unfold _get_constraint.
  replace (PyStr.contains "_slack_plus_"
             (slack_name (mkSlack ("_slack_plus_" ++ name) 0 false)))
    with true by (destruct name; reflexivity).
  change (PyStr.drop (String.length "_slack_plus_")
            (s_name (mkSlack ("_slack_plus_" ++ name) 0 false)))
    with name.
  rewrite H. reflexivity.
Qed.

Lemma _get_constraint_minus (mm : Modified) (name : string) (c : Con) :
  PyStr.contains "_slack_plus_" ("_" ++ name) = false ->
  find_component mm name = Some c ->
  _get_constraint mm (mkSlack ("_slack_minus_" ++ name) 0 false) = Ok c.
Proof.
  intros Hn H. unfold _get_constraint.
  change (PyStr.contains "_slack_plus_"
            (slack_name (mkSlack ("_slack_minus_" ++ name) 0 false)))
    with (PyStr.contains "_slack_plus_" ("_" ++ name)).
  rewrite Hn.
  replace (PyStr.contains "_slack_minus_"
             (slack_name (mkSlack ("_slack_minus_" ++ name) 0 false)))
    with true by (destruct name; reflexivity).
  change (PyStr.drop (String.length "_slack_minus_")
            (s_name (mkSlack ("_slack_minus_" ++ name) 0 false)))
    with name.
  rewrite H. reflexivity.
Qed.

Lemma find_component_some (mm : Modified) (c0 : Con) :
  In c0 (all_cons mm) ->
  exists c, find_component mm (c_name c0) = Some c.
Proof.
  intros H. unfold find_component.
  destruct (find _ (all_cons mm)) as [c|] eqn:F; [eexists; reflexivity|].
  pose proof (find_none _ _ F c0 H) as N. simpl in N.
  rewrite String.eqb_refl in N. discriminate.
Qed.

(** X6: in the clone as it is set up, every slack variable is the plus or
    the minus slack of a constraint of the clone and [_get_constraint]
    finds that constraint, provided [_slack_plus_] occurs in [_<name>] for
    no constraint name: the structural errors of [_get_constraint] are then
    out of reach. *)
Theorem every_slack_has_its_constraint (model : Model) (mm : Modified)
  (cache : list (string * option Q)) :
  prepare model = Ok (mm, cache) ->
  (forall c, In c (all_cons mm) ->
     PyStr.contains "_slack_plus_" ("_" ++ c_name c) = false) ->
  forall s, In s (mm_slacks mm) ->
    exists c,
      _get_constraint mm s = Ok c /\
      In c (all_cons mm) /\
      (s_name s = "_slack_plus_" ++ c_name c \/
       s_name s = "_slack_minus_" ++ c_name c).
Proof.
  intros P Hn s Hs.
  destruct (prepare_shape _ _ _ P) as [_ [mm0 [_ [_ [Hc [Hb [_ Hsl]]]]]]].
  assert (Hall : all_cons mm0 = all_cons mm).
  { unfold all_cons. rewrite Hc, Hb. reflexivity. }
  rewrite Hsl, Hall, map_map in Hs.
  apply in_map_iff in Hs. destruct Hs as [s0 [Es Hs0]].
  apply in_flat_map in Hs0. destruct Hs0 as [c0 [Hc0 Hs0]].
  assert (Hname : s_name s = s_name s0).
  { subst s. simpl. destruct (freed _ _); reflexivity. }
  destruct (find_component_some mm c0 Hc0) as [c F].
  pose proof (find_component_name _ _ _ F) as Nc.
  exists c. split; [|split; [exact (find_component_In _ _ _ F)|]].
  - unfold slacks_of in Hs0. destruct (c_active c0); [|destruct Hs0].
    apply in_app_or in Hs0. destruct Hs0 as [Hs0|Hs0].
    + destruct (c_lower c0); [|destruct Hs0]. destruct Hs0 as [Hs0|[]].
      rewrite (_get_constraint_by_name mm s
                 ("_slack_plus_" ++ c_name c0)).
      * exact (_get_constraint_plus mm _ c F).
      * rewrite Hname. subst s0. reflexivity.
    + destruct (c_upper c0); [|destruct Hs0]. destruct Hs0 as [Hs0|[]].
      rewrite (_get_constraint_by_name mm s
                 ("_slack_minus_" ++ c_name c0)).
      * exact (_get_constraint_minus mm _ c (Hn c0 Hc0) F).
      * rewrite Hname. subst s0. reflexivity.
  - rewrite Hname, Nc. unfold slacks_of in Hs0.
    destruct (c_active c0); [|destruct Hs0].
    apply in_app_or in Hs0. destruct Hs0 as [Hs0|Hs0].
    + destruct (c_lower c0); [|destruct Hs0]. destruct Hs0 as [Hs0|[]].
      subst s0. left. reflexivity.
    + destruct (c_upper c0); [|destruct Hs0]. destruct Hs0 as [Hs0|[]].
      subst s0. right. reflexivity.
Qed.

Lemma every_slack_has_its_constraint_witness :
  prepare tank =
    Ok (elastic_of tank, [("level", Some 2%Q); ("inflow", Some 2%Q);
                          ("area", Some 3%Q); ("drift", None)]) /\
  (forall c, In c (all_cons (elastic_of tank)) ->
     PyStr.contains "_slack_plus_" ("_" ++ c_name c) = false) /\
  forall s, In s (mm_slacks (elastic_of tank)) ->
    exists c, _get_constraint (elastic_of tank) s = Ok c.
Proof.
  assert (Hn : forall c, In c (all_cons (elastic_of tank)) ->
                 PyStr.contains "_slack_plus_" ("_" ++ c_name c) = false).
  { intros c Hc. vm_compute in Hc.
    repeat (destruct Hc as [Hc|Hc]; [subst c; reflexivity|]).
    destruct Hc. }
  split; [reflexivity|]. split; [exact Hn|].
  intros s Hs.
  destruct (every_slack_has_its_constraint tank (elastic_of tank) _ eq_refl
              Hn s Hs) as [c [G _]].
  exists c. exact G.
Defined.

(** ** The value cache *)

Lemma reset_vars_fold (cache : list (string * option Q)) :
  forall vs,
    reset_vars cache vs = map (fun v => fold_left restore_entry cache v) vs.
Proof.
  induction cache as [|[n val] cache IH]; intros vs; simpl.
  - rewrite map_id. reflexivity.
  - rewrite IH, map_map. reflexivity.
Qed.

Lemma restore_entry_name (v : Var) (entry : string * option Q) :
  v_name (restore_entry v entry) = v_name v.
Proof.
  unfold restore_entry. destruct (String.eqb _ _); reflexivity.
Qed.

Lemma fold_restore_absent (cache : list (string * option Q)) :
  forall v, ~ In (v_name v) (map fst cache) ->
            fold_left restore_entry cache v = v.
Proof.
  induction cache as [|[n val] cache IH]; intros v H; simpl; [reflexivity|].
  simpl in H. unfold restore_entry at 2. simpl.
  destruct (String.eqb (v_name v) n) eqn:E.
  - apply String.eqb_eq in E. exfalso. apply H. left. symmetry. exact E.
  - apply IH. intros I. apply H. right. exact I.
Qed.

Lemma fold_restore_present (cache : list (string * option Q)) :
  NoDup (map fst cache) ->
  forall v val, In (v_name v, val) cache ->
                fold_left restore_entry cache v = set_value val v.
Proof.
  induction cache as [|[n x] cache IH]; intros ND v val H; simpl;
    [destruct H|].
  simpl in ND. inversion ND as [|? ? Hn ND']; subst.
  unfold restore_entry at 2. simpl.
  destruct H as [H|H].
  - inversion H. subst. rewrite String.eqb_refl.
    apply fold_restore_absent. exact Hn.
  - destruct (String.eqb (v_name v) n) eqn:E.
    + apply String.eqb_eq in E. exfalso. apply Hn. rewrite <- E.
      change (v_name v) with (fst (v_name v, val)). apply in_map. exact H.
    + apply IH; assumption.
Qed.

Lemma restore_all (cache : list (string * option Q)) :
  NoDup (map fst cache) ->
  forall vs vs',
    map v_name vs' = map v_name vs ->
    (forall v, In v vs -> In (v_name v, v_value v) cache) ->
    map (fun v => fold_left restore_entry cache v) vs' =
    map back_to_start (combine vs vs').
Proof.
  intros ND. induction vs as [|v vs IH]; intros [|v' vs'] Hn Hc;
    simpl in *; try discriminate; [reflexivity|].
  inversion Hn as [[Hv Hr]].
  rewrite (fold_restore_present _ ND v' (v_value v)).
  - unfold back_to_start at 1. simpl. f_equal. apply IH; [exact Hr|].
    intros u Hu. apply Hc. right. exact Hu.
  - rewrite Hv. apply Hc. left. reflexivity.
Qed.

(** X7: whatever values the clone holds (a failed solve may have left
    anything), resetting it from the cache taken at the start gives every
    variable the value the caller's variable had at the start and changes
    nothing else: not the bounds, domain or fixed flag of a variable, not a
    constraint, an objective or a slack.  The variables have distinct
    names. *)
Theorem reset_restores_start_values (model : Model) (mm' : Modified) :
  NoDup (map v_name (m_vars model)) ->
  map v_name (mm_vars mm') = map v_name (m_vars model) ->
  reset_values (map (fun v => (v_name v, v_value v)) (m_vars model)) mm' =
    with_vars (map back_to_start (combine (m_vars model) (mm_vars mm'))) mm'
  /\
  map v_value
    (mm_vars (reset_values (map (fun v => (v_name v, v_value v))
                              (m_vars model)) mm')) =
    map v_value (m_vars model).
Proof.
  intros ND Hn.
  assert (E : reset_vars (map (fun v => (v_name v, v_value v))
                            (m_vars model)) (mm_vars mm') =
              map back_to_start (combine (m_vars model) (mm_vars mm'))).
  { rewrite reset_vars_fold. apply restore_all.
    - rewrite map_map. simpl. exact ND.
    - exact Hn.
    - intros v Hv. apply in_map_iff. exists v. tauto. }
  unfold reset_values. rewrite E. split; [reflexivity|].
  simpl. clear E ND.
  revert Hn. generalize (mm_vars mm'). generalize (m_vars model).
  induction l as [|v vs IH]; intros [|v' vs'] Hn; simpl in *;
    try discriminate; [reflexivity|].
  inversion Hn. f_equal. apply IH. assumption.
Qed.

Lemma reset_restores_start_values_witness :
  NoDup (map v_name (m_vars clash)) /\
  map v_name (mm_vars (load (point 7 0 0) (elastic_of clash))) =
    map v_name (m_vars clash) /\
  map v_value (mm_vars (load (point 7 0 0) (elastic_of clash))) =
    [Some 7%Q] /\
  map v_value
    (mm_vars (reset_values (map (fun v => (v_name v, v_value v))
                              (m_vars clash))
                (load (point 7 0 0) (elastic_of clash)))) =
    map v_value (m_vars clash).
Proof.
  assert (ND : NoDup (map v_name (m_vars clash))).
  { simpl. repeat constructor. intros []. }
  split; [exact ND|]. split; [reflexivity|]. split; [reflexivity|].
  exact (proj2 (reset_restores_start_values clash
                  (load (point 7 0 0) (elastic_of clash)) ND eq_refl)).
Defined.

(** ** What the relaxation driver hands to the deletion filter *)

(** X8: the elastic filter the three phases return holds constraints of the
    clone, each once, and the phases leave the constraints of the clone as
    they were: none is added, removed or deactivated. *)
Theorem driver_returns_a_set_of_constraints (E : Env) (tolerance : Q)
  (name : string) (cache : list (string * option Q)) (mm : Modified)
  (w w' : World) (st3 : Loop) :
  relaxation_driver E tolerance name cache mm w = (w', Ok st3) ->
  NoDup (map c_name (l_filter st3)) /\
  (forall c, In c (l_filter st3) -> declared (l_mm st3) (c_name c) = true) /\
  all_cons (l_mm st3) = all_cons mm.
Proof.
  unfold relaxation_driver. rewrite bindM_unfold.
  destruct (relax_phase_spec E tolerance name cache "variable bounds"
              (mkLoop mm [] [] EmptyString) w (filter_ok_nil _)) as [_ R1].
  destruct (relax_phase E tolerance name cache "variable bounds"
              (mkLoop mm [] [] EmptyString) w) as [w1 [st1|e1]];
    cbn [fst snd] in R1 |- *; [|discriminate].
  cbn [l_mm l_filter] in R1. destruct R1 as [A1 [B1 _]].
  rewrite bindM_unfold. unfold lift.
  destruct (unfix_inequalities (l_mm st1) (l_fixed st1)
              (mm_slacks (l_mm st1))) as [ss|e]; [|discriminate].
  rewrite bindM_unfold.
  match goal with
  | |- context [relax_phase E tolerance name cache ?t ?s w1] =>
      destruct (relax_phase_spec E tolerance name cache t s w1) as [_ R2];
      [cbn [l_mm l_filter];
       change (filter_ok (all_cons (l_mm st1)) (l_filter st1));
       rewrite A1; exact B1|];
      destruct (relax_phase E tolerance name cache t s w1)
        as [w2 [st2|e2]]
  end; cbn [fst snd] in R2 |- *; [|discriminate].
  cbn [l_mm l_filter] in R2.
  change (all_cons (with_slacks ss (l_mm st1))) with (all_cons (l_mm st1))
    in R2.
  destruct R2 as [A2 [B2 _]].
  match goal with
  | |- context [relax_phase E tolerance name cache ?t ?s w2] =>
      destruct (relax_phase_spec E tolerance name cache t s w2) as [_ R3];
      [cbn [l_mm l_filter];
       change (filter_ok (all_cons (l_mm st2)) (l_filter st2));
       rewrite A2; exact B2|];
      destruct (relax_phase E tolerance name cache t s w2)
        as [w3 [st|e3]]
  end; cbn [fst snd] in R3 |- *; [|discriminate].
  cbn [l_mm l_filter] in R3.
  change (all_cons (with_slacks (unfix_remaining (l_fixed st2)
                                   (mm_slacks (l_mm st2))) (l_mm st2)))
    with (all_cons (l_mm st2)) in R3.
  destruct R3 as [A3 [[ND I] _]].
  intros H. inversion H. subst.
  assert (Hall : all_cons (l_mm st3) = all_cons mm) by congruence.
  split; [exact ND|]. split; [|exact Hall].
  intros c Hc. unfold declared. apply existsb_exists.
  assert (Hn : In (c_name c) (map c_name (all_cons (l_mm st3)))).
  { rewrite A3. apply I. apply in_map. exact Hc. }
  apply in_map_iff in Hn. destruct Hn as [d [Ed Hd]].
  exists d. split; [exact Hd | apply String.eqb_eq; exact Ed].
Qed.

Lemma driver_returns_a_set_of_constraints_witness :
  exists w' st3,
    clash_driven = (w', Ok st3) /\
    relaxation_driver clash_solver tolerance_default "clash"
      [("x", Some 0%Q)] (elastic_of clash) (mkWorld clash nl_v2 []) =
      (w', Ok st3) /\
    l_filter st3 = [clash_lb; clash_ub] /\
    NoDup (map c_name (l_filter st3)).
Proof.
  eexists. eexists. split; [reflexivity|].
  match goal with
  | |- ?lhs = ?rhs /\ _ =>
      assert (H : lhs = rhs) by (vm_compute; reflexivity)
  end.
  split; [exact H|]. split; [reflexivity|].
  exact (proj1 (driver_returns_a_set_of_constraints _ _ _ _ _ _ _ _ H)).
Defined.

(** ** The phases only append *)

Lemma str_app_assoc (a b c : string) : (a ++ b) ++ c = a ++ b ++ c.
Proof. induction a as [|x a IH]; simpl; [reflexivity | rewrite IH; reflexivity]. Qed.

Lemma str_app_nil_r (a : string) : a ++ EmptyString = a.
Proof. induction a as [|x a IH]; simpl; [reflexivity | rewrite IH; reflexivity]. Qed.

Lemma render_with_value_appends (E : Env) (c : Con) (q : Q) (msg t : string) :
  render_with_value E c q msg = Ok t -> exists line, t = msg ++ line.
Proof.
  unfold render_with_value.
  destruct (PyStr.contains "_variable_bounds" (c_name c)).
  - destruct (PyStr.contains "lb" (c_local_name c)).
    + intros H. inversion H. eexists. reflexivity.
    + destruct (PyStr.contains "ub" (c_local_name c)); [|discriminate].
      intros H. inversion H. eexists. reflexivity.
  - intros H. inversion H. eexists. reflexivity.
Qed.

Lemma scan_slacks_appends (E : Env) (tolerance : Q) (mm : Modified)
  (vs : list Slack) :
  forall fixed flt msg r,
    scan_slacks E tolerance mm vs fixed flt msg = Ok r ->
    (exists f, sc_filter r = (flt ++ f)%list) /\
    (exists g, sc_fixed r = (fixed ++ g)%list) /\
    (exists m, sc_msg r = msg ++ m).
Proof.
  induction vs as [|v vs IH]; intros fixed flt msg r; simpl.
  - intros H. inversion H. simpl.
    split; [exists []; rewrite app_nil_r; reflexivity|].
    split; [exists []; rewrite app_nil_r; reflexivity|].
    exists EmptyString. rewrite str_app_nil_r. reflexivity.
  - destruct (Qgtb (s_value v) tolerance).
    + destruct (_get_constraint mm v) as [constr|] eqn:G; [|discriminate].
      simpl. destruct (render_with_value E constr (s_value v) msg)
        as [msg1|] eqn:R; [|discriminate].
      simpl. destruct (scan_slacks E tolerance mm vs _ _ msg1)
        as [r1|] eqn:S1; [|discriminate].
      simpl. intros H. inversion H. subst r. simpl.
      destruct (IH _ _ _ _ S1) as [[f Hf] [[g Hg] [m Hm]]].
      destruct (render_with_value_appends _ _ _ _ _ R) as [line Hl].
      split; [|split].
      * rewrite Hf. unfold con_add. destruct (con_mem constr flt).
        -- exists f. reflexivity.
        -- exists (constr :: f). rewrite <- app_assoc. reflexivity.
      * rewrite Hg. unfold set_add. destruct (PyStr.mem (s_name v) fixed).
        -- exists g. reflexivity.
        -- exists (s_name v :: g). rewrite <- app_assoc. reflexivity.
      * rewrite Hm, Hl. exists (line ++ m). apply str_app_assoc.
    + destruct (scan_slacks E tolerance mm vs fixed flt msg)
        as [r1|] eqn:S1; [|discriminate].
      simpl. intros H. inversion H. subst r. simpl.
      exact (IH _ _ _ _ S1).
Qed.

Lemma extends_refl (st : Loop) : extends st st.
Proof.
  split; [exists []; rewrite app_nil_r; reflexivity|].
  split; [exists []; rewrite app_nil_r; reflexivity|].
  exists EmptyString. rewrite str_app_nil_r. reflexivity.
Qed.

Lemma extends_trans (a b c : Loop) : extends a b -> extends b c -> extends a c.
Proof.
  intros [[f1 F1] [[g1 G1] [m1 M1]]] [[f2 F2] [[g2 G2] [m2 M2]]].
  split; [exists (f1 ++ f2)%list; rewrite F2, F1, app_assoc; reflexivity|].
  split; [exists (g1 ++ g2)%list; rewrite G2, G1, app_assoc; reflexivity|].
  exists (m1 ++ m2). rewrite M2, M1. apply str_app_assoc.
Qed.

Lemma _constraint_generator_appends (E : Env) (tolerance : Q) (name : string)
  (st st1 : Loop) :
  _constraint_generator E tolerance name st = Ok st1 -> extends st st1.
Proof.
  unfold _constraint_generator.
  destruct (scan_slacks E tolerance (l_mm st) _ _ _ _) as [r|] eqn:S;
    [|discriminate].
  simpl. destruct (Nat.eqb _ _); [discriminate|].
  intros H. inversion H. subst. unfold extends. simpl.
  exact (scan_slacks_appends _ _ _ _ _ _ _ _ S).
Qed.

Lemma constraint_rounds_appends (E : Env) (tolerance : Q) (name : string)
  (cache : list (string * option Q)) (things : string) :
  forall budget st w w' st',
    constraint_rounds E tolerance name cache things budget st w
      = (w', Ok st') ->
    extends st st'.
Proof.
  induction budget as [|k IH]; intros st w w' st'; [discriminate|].
  rewrite constraint_rounds_eq.
  destruct (_constraint_generator E tolerance name st) as [st1|] eqn:G;
    [|discriminate].
  pose proof (_constraint_generator_appends _ _ _ _ _ G) as X1.
  cbv zeta.
  destruct (fst (solve E (w_writer w) (reset_values cache (l_mm st1))))
    as [[|]|]; [| |discriminate].
  - intros H. apply IH in H. apply (extends_trans _ _ _ X1).
    apply (fun X => extends_trans _ _ _ X H).
    split; [exists []; simpl; rewrite app_nil_r; reflexivity|].
    split; [exists []; simpl; rewrite app_nil_r; reflexivity|].
    eexists. reflexivity.
  - intros H. inversion H. subst.
    destruct X1 as [F [G' M]]. split; [exact F|]. split; [exact G'|exact M].
Qed.

(** X9: a phase of the relaxation driver only appends: the elastic filter,
    the set of fixed slacks and the message it returns are those it was
    given, in the same order, with what the phase found at their end. *)
Theorem phase_only_appends (E : Env) (tolerance : Q) (name : string)
  (cache : list (string * option Q)) (things : string) (st st' : Loop)
  (w w' : World) :
  relax_phase E tolerance name cache things st w = (w', Ok st') ->
  extends st st'.
Proof.
  rewrite relax_phase_eq. cbv zeta.
  destruct (fst (solve E (w_writer w) (l_mm st))) as [[|]|];
    [| |discriminate].
  - unfold _constraint_loop. intros H.
    apply constraint_rounds_appends in H.
    destruct H as [[f F] [[g G] [m M]]]. simpl in F, G, M.
    split; [exists f; exact F|]. split; [exists g; exact G|].
    destruct (String.eqb (l_msg st) EmptyString).
    + eexists. rewrite M. rewrite !str_app_assoc. reflexivity.
    + eexists. rewrite M. rewrite !str_app_assoc. reflexivity.
  - intros H. inversion H. subst. unfold extends. simpl.
    split; [exists []; rewrite app_nil_r; reflexivity|].
    split; [exists []; rewrite app_nil_r; reflexivity|].
    exists EmptyString. rewrite str_app_nil_r. reflexivity.
Qed.

Lemma phase_only_appends_witness :
  relax_phase clash_solver tolerance_default "clash" [("x", Some 0%Q)]
    "variable bounds" (mkLoop (elastic_of clash) [] [] EmptyString)
    (mkWorld clash nl_v2 []) =
    clash_phase_one /\
  exists w' st',
    clash_phase_one = (w', Ok st') /\
    l_filter st' = [clash_lb; clash_ub] /\
    extends (mkLoop (elastic_of clash) [] [] EmptyString) st'.
Proof.
  assert (H : relax_phase clash_solver tolerance_default "clash"
                [("x", Some 0%Q)] "variable bounds"
                (mkLoop (elastic_of clash) [] [] EmptyString)
                (mkWorld clash nl_v2 []) = clash_phase_one)
    by (vm_compute; reflexivity).
  split; [exact H|].
  eexists. eexists. split; [reflexivity|]. split; [reflexivity|].
  exact (phase_only_appends _ _ _ _ _ _ _ _ _ H).
Defined.

(** ** What the reports say *)

Lemma render_with_value_lower_bound (E : Env) (v : Var) (l value : Q)
  (msg : string) :
  render_with_value E (bound_constraint "lb_for_" v (Some l) None) value msg =
  Ok (msg ++ tab ++ "lb of var " ++ v_name v ++ " by " ++ repr E value
          ++ newline).
Proof. reflexivity. Qed.

Lemma render_with_value_upper_bound (E : Env) (v : Var) (u value : Q)
  (msg : string) :
  render_with_value E (bound_constraint "ub_for_" v None (Some u)) value msg =
  Ok (msg ++ tab
        ++ (if PyStr.contains "lb" (v_name v) then "lb" else "ub")
        ++ " of var " ++ v_name v ++ " by " ++ repr E value ++ newline).
Proof.
  unfold render_with_value, bound_constraint. cbn [c_name c_local_name].
  change (PyStr.contains "_variable_bounds"
            ("_variable_bounds." ++ "ub_for_" ++ v_name v)) with true.
  change (PyStr.contains "lb" ("ub_for_" ++ v_name v))
    with (PyStr.contains "lb" (v_name v)).
  destruct (PyStr.contains "lb" (v_name v)); reflexivity.
Qed.

(** X10: the constraint added for the lower bound of a variable is reported
    as "lb of var <name>", with the full name of the variable, by both
    helpers and whatever the name is. *)
Theorem lower_bound_is_reported_as_lower (E : Env) (v : Var) (l value : Q)
  (msg : string) :
  _get_results [bound_constraint "lb_for_" v (Some l) None] (Some msg) =
    Ok (msg ++ tab ++ "lb of var " ++ v_name v ++ newline) /\
  _get_results_with_value E
    [(bound_constraint "lb_for_" v (Some l) None, value)] (Some msg) =
    Ok (msg ++ tab ++ "lb of var " ++ v_name v ++ " by " ++ repr E value
            ++ newline).
Proof.
  unfold _get_results, _get_results_with_value. simpl default_msg.
  cbn [render_all render_all_with_value].
  rewrite render_lower_bound, render_with_value_lower_bound.
  split; reflexivity.
Qed.

(** X11: the constraint added for the upper bound of a variable is reported
    as "ub of var <name>" exactly when [lb] does not occur in the name of the
    variable; when it does, both helpers write "lb of var <name>". *)
Theorem upper_bound_report_depends_on_name (E : Env) (v : Var) (u value : Q)
  (msg : string) :
  let kind := if PyStr.contains "lb" (v_name v) then "lb" else "ub" in
  _get_results [bound_constraint "ub_for_" v None (Some u)] (Some msg) =
    Ok (msg ++ tab ++ kind ++ " of var " ++ v_name v ++ newline) /\
  _get_results_with_value E
    [(bound_constraint "ub_for_" v None (Some u), value)] (Some msg) =
    Ok (msg ++ tab ++ kind ++ " of var " ++ v_name v ++ " by "
            ++ repr E value ++ newline).
Proof.
  cbv zeta. unfold _get_results, _get_results_with_value. simpl default_msg.
  cbn [render_all render_all_with_value].
  rewrite render_upper_bound, render_with_value_upper_bound.
  split; reflexivity.
Qed.

Lemma render_shape (c : Con) :
  (exists line, forall msg, render c msg = Ok (msg ++ line)) \/
  (forall msg, render c msg = Raise (RuntimeError "unrecongized var name")).
Proof.
  unfold render.
  destruct (PyStr.contains "_variable_bounds" (c_name c)).
  - destruct (PyStr.contains "lb" (c_local_name c)).
    + left. eexists. intros msg. reflexivity.
    + destruct (PyStr.contains "ub" (c_local_name c)).
      * left. eexists. intros msg. reflexivity.
      * right. reflexivity.
  - left. eexists. intros msg. reflexivity.
Qed.

Lemma render_all_shape (l : list Con) :
  (exists lines, forall msg, render_all l msg = Ok (msg ++ lines)) \/
  (forall msg, render_all l msg =
               Raise (RuntimeError "unrecongized var name")).
Proof.
  induction l as [|c l IH]; simpl.
  - left. exists EmptyString. intros msg. rewrite str_app_nil_r. reflexivity.
  - destruct (render_shape c) as [[line Hl]|Hr].
    + destruct IH as [[lines Hs]|Hs].
      * left. exists (line ++ lines). intros msg.
        rewrite Hl. simpl. rewrite Hs, str_app_assoc. reflexivity.
      * right. intros msg. rewrite Hl. simpl. apply Hs.
    + right. intros msg. rewrite Hr. reflexivity.
Qed.

Lemma render_all_app (l1 l2 : list Con) :
  forall msg,
    render_all (l1 ++ l2) msg =
    bind (render_all l1 msg) (fun m => render_all l2 m).
Proof.
  induction l1 as [|c l1 IH]; intros msg; simpl; [reflexivity|].
  destruct (render c msg) as [m1|e]; simpl; [apply IH | reflexivity].
Qed.

(** X12: [_get_results] only appends to the message: for a list of
    constraints either there is one text that is put after any message given,
    or the call raises "unrecongized var name" for every message; and the
    report of two lists in a row is the report of the first followed by the
    report of the second. *)
Theorem get_results_appends (l1 l2 : list Con) :
  ((exists lines,
      forall msg, _get_results l1 msg = Ok (default_msg msg ++ lines)) \/
   (forall msg, _get_results l1 msg =
                Raise (RuntimeError "unrecongized var name"))) /\
  forall msg,
    _get_results (l1 ++ l2) msg =
    bind (_get_results l1 msg) (fun m => _get_results l2 (Some m)).
Proof.
  split.
  - unfold _get_results. destruct (render_all_shape l1) as [[lines H]|H].
    + left. exists lines. intros msg. apply H.
    + right. intros msg. apply H.
  - intros msg. unfold _get_results. simpl. apply render_all_app.
Qed.

(** ** A scan that finds only known constraints *)

Lemma scan_slacks_known (E : Env) (tolerance : Q) (mm : Modified)
  (flt : list Con) (vs : list Slack) :
  (forall v c, In v vs -> exceeds tolerance v = true ->
               _get_constraint mm v = Ok c -> con_mem c flt = true) ->
  forall fixed msg r,
    scan_slacks E tolerance mm vs fixed flt msg = Ok r ->
    sc_filter r = flt.
Proof.
  induction vs as [|v vs IH]; intros Hk fixed msg r; simpl.
  - intros H. inversion H. reflexivity.
  - rewrite Qgtb_exceeds. destruct (exceeds tolerance v) eqn:X.
    + destruct (_get_constraint mm v) as [constr|] eqn:G; [|discriminate].
      simpl. destruct (render_with_value E constr (s_value v) msg)
        as [msg1|]; [|discriminate].
      simpl.
      assert (M : con_add constr flt = flt).
      { unfold con_add. rewrite (Hk v constr (or_introl eq_refl) X G).
        reflexivity. }
      rewrite M.
      destruct (scan_slacks E tolerance mm vs _ flt msg1) as [r1|] eqn:S1;
        [|discriminate].
      simpl. intros H. inversion H. subst r. simpl.
      apply (IH (fun u c Hu => Hk u c (or_intror Hu)) _ _ _ S1).
    + destruct (scan_slacks E tolerance mm vs fixed flt msg) as [r1|] eqn:S1;
        [|discriminate].
      simpl. intros H. inversion H. subst r. simpl.
      apply (IH (fun u c Hu => Hk u c (or_intror Hu)) _ _ _ S1).
Qed.

(** X13: feasibility is declared by the size of the elastic filter alone:
    when every slack above the tolerance belongs to a constraint that is
    already in the filter, the scan fixes and reports those slacks and the
    generator then raises "Found model <name> to be feasible!", although
    constraints had to be relaxed. *)
Theorem known_relaxations_read_as_feasible (E : Env) (tolerance : Q)
  (name : string) (st : Loop) (r : Scan) :
  scan_slacks E tolerance (l_mm st) (mm_slacks (l_mm st)) (l_fixed st)
    (l_filter st) (l_msg st) = Ok r ->
  (forall v c, In v (mm_slacks (l_mm st)) -> exceeds tolerance v = true ->
               _get_constraint (l_mm st) v = Ok c ->
               con_mem c (l_filter st) = true) ->
  _constraint_generator E tolerance name st =
  Raise (Exception ("Found model " ++ name ++ " to be feasible!")).
Proof.
  intros S Hk. unfold _constraint_generator. rewrite S. simpl.
  rewrite (scan_slacks_known E tolerance (l_mm st) (l_filter st) _ Hk _ _ _ S).
  rewrite Nat.eqb_refl. reflexivity.
Qed.

Lemma known_relaxations_read_as_feasible_witness :
  exists r,
    scan_slacks always_optimal tolerance_default (l_mm tank_second_round)
      (mm_slacks (l_mm tank_second_round)) (l_fixed tank_second_round)
      (l_filter tank_second_round) (l_msg tank_second_round) = Ok r /\
    existsb (exceeds tolerance_default)
      (mm_slacks (l_mm tank_second_round)) = true /\
    _constraint_generator always_optimal tolerance_default "tank"
      tank_second_round =
    Raise (Exception "Found model tank to be feasible!").
Proof.
  eexists. split; [reflexivity|]. split; [reflexivity|].
  apply (known_relaxations_read_as_feasible always_optimal tolerance_default
           "tank" tank_second_round _ eq_refl).
  intros v c Hv X G. simpl in Hv.
  destruct Hv as [Hv|[Hv|[]]]; subst v.
  - discriminate X.
  - vm_compute in G. inversion G. reflexivity.
Defined.

(** ** What the deletion filter leaves active *)

Lemma named_app (n : string) (l1 l2 : list Con) :
  named n (l1 ++ l2) = named n l1 || named n l2.
Proof. unfold named. apply existsb_app. Qed.

Lemma is_active_deletion_setup (flt : list Con) (mm : Modified) (n : string) :
  named n flt = false -> is_active (deletion_setup flt mm) n = false.
Proof.
  intros Hn. unfold is_active. apply not_true_iff_false. intros T.
  apply existsb_exists in T. destruct T as [c [Hc Ha]].
  apply andb_true_iff in Ha. destruct Ha as [En Ac].
  apply String.eqb_eq in En.
  destruct (in_all_cons_deletion_setup _ _ _ Hc) as [c0 [_ Ec]].
  destruct (con_mem c0 flt) eqn:M0; subst c.
  - change (named (c_name c0) flt = true) in M0. congruence.
  - simpl in Ac. discriminate.
Qed.

(** After a sweep a member is active exactly when it was reported, and the
    constraints that are not members are as they were. *)
Lemma deletion_sweep_active (E : Env) (cache : list (string * option Q))
  (members : list Con) :
  NoDup (map c_name members) ->
  forall st w,
    (forall d, In d members -> declared (sw_mm st) (c_name d) = true) ->
    (forall d, In d members -> named (c_name d) (reported st) = false) ->
    exists w' st',
      deletion_sweep E cache members st w = (w', Ok st') /\
      (forall n, ~ In n (map c_name members) ->
         is_active (sw_mm st') n = is_active (sw_mm st) n /\
         named n (reported st') = named n (reported st)) /\
      (forall n, In n (map c_name members) ->
         is_active (sw_mm st') n = named n (reported st')) /\
      (forall n, declared (sw_mm st') n = declared (sw_mm st) n).
Proof.
  induction members as [|d members IH]; intros ND st w Hdecl Hfresh.
  - exists w, st. simpl. unfold ret. split; [reflexivity|].
    split; [tauto|]. split; [intros n []|reflexivity].
  - simpl in ND. inversion ND as [|? ? Hd ND']; subst.
    simpl. unfold bindM. rewrite deletion_test_eq. cbv zeta.
    set (tested := reset_values cache (deactivate (c_name d) (sw_mm st))).
    set (sol := snd (solve E (w_writer w) tested)).
    set (st1 := match fst (solve E (w_writer w) tested) with
                | None => _ | Some Optimal => _ | Some NonOptimal => _ end).
    assert (Dd : declared (load sol tested) (c_name d) = true).
    { change (declared (deactivate (c_name d) (sw_mm st)) (c_name d) = true).
      unfold deactivate. rewrite declared_set_active_named.
      apply Hdecl. left. reflexivity. }
    assert (Off : is_active (load sol tested) (c_name d) = false).
    { change (is_active (deactivate (c_name d) (sw_mm st)) (c_name d)
              = false).
      unfold deactivate. rewrite is_active_same. reflexivity. }
    assert (On : is_active (activate (c_name d) (load sol tested)) (c_name d)
                 = true).
    { unfold activate. rewrite is_active_same, Dd. reflexivity. }
    assert (Fd : named (c_name d) (reported st) = false)
      by (apply Hfresh; left; reflexivity).
    assert (H1 : (forall n, n <> c_name d ->
                    is_active (sw_mm st1) n = is_active (sw_mm st) n /\
                    named n (reported st1) = named n (reported st)) /\
                 is_active (sw_mm st1) (c_name d)
                   = named (c_name d) (reported st1) /\
                 (forall n, declared (sw_mm st1) n = declared (sw_mm st) n)).
    { assert (Oth : forall n b, n <> c_name d ->
                is_active (set_active_named b (c_name d) (load sol tested)) n
                = is_active (sw_mm st) n).
      { intros n b Hn. rewrite is_active_other by exact Hn.
        change (is_active (deactivate (c_name d) (sw_mm st)) n
                = is_active (sw_mm st) n).
        unfold deactivate. apply is_active_other. exact Hn. }
      assert (Oth0 : forall n, n <> c_name d ->
                is_active (load sol tested) n = is_active (sw_mm st) n).
      { intros n Hn.
        change (is_active (deactivate (c_name d) (sw_mm st)) n
                = is_active (sw_mm st) n).
        unfold deactivate. apply is_active_other. exact Hn. }
      assert (Dec : forall n b,
                declared (set_active_named b (c_name d) (load sol tested)) n
                = declared (sw_mm st) n).
      { intros n b. rewrite declared_set_active_named.
        change (declared (deactivate (c_name d) (sw_mm st)) n
                = declared (sw_mm st) n).
        unfold deactivate. apply declared_set_active_named. }
      assert (Dec0 : forall n,
                declared (load sol tested) n = declared (sw_mm st) n).
      { intros n.
        change (declared (deactivate (c_name d) (sw_mm st)) n
                = declared (sw_mm st) n).
        unfold deactivate. apply declared_set_active_named. }
      assert (Nd : forall n, n <> c_name d -> named n [d] = false).
      { intros n Hn. unfold named. simpl. rewrite orb_false_r.
        apply String.eqb_neq. intros Q. apply Hn. symmetry. exact Q. }
      assert (Nd1 : named (c_name d) [d] = true).
      { unfold named. simpl. rewrite String.eqb_refl. reflexivity. }
      unfold reported in *. rewrite named_app in Fd.
      apply orb_false_iff in Fd. destruct Fd as [Fd1 Fd2].
      unfold st1.
      destruct (fst (solve E (w_writer w) tested)) as [[|]|]; simpl;
        unfold activate.
      - split; [|split; [|intros n; exact (Dec n true)]].
        + intros n Hn. split; [exact (Oth n true Hn)|].
          rewrite !named_app, (Nd n Hn), orb_false_r. reflexivity.
        + rewrite !named_app, Nd1, orb_true_r. simpl. exact On.
      - split; [|split; [|exact Dec0]].
        + intros n Hn. split; [exact (Oth0 n Hn) | reflexivity].
        + rewrite named_app, Fd1, Fd2. exact Off.
      - split; [|split; [|intros n; exact (Dec n true)]].
        + intros n Hn. split; [exact (Oth n true Hn)|].
          rewrite !named_app, (Nd n Hn), orb_false_r. reflexivity.
        + rewrite !named_app, Nd1, !orb_true_r. exact On. }
    destruct H1 as [Hoth [Hd1 Hdec1]].
    assert (Hneq : forall e, In e members -> c_name e <> c_name d).
    { intros e He Q. apply Hd. rewrite <- Q. apply in_map. exact He. }
    destruct (IH ND' st1 (emit SolveModified w)) as [w' [st' [Hs [Ho [Hi Hde]]]]].
    + intros e He. rewrite Hdec1. apply Hdecl. right. exact He.
    + intros e He. rewrite (proj2 (Hoth _ (Hneq e He))).
      apply Hfresh. right. exact He.
    + exists w', st'. split; [exact Hs|]. split; [|split].
      * intros n Hn.
        assert (Hn1 : n <> c_name d) by (intros Q; apply Hn; left; symmetry; exact Q).
        assert (Hn2 : ~ In n (map c_name members)) by (intros I; apply Hn; right; exact I).
        destruct (Ho n Hn2) as [A B]. destruct (Hoth n Hn1) as [A1 B1].
        split; congruence.
      * intros n [Hn|Hn].
        -- subst n. destruct (Ho (c_name d) Hd) as [A B]. congruence.
        -- apply Hi. exact Hn.
      * intros n. rewrite Hde. apply Hdec1.
Qed.

Lemma declared_names (mm : Modified) (n : string) :
  declared mm n = existsb (fun m => String.eqb m n) (map c_name (all_cons mm)).
Proof.
  unfold declared. induction (all_cons mm) as [|c l IH]; simpl;
    [reflexivity | rewrite IH; reflexivity].
Qed.

Lemma declared_deletion_setup (flt : list Con) (mm : Modified) (n : string) :
  declared (deletion_setup flt mm) n = declared mm n.
Proof.
  rewrite !declared_names. f_equal.
  unfold all_cons, deletion_setup. simpl.
  rewrite <- map_app, map_map. apply map_ext. intros c.
  destruct (con_mem c flt); reflexivity.
Qed.

(** X14: once the deletion filter has set the clone up and swept a filter of
    distinct constraints of the clone, a constraint is active exactly when it
    is in the reported MIS or among the guards: every other constraint of the
    clone, member of the filter or not, is inactive. *)
Theorem sweep_leaves_active_what_it_reports (E : Env)
  (cache : list (string * option Q)) (flt : list Con) (mm : Modified)
  (sol : solution) (w : World) :
  NoDup (map c_name flt) ->
  (forall c, In c flt -> declared mm (c_name c) = true) ->
  exists w' st',
    deletion_sweep E cache flt
      (mkSweep (load sol (deletion_setup flt mm)) [] []) w = (w', Ok st') /\
    forall n, is_active (sw_mm st') n =
              named n (sw_deletion_filter st' ++ sw_guards st').
Proof.
  intros ND Hd.
  destruct (deletion_sweep_active E cache flt ND
              (mkSweep (load sol (deletion_setup flt mm)) [] []) w)
    as [w' [st' [Hs [Ho [Hi _]]]]].
  - intros d Hin. simpl.
    change (declared (deletion_setup flt mm) (c_name d) = true).
    rewrite declared_deletion_setup. apply Hd. exact Hin.
  - intros d _. reflexivity.
  - exists w', st'. split; [exact Hs|]. intros n.
    destruct (in_dec string_dec n (map c_name flt)) as [I|I].
    + exact (Hi n I).
    + destruct (Ho n I) as [A B]. unfold reported in B. simpl in A, B.
      rewrite B, A.
      change (is_active (deletion_setup flt mm) n = false).
      apply is_active_deletion_setup.
      unfold named. apply not_true_iff_false. intros T.
      apply existsb_exists in T. destruct T as [c [Hc En]].
      apply String.eqb_eq in En. apply I. rewrite <- En.
      apply in_map. exact Hc.
Qed.

Lemma sweep_leaves_active_what_it_reports_witness :
  NoDup (map c_name [clash_lb; clash_ub]) /\
  (forall c, In c [clash_lb; clash_ub] ->
             declared (elastic_of clash) (c_name c) = true) /\
  exists w' st',
    deletion_sweep clash_solver [("x", Some 0%Q)] [clash_lb; clash_ub]
      (mkSweep (load no_solution
                  (deletion_setup [clash_lb; clash_ub] (elastic_of clash)))
         [] []) (mkWorld clash nl_v1 []) = (w', Ok st') /\
    forall n, is_active (sw_mm st') n =
              named n (sw_deletion_filter st' ++ sw_guards st').
Proof.
  assert (ND : NoDup (map c_name [clash_lb; clash_ub])).
  { simpl. repeat constructor; simpl; intuition discriminate. }
  assert (Hd : forall c, In c [clash_lb; clash_ub] ->
                 declared (elastic_of clash) (c_name c) = true).
  { intros c [Hc|[Hc|[]]]; subst c; reflexivity. }
  split; [exact ND|]. split; [exact Hd|].
  exact (sweep_leaves_active_what_it_reports clash_solver [("x", Some 0%Q)]
           [clash_lb; clash_ub] (elastic_of clash) no_solution
           (mkWorld clash nl_v1 []) ND Hd).
Defined.

(** X15: with an empty elastic filter the deletion filter deactivates every
    constraint of the clone and tests nothing: when its one solve is not
    optimal it announces a computed MIS whose list of members and list of
    guards are both empty. *)
Theorem empty_filter_gives_empty_mis (E : Env)
  (cache : list (string * option Q)) (mm : Modified) (fixed : list string)
  (msg : string) (w : World) :
  fst (solve E nl_v1 (deletion_setup [] mm)) = Some NonOptimal ->
  (forall c, In c (all_cons (deletion_setup [] mm)) -> c_active c = false) /\
  deletion_filter_phase E cache (mkLoop mm fixed [] msg) w =
  (mkWorld (w_model w) _default_nl_writer
     (w_log w ++ [Register nl_v1; SolveModified;
                  Register _default_nl_writer])%list,
   Ok (msg ++ "Computed Minimal Intractable System (MIS)!" ++ newline
           ++ "Constraints / bounds in MIS:" ++ newline
           ++ "Constraints / bounds in guards for stability:")).
Proof.
  intros Hs. split.
  - intros c Hc.
    destruct (in_all_cons_deletion_setup _ _ _ Hc) as [c0 [_ Ec]].
    simpl in Ec. subst c. reflexivity.
  - unfold deletion_filter_phase, bindM, register, try_solve. simpl.
    destruct (solve E nl_v1 (deletion_setup [] mm)) as [r sol].
    simpl in Hs. subst r. simpl. unfold ret, emit, lift, _get_results. simpl.
    rewrite <- !app_assoc. simpl. rewrite !str_app_assoc. reflexivity.
Qed.

Lemma empty_filter_gives_empty_mis_witness :
  fst (solve never_converges nl_v1 (deletion_setup [] (elastic_of clash))) =
    Some NonOptimal /\
  snd (deletion_filter_phase never_converges [] 
         (mkLoop (elastic_of clash) [] [] "start:") (mkWorld clash nl_v2 [])) =
  Ok ("start:" ++ "Computed Minimal Intractable System (MIS)!" ++ newline
        ++ "Constraints / bounds in MIS:" ++ newline
        ++ "Constraints / bounds in guards for stability:").
Proof.
  split; [reflexivity|].
  rewrite (proj2 (empty_filter_gives_empty_mis never_converges []
                    (elastic_of clash) [] "start:" (mkWorld clash nl_v2 [])
                    eq_refl)).
  reflexivity.
Defined.

(** ** Recorded slacks stay fixed *)

Lemma load_slack_name (sol : solution) (s : Slack) :
  s_name (load_slack sol s) = s_name s.
Proof.
  unfold load_slack. destruct (s_fixed s); [reflexivity|].
  destruct (sol (slack_name s)); reflexivity.
Qed.

Lemma fixed_at_zero_load (sol : solution) (fixed : list string)
  (ss : list Slack) :
  fixed_at_zero fixed ss -> fixed_at_zero fixed (map (load_slack sol) ss).
Proof.
  intros H s' Hs' Hn. apply in_map_iff in Hs'. destruct Hs' as [s [Es Hs]].
  subst s'. rewrite load_slack_name in Hn.
  destruct (H s Hs Hn) as [Hf Hv].
  unfold load_slack. rewrite Hf. split; assumption.
Qed.

Lemma scan_slacks_keeps_fixed (E : Env) (tolerance : Q) (mm : Modified)
  (vs : list Slack) :
  NoDup (map s_name vs) ->
  forall fixed flt msg r,
    scan_slacks E tolerance mm vs fixed flt msg = Ok r ->
    fixed_at_zero fixed vs ->
    map s_name (sc_slacks r) = map s_name vs /\
    (forall n, In n (sc_fixed r) -> In n fixed \/ In n (map s_name vs)) /\
    fixed_at_zero (sc_fixed r) (sc_slacks r).
Proof.
  induction vs as [|v vs IH]; intros ND fixed flt msg r; simpl.
  - intros H _. inversion H. simpl.
    split; [reflexivity|]. split; [tauto|]. intros s [].
  - simpl in ND. inversion ND as [|? ? Hv ND']; subst.
    destruct (Qgtb (s_value v) tolerance).
    + destruct (_get_constraint mm v) as [constr|]; [|discriminate].
      simpl. destruct (render_with_value E constr (s_value v) msg)
        as [msg1|]; [|discriminate].
      simpl. destruct (scan_slacks E tolerance mm vs _ _ msg1)
        as [r1|] eqn:S1; [|discriminate].
      simpl. intros H F. inversion H. subst r. simpl.
      destruct (IH ND' _ _ _ _ S1) as [Hn [Hi Hz]].
      { intros s Hs Hin. apply set_add_In in Hin. destruct Hin as [Hin|Hin].
        - apply F; [right; exact Hs | exact Hin].
        - exfalso. apply Hv. rewrite <- Hin. apply in_map. exact Hs. }
      split; [rewrite Hn; reflexivity|]. split.
      * intros n Hin. destruct (Hi n Hin) as [Hf|Hf].
        -- apply set_add_In in Hf. destruct Hf as [Hf|Hf]; [tauto|].
           right. left. symmetry. exact Hf.
        -- right. right. exact Hf.
      * intros s [Hs|Hs] Hin.
        -- subst s. split; reflexivity.
        -- apply Hz; assumption.
    + destruct (scan_slacks E tolerance mm vs fixed flt msg)
        as [r1|] eqn:S1; [|discriminate].
      simpl. intros H F. inversion H. subst r. simpl.
      destruct (IH ND' _ _ _ _ S1) as [Hn [Hi Hz]].
      { intros s Hs Hin. apply F; [right; exact Hs | exact Hin]. }
      split; [rewrite Hn; reflexivity|]. split.
      * intros n Hin. destruct (Hi n Hin) as [Hf|Hf]; [tauto|].
        right. right. exact Hf.
      * intros s [Hs|Hs] Hin.
        -- subst s. destruct (Hi _ Hin) as [Hf|Hf].
           ++ apply F; [left; reflexivity | exact Hf].
           ++ exfalso. exact (Hv Hf).
        -- apply Hz; assumption.
Qed.

Lemma unfix_inequalities_keeps_fixed (mm : Modified) (fixed : list string)
  (vs : list Slack) :
  forall r,
    unfix_inequalities mm fixed vs = Ok r ->
    map s_name r = map s_name vs /\
    (fixed_at_zero fixed vs -> fixed_at_zero fixed r).
Proof.
  induction vs as [|v vs IH]; intros r; simpl.
  - intros H. inversion H. split; [reflexivity|]. intros _ s [].
  - destruct (_get_constraint mm v) as [c|]; [|discriminate]. simpl.
    destruct (unfix_inequalities mm fixed vs) as [r1|]; [|discriminate].
    simpl. destruct (IH r1 eq_refl) as [Hn Hz].
    assert (Keep : forall x, Ok (v :: r1) = Ok x ->
              map s_name x = s_name v :: map s_name vs /\
              (fixed_at_zero fixed (v :: vs) -> fixed_at_zero fixed x)).
    { intros x H. inversion H. subst x. simpl. rewrite Hn.
      split; [reflexivity|]. intros F s [Hs|Hs] Hin.
      - subst s. apply F; [left; reflexivity | exact Hin].
      - apply Hz; [|exact Hs | exact Hin].
        intros u Hu. apply F. right. exact Hu. }
    destruct (c_equality c); [exact (Keep r)|].
    destruct (PyStr.mem (s_name v) fixed) eqn:M; simpl; [exact (Keep r)|].
    intros H. inversion H. subst r. simpl. rewrite Hn.
    split; [reflexivity|]. intros F s [Hs|Hs] Hin.
    + subst s. simpl in Hin. apply mem_In in Hin. congruence.
    + apply Hz; [|exact Hs | exact Hin].
      intros u Hu. apply F. right. exact Hu.
Qed.

Lemma unfix_remaining_keeps_fixed (fixed : list string) (vs : list Slack) :
  map s_name (unfix_remaining fixed vs) = map s_name vs /\
  (fixed_at_zero fixed vs -> fixed_at_zero fixed (unfix_remaining fixed vs)).
Proof.
  unfold unfix_remaining. split.
  - rewrite map_map. apply map_ext. intros v.
    destruct (negb (PyStr.mem (s_name v) fixed)); reflexivity.
  - intros F s Hs Hin. apply in_map_iff in Hs. destruct Hs as [v [Ev Hv]].
    destruct (PyStr.mem (s_name v) fixed) eqn:M; simpl in Ev; subst s.
    + apply F; assumption.
    + simpl in Hin. apply mem_In in Hin. congruence.
Qed.

Lemma load_slack_names (sol : solution) (ss : list Slack) :
  map s_name (map (load_slack sol) ss) = map s_name ss.
Proof.
  rewrite map_map. apply map_ext. intros s. apply load_slack_name.
Qed.

Lemma _constraint_generator_keeps_fixed (E : Env) (tolerance : Q)
  (name : string) (st st1 : Loop) :
  NoDup (map s_name (mm_slacks (l_mm st))) ->
  fixed_at_zero (l_fixed st) (mm_slacks (l_mm st)) ->
  _constraint_generator E tolerance name st = Ok st1 ->
  map s_name (mm_slacks (l_mm st1)) = map s_name (mm_slacks (l_mm st)) /\
  fixed_at_zero (l_fixed st1) (mm_slacks (l_mm st1)).
Proof.
  intros ND F. unfold _constraint_generator.
  destruct (scan_slacks E tolerance (l_mm st) _ _ _ _) as [r|] eqn:S;
    [|discriminate].
  simpl. destruct (Nat.eqb _ _); [discriminate|].
  intros H. inversion H. subst. simpl.
  destruct (scan_slacks_keeps_fixed E tolerance (l_mm st) _ ND _ _ _ _ S F)
    as [Hn [_ Hz]].
  split; assumption.
Qed.

Lemma constraint_rounds_keeps_fixed (E : Env) (tolerance : Q) (name : string)
  (cache : list (string * option Q)) (things : string) :
  forall budget st w w' st',
    NoDup (map s_name (mm_slacks (l_mm st))) ->
    fixed_at_zero (l_fixed st) (mm_slacks (l_mm st)) ->
    constraint_rounds E tolerance name cache things budget st w
      = (w', Ok st') ->
    map s_name (mm_slacks (l_mm st')) = map s_name (mm_slacks (l_mm st)) /\
    fixed_at_zero (l_fixed st') (mm_slacks (l_mm st')).
Proof.
  induction budget as [|k IH]; intros st w w' st' ND F; [discriminate|].
  rewrite constraint_rounds_eq.
  destruct (_constraint_generator E tolerance name st) as [st1|] eqn:G;
    [|discriminate].
  destruct (_constraint_generator_keeps_fixed _ _ _ _ _ ND F G) as [Hn Hz].
  cbv zeta.
  destruct (fst (solve E (w_writer w) (reset_values cache (l_mm st1))))
    as [[|]|]; [| |discriminate].
  - intros H. apply IH in H.
    + simpl in H. rewrite load_slack_names in H.
      destruct H as [Hn' Hz']. split; [congruence | exact Hz'].
    + simpl. rewrite load_slack_names, Hn. exact ND.
    + simpl. apply fixed_at_zero_load. exact Hz.
  - intros H. inversion H. subst. simpl.
    rewrite load_slack_names. split; [exact Hn|].
    apply fixed_at_zero_load. exact Hz.
Qed.

Lemma relax_phase_keeps_fixed (E : Env) (tolerance : Q) (name : string)
  (cache : list (string * option Q)) (things : string) (st st' : Loop)
  (w w' : World) :
  NoDup (map s_name (mm_slacks (l_mm st))) ->
  fixed_at_zero (l_fixed st) (mm_slacks (l_mm st)) ->
  relax_phase E tolerance name cache things st w = (w', Ok st') ->
  map s_name (mm_slacks (l_mm st')) = map s_name (mm_slacks (l_mm st)) /\
  fixed_at_zero (l_fixed st') (mm_slacks (l_mm st')).
Proof.
  intros ND F. rewrite relax_phase_eq. cbv zeta.
  destruct (fst (solve E (w_writer w) (l_mm st))) as [[|]|];
    [| |discriminate].
  - unfold _constraint_loop. intros H.
    apply constraint_rounds_keeps_fixed in H.
    + simpl in H. rewrite load_slack_names in H. exact H.
    + simpl. rewrite load_slack_names. exact ND.
    + simpl. apply fixed_at_zero_load. exact F.
  - intros H. inversion H. subst. simpl. rewrite load_slack_names.
    split; [reflexivity|]. apply fixed_at_zero_load. exact F.
Qed.

(** X16: a slack the constraint loop has recorded in [fixed_slacks] stays
    fixed at zero through the rest of the relaxation: no later solve moves
    it and neither of the two loops that free slacks for the next phase frees
    it.  When the three phases return, every recorded slack is fixed with
    value zero, and the slacks are those of the start, by name.  The slacks
    have distinct names. *)
Theorem recorded_slacks_stay_fixed (E : Env) (tolerance : Q) (name : string)
  (cache : list (string * option Q)) (mm : Modified) (w w' : World)
  (st3 : Loop) :
  NoDup (map s_name (mm_slacks mm)) ->
  relaxation_driver E tolerance name cache mm w = (w', Ok st3) ->
  map s_name (mm_slacks (l_mm st3)) = map s_name (mm_slacks mm) /\
  forall s, In s (mm_slacks (l_mm st3)) -> In (s_name s) (l_fixed st3) ->
            s_fixed s = true /\ s_value s = 0%Q.
Proof.
  intros ND. unfold relaxation_driver. rewrite bindM_unfold.
  destruct (relax_phase E tolerance name cache "variable bounds"
              (mkLoop mm [] [] EmptyString) w) as [w1 [st1|e1]] eqn:P1;
    [|discriminate].
  destruct (relax_phase_keeps_fixed E tolerance name cache "variable bounds"
              (mkLoop mm [] [] EmptyString) st1 w w1 ND
              (fun s _ (H : In (s_name s) []) => match H with end) P1)
    as [N1 Z1].
  simpl in N1. rewrite bindM_unfold. unfold lift.
  destruct (unfix_inequalities (l_mm st1) (l_fixed st1)
              (mm_slacks (l_mm st1))) as [ss|e] eqn:U; [|discriminate].
  destruct (unfix_inequalities_keeps_fixed _ _ _ _ U) as [N2 Z2].
  rewrite bindM_unfold.
  match goal with
  | |- context [relax_phase E tolerance name cache ?t ?s w1] =>
      destruct (relax_phase E tolerance name cache t s w1)
        as [w2 [st2|e2]] eqn:P2; [|discriminate]
  end.
  apply relax_phase_keeps_fixed in P2;
    [|simpl; rewrite N2, N1; exact ND | simpl; exact (Z2 Z1)].
  simpl in P2. destruct P2 as [N3 Z3].
  destruct (unfix_remaining_keeps_fixed (l_fixed st2) (mm_slacks (l_mm st2)))
    as [N4 Z4].
  intros P3. apply relax_phase_keeps_fixed in P3;
    [|simpl; rewrite N4, N3, N2, N1; exact ND | simpl; exact (Z4 Z3)].
  simpl in P3. destruct P3 as [N5 Z5].
  split; [congruence | exact Z5].
Qed.

Lemma recorded_slacks_stay_fixed_witness :
  NoDup (map s_name (mm_slacks (elastic_of clash))) /\
  exists w' st3,
    clash_driven = (w', Ok st3) /\
    l_fixed st3 = [plus_lb_x; minus_ub_x] /\
    forall s, In s (mm_slacks (l_mm st3)) -> In (s_name s) (l_fixed st3) ->
              s_fixed s = true /\ s_value s = 0%Q.
Proof.
  assert (ND : NoDup (map s_name (mm_slacks (elastic_of clash)))).
  { simpl. repeat constructor; simpl; intuition discriminate. }
  split; [exact ND|].
  eexists. eexists. split; [reflexivity|]. split; [reflexivity|].
  assert (H : relaxation_driver clash_solver tolerance_default "clash"
                [("x", Some 0%Q)] (elastic_of clash)
                (mkWorld clash nl_v2 []) = clash_driven)
    by (vm_compute; reflexivity).
  exact (proj2 (recorded_slacks_stay_fixed _ _ _ _ _ _ _ _ ND H)).
Defined.

Lemma run_within_budget_witness :
  check_none clash_solver <> Raise OutOfBudget /\
  snd (compute_infeasibility_explanation clash_solver tolerance_default
         (mkWorld clash nl_v2 [])) <> Raise OutOfBudget.
Proof.
  assert (H : check_none clash_solver <> Raise OutOfBudget)
    by (simpl; discriminate).
  split; [exact H|].
  exact (run_within_budget clash_solver tolerance_default
           (mkWorld clash nl_v2 []) H).
Defined.

Lemma optimal_first_solve_keeps_model_witness :
  prepare (w_model (mkWorld clash nl_v2 [])) =
    Ok (elastic_of clash, [("x", Some 0%Q)]) /\
  fst (solve clash_solver nl_v2 (elastic_of clash)) = Some Optimal /\
  quiet (mkWorld clash nl_v2 [])
    (fst (compute_infeasibility_explanation clash_solver tolerance_default
            (mkWorld clash nl_v2 []))).
Proof.
  split; [reflexivity|]. split; [reflexivity|].
  exact (optimal_first_solve_keeps_model clash_solver tolerance_default
           (mkWorld clash nl_v2 []) (elastic_of clash) [("x", Some 0%Q)]
           eq_refl eq_refl).
Defined.

(** ** What a scan records *)






(** ** The solver wrapper of watertap/core/plugins/solvers.py *)

Import Solvers.

Lemma assoc_get_set_same {V : Type} (k : string) (v : V)
  (d : list (string * V)) :
  assoc_get k (assoc_set k v d) = Some v.
Proof.
  induction d as [|[k' v'] r IH]; simpl.
  - now rewrite String.eqb_refl.
  - destruct (String.eqb k' k) eqn:E; simpl.
    + now rewrite String.eqb_refl.
    + now rewrite E.
Qed.

Lemma assoc_get_set_other {V : Type} (k k' : string) (v : V)
  (d : list (string * V)) :
  k <> k' -> assoc_get k' (assoc_set k v d) = assoc_get k' d.
Proof.
  intros N. induction d as [|[k0 v0] r IH]; simpl.
  - destruct (String.eqb_spec k k'); [contradiction | reflexivity].
  - destruct (String.eqb_spec k0 k) as [->|N0]; simpl.
    + destruct (String.eqb_spec k k'); [contradiction | reflexivity].
    + destruct (String.eqb k0 k'); [reflexivity | exact IH].
Qed.

Lemma assoc_get_del_same {V : Type} (k : string) (d : list (string * V)) :
  assoc_get k (assoc_del k d) = None.
Proof.
  induction d as [|[k0 v0] r IH]; simpl; [reflexivity|].
  destruct (String.eqb k0 k) eqn:E; simpl; [exact IH|].
  now rewrite E.
Qed.

Lemma assoc_get_del_other {V : Type} (k k' : string)
  (d : list (string * V)) :
  k <> k' -> assoc_get k' (assoc_del k d) = assoc_get k' d.
Proof.
  intros N. induction d as [|[k0 v0] r IH]; simpl; [reflexivity|].
  destruct (String.eqb_spec k0 k) as [->|N0]; simpl.
  - destruct (String.eqb_spec k k'); [contradiction | exact IH].
  - destruct (String.eqb k0 k'); [reflexivity | exact IH].
Qed.

Lemma assoc_get_set_default (k k' : string) (v : value) (o : dict) :
  assoc_get k' (set_default k v o) =
  match assoc_get k' o with
  | Some x => Some x
  | None => if String.eqb k k' then Some v else None
  end.
Proof.
  unfold set_default, assoc_has.
  destruct (assoc_get k o) eqn:E.
  - destruct (assoc_get k' o) eqn:E'; [reflexivity|].
    destruct (String.eqb_spec k k') as [->|N]; [congruence | reflexivity].
  - destruct (String.eqb_spec k k') as [->|N].
    + now rewrite assoc_get_set_same, E.
    + rewrite (assoc_get_set_other _ _ _ _ N).
      now destruct (assoc_get k' o).
Qed.

Lemma watertap_defaults_lookup (o : dict) (k : string) :
  assoc_get k (watertap_defaults o) = overlay o default_values k.
Proof.
  unfold watertap_defaults, overlay.
  rewrite !assoc_get_set_default.
  destruct (assoc_get k o); [reflexivity|].
  unfold default_values, assoc_get.
  repeat match goal with
         | |- context [String.eqb ?a k] => destruct (String.eqb a k)
         end; reflexivity.
Qed.

Lemma get_option_frame (C : Callees) (n : string) (d : value) (st : State) :
  exists v l,
    _get_option C n d st =
    (v, mkState (assoc_del n (options st)) (_cleanup_needed st) (_tee st)
          (_scaling_cache st) (_model st) (factors st) (filtered st)
          (seen st) (out st ++ l)%list).
Proof.
  unfold _get_option, print, with_options.
  destruct (assoc_get n (options st)) as [[| | |]|]; simpl;
    try (destruct (_tee st); simpl;
         [eexists; eexists; reflexivity
         | eexists; exists []; rewrite app_nil_r; reflexivity]);
    eexists; exists []; rewrite app_nil_r; reflexivity.
Qed.

Lemma is_user_scaling_frame (C : Callees) (st : State) :
  exists l,
    _is_user_scaling C st =
    (user_scaling (options st),
     mkState (set_default "nlp_scaling_method" (VStr "user-scaling")
                (options st))
       (_cleanup_needed st) (_tee st) (_scaling_cache st) (_model st)
       (factors st) (filtered st) (seen st) (out st ++ l)%list).
Proof.
  unfold _is_user_scaling, user_scaling, print, with_options. simpl.
  rewrite assoc_get_set_default.
  destruct (assoc_get "nlp_scaling_method" (options st)) as [v|]; simpl.
  - destruct (is_str v "user-scaling").
    + exists []. now rewrite app_nil_r.
    + destruct (_tee st); simpl.
      * eexists. reflexivity.
      * exists []. now rewrite app_nil_r.
  - exists []. now rewrite app_nil_r.
Qed.

(** Reduce the projections of a solver object that is written out. *)
Ltac proj :=
  cbn [options _cleanup_needed _tee _scaling_cache _model factors filtered
       seen out fst snd print with_options with_factors].

Ltac proj_in H :=
  cbn [options _cleanup_needed _tee _scaling_cache _model factors filtered
       seen out fst snd print with_options with_factors] in H.

(** The shape of [_presolve] on the branch with user scaling. *)
Lemma presolve_user (C : Callees) (cons : list (string * bool)) (tee : bool)
  (st : State) :
  user_scaling (options st) = true ->
  exists a b c d l,
    _presolve C cons [ABlock] tee st =
    after_scaling C tee
      (snd (autoscale C a b c d (factors st)))
      (mkState
         (without_wrapper_options
            (set_default "nlp_scaling_method" (VStr "user-scaling")
               (watertap_defaults (options st))))
         true tee (Some (cache_of cons (factors st))) true
         (fst (autoscale C a b c d (factors st))) true (seen st)
         (out st ++ l)%list).
Proof.
  intros U. unfold _presolve.
  match goal with
  | |- context [_is_user_scaling C ?s] =>
      destruct (is_user_scaling_frame C s) as [l0 ->]
  end.
  proj.
  assert (U0 : user_scaling (watertap_defaults (options st)) = true).
  { unfold user_scaling in *. rewrite watertap_defaults_lookup.
    unfold overlay.
    destruct (assoc_get "nlp_scaling_method" (options st));
      [exact U | reflexivity]. }
  rewrite U0. simpl negb. cbv iota.
  proj.
  match goal with
  | |- context [_get_option C "nlp_scaling_max_gradient" ?dv ?s] =>
      destruct (get_option_frame C "nlp_scaling_max_gradient" dv s)
        as (a & l1 & ->)
  end.
  proj.
  match goal with
  | |- context [_get_option C "nlp_scaling_min_value" ?dv ?s] =>
      destruct (get_option_frame C "nlp_scaling_min_value" dv s)
        as (b & l2 & ->)
  end.
  proj.
  match goal with
  | |- context [_get_option C "ignore_variable_scaling" ?dv ?s] =>
      destruct (get_option_frame C "ignore_variable_scaling" dv s)
        as (c & l3 & ->)
  end.
  proj.
  match goal with
  | |- context [_get_option C "ignore_constraint_scaling" ?dv ?s] =>
      destruct (get_option_frame C "ignore_constraint_scaling" dv s)
        as (d & l4 & ->)
  end.
  proj.
  unfold _cache_scaling_factors, with_factors. proj.
  exists d, c, a, b.
  destruct tee; proj.
  - match goal with
    | |- context [autoscale C d c a b ?f] =>
        destruct (autoscale C d c a b f) as [f' r] eqn:E
    end.
    proj. eexists. unfold cache_of, without_wrapper_options.
    rewrite <- !app_assoc. reflexivity.
  - match goal with
    | |- context [autoscale C d c a b ?f] =>
        destruct (autoscale C d c a b f) as [f' r] eqn:E
    end.
    proj. eexists. unfold cache_of, without_wrapper_options.
    rewrite <- !app_assoc. reflexivity.
Qed.

Lemma put_back_same (f : list (string * Q)) (c : string) (s : option Q) :
  assoc_get c (put_back f (c, s)) = s.
Proof.
  unfold put_back. simpl. destruct s.
  - apply assoc_get_set_same.
  - apply assoc_get_del_same.
Qed.

Lemma put_back_other (f : list (string * Q)) (e : string * option Q)
  (c : string) :
  fst e <> c -> assoc_get c (put_back f e) = assoc_get c f.
Proof.
  intros N. unfold put_back. destruct (snd e).
  - now apply assoc_get_set_other.
  - now apply assoc_get_del_other.
Qed.

Lemma fold_put_back_out (cache : list (string * option Q)) :
  forall (f : list (string * Q)) (c : string),
    ~ In c (map fst cache) ->
    assoc_get c (fold_left put_back cache f) = assoc_get c f.
Proof.
  induction cache as [|e r IH]; intros f c N; simpl; [reflexivity|].
  rewrite IH.
  - apply put_back_other. intros E. apply N. left. exact E.
  - intros I. apply N. right. exact I.
Qed.

Lemma fold_put_back_in (cache : list (string * option Q)) :
  forall (f : list (string * Q)) (c : string) (s : option Q),
    (forall s', In (c, s') cache -> s' = s) ->
    In c (map fst cache) \/ assoc_get c f = s ->
    assoc_get c (fold_left put_back cache f) = s.
Proof.
  induction cache as [|[c0 s0] r IH]; intros f c s A H; simpl.
  - destruct H as [[]|H]. exact H.
  - apply IH.
    + intros s' I. apply A. right. exact I.
    + destruct (in_dec string_dec c (map fst r)) as [I|NI]; [left; exact I|].
      right. destruct (string_dec c0 c) as [->|N].
      * rewrite put_back_same. apply A. left. reflexivity.
      * rewrite put_back_other by exact N.
        destruct H as [[E|I]|H]; [contradiction | contradiction | exact H].
Qed.

(** Resetting from the cache of [f0] gives every active constraint the
    factor it has in [f0], and leaves the others as they are. *)
Lemma reset_from_cache (cons : list (string * bool))
  (f0 f : list (string * Q)) (c : string) :
  assoc_get c (fold_left put_back (cache_of cons f0) f) =
  if in_dec string_dec c (active_names cons)
  then assoc_get c f0 else assoc_get c f.
Proof.
  assert (M : map fst (cache_of cons f0) = active_names cons).
  { unfold cache_of. rewrite map_map. simpl. apply map_id. }
  destruct (in_dec string_dec c (active_names cons)) as [I|N].
  - apply fold_put_back_in.
    + intros s' J. unfold cache_of in J. apply in_map_iff in J.
      destruct J as (x & E & _). now inversion E.
    + left. now rewrite M.
  - apply fold_put_back_out. now rewrite M.
Qed.

Lemma cleanup_ready (cache : list (string * option Q)) (st : State) :
  ready cache st ->
  _cleanup st =
  (mkState (options st) true (_tee st) None false
     (fold_left put_back cache (factors st)) false (seen st) (out st), None).
Proof.
  intros (N & S & M). unfold _cleanup, _reset_scaling_factors.
  rewrite N, S. proj. rewrite M. reflexivity.
Qed.

Lemma keeps_refl (o : dict) : keeps o o.
Proof.
  repeat split; auto.
Qed.

Lemma keeps_alpha (o : dict) :
  keeps o (set_default "alpha_for_y" (VStr "bound-mult") o).
Proof.
  repeat split.
  - intros k v E. rewrite assoc_get_set_default, E. reflexivity.
  - intros k N. rewrite assoc_get_set_default.
    destruct (assoc_get k o); [reflexivity|].
    destruct (String.eqb_spec "alpha_for_y" k); [congruence | reflexivity].
  - intros E. right. rewrite assoc_get_set_default, E. reflexivity.
Qed.

(** What the end of [_presolve] leaves: Ipopt's own [_presolve] is called
    once; if it raises, the factors are reset from the cache. *)
Lemma write_problem_spec (C : Callees) (tee : bool) (nlp : option bool)
  (cache : list (string * option Q)) (st st' : State) (res : outcome unit) :
  ready cache st ->
  write_problem C tee nlp st = (st', res) ->
  exists o',
    keeps (options st) o' /\ seen st' = (seen st ++ [o'])%list /\
    res = match super_presolve C o' tee with
          | None => Done tt
          | Some e => Fails e
          end /\
    match res with
    | Done _ => factors st' = factors st /\ ready cache st'
    | Fails _ => factors st' = fold_left put_back cache (factors st)
    end.
Proof.
  intros R W. unfold write_problem in W.
  set (st1 := match nlp with
              | Some true =>
                  with_options (set_default "alpha_for_y" (VStr "bound-mult")
                                  (options st)) st
              | _ => st
              end) in W.
  assert (K : keeps (options st) (options st1)).
  { unfold st1. destruct nlp as [[|]|]; proj;
      [apply keeps_alpha | apply keeps_refl | apply keeps_refl]. }
  assert (F : factors st1 = factors st /\ seen st1 = seen st /\
              ready cache st1).
  { unfold st1. destruct nlp as [[|]|]; proj; repeat split; try apply R. }
  destruct F as (F1 & F2 & F3).
  exists (options st1). split; [exact K|].
  proj. 
  cbn [options] in W.
  destruct (super_presolve C (options st1) tee) as [e|] eqn:SP.
  - unfold cleanup_and_raise in W.
    rewrite (cleanup_ready cache) in W.
    + inversion W; subst; clear W. proj. rewrite F1, F2. auto.
    + destruct F3 as (A & B & D). repeat split; assumption.
  - inversion W; subst; clear W. proj. rewrite F2.
    destruct F3 as (A & B & D). repeat split; assumption.
Qed.

Lemma after_scaling_spec (C : Callees) (tee : bool) (r : scaled)
  (cache : list (string * option Q)) (st st' : State) (res : outcome unit) :
  ready cache st ->
  after_scaling C tee r st = (st', res) ->
  exists l,
    seen st' = (seen st ++ l)%list /\
    (l = [] \/ exists o', l = [o'] /\ keeps (options st) o') /\
    match res with
    | Done _ => l <> [] /\ factors st' = factors st /\ ready cache st'
    | Fails _ => factors st' = fold_left put_back cache (factors st)
    end.
Proof.
  intros R A. unfold after_scaling in A.
  assert (P : forall line, ready cache (print line st)).
  { intros line. destruct R as (X & Y & Z). repeat split; assumption. }
  assert (finish : forall nlp s,
             ready cache s -> options s = options st ->
             seen s = seen st -> factors s = factors st ->
             write_problem C tee nlp s = (st', res) ->
             exists l,
               seen st' = (seen st ++ l)%list /\
               (l = [] \/ exists o', l = [o'] /\ keeps (options st) o') /\
               match res with
               | Done _ => l <> [] /\ factors st' = factors st /\
                           ready cache st'
               | Fails _ => factors st' =
                            fold_left put_back cache (factors st)
               end).
  { intros nlp s Rs Os Ss Fs W.
    destruct (write_problem_spec C tee nlp cache s st' res Rs W)
      as (o' & K & S & _ & M).
    exists [o']. rewrite S, Ss. split; [reflexivity|]. split.
    - right. exists o'. rewrite <- Os. auto.
    - destruct res; rewrite <- Fs; [|exact M].
      destruct M as (M1 & M2).
      split; [discriminate | split; [exact M1 | exact M2]]. }
  assert (halt : forall e s,
             ready cache s -> seen s = seen st -> factors s = factors st ->
             cleanup_and_raise e s = (st', res) ->
             exists l,
               seen st' = (seen st ++ l)%list /\
               (l = [] \/ exists o', l = [o'] /\ keeps (options st) o') /\
               match res with
               | Done _ => l <> [] /\ factors st' = factors st /\
                           ready cache st'
               | Fails _ => factors st' =
                            fold_left put_back cache (factors st)
               end).
  { intros e s Rs Ss Fs W. unfold cleanup_and_raise in W.
    rewrite (cleanup_ready cache s Rs) in W.
    inversion W; subst; clear W. proj.
    exists []. rewrite app_nil_r, Fs. auto. }
  destruct r as [h|msg].
  - eapply finish; [exact R | reflexivity | reflexivity | reflexivity
                   | exact A].
  - destruct (String.eqb msg "Error in AMPL evaluation").
    + cbv zeta in A.
      replace (options (print "ipopt-watertap: Issue in AMPL function evaluation; Jacobian constraint scaling not applied." st))
        with (options st) in A by reflexivity.
      destruct (is_str match assoc_get "halt_on_ampl_error" (options st) with
                       | Some v => v
                       | None => VStr "yes"
                       end "no").
      * eapply finish; [| | | | exact A];
          [| reflexivity | reflexivity | reflexivity].
        destruct R as (X & Y & Z). repeat split; assumption.
      * eapply halt; [| | | exact A]; [apply P | reflexivity | reflexivity].
    + eapply halt; [| | | exact A]; [apply P | reflexivity | reflexivity].
Qed.

Lemma without_wrapper_lookup_in (o : dict) (k : string) :
  In k wrapper_names -> assoc_get k (without_wrapper_options o) = None.
Proof.
  unfold wrapper_names, without_wrapper_options. simpl.
  intros [<-|[<-|[<-|[<-|[]]]]].
  - rewrite !assoc_get_del_other by discriminate. apply assoc_get_del_same.
  - rewrite !assoc_get_del_other by discriminate. apply assoc_get_del_same.
  - rewrite !assoc_get_del_other by discriminate. apply assoc_get_del_same.
  - apply assoc_get_del_same.
Qed.

Lemma without_wrapper_lookup_out (o : dict) (k : string) :
  ~ In k wrapper_names ->
  assoc_get k (without_wrapper_options o) = assoc_get k o.
Proof.
  unfold wrapper_names, without_wrapper_options. simpl. intros N.
  rewrite !assoc_get_del_other; [reflexivity | | | |]; intros E; apply N;
    rewrite <- E; auto.
Qed.

Lemma user_scaling_defaults (o : dict) :
  user_scaling (watertap_defaults o) = user_scaling o.
Proof.
  unfold user_scaling. rewrite watertap_defaults_lookup. unfold overlay.
  now destruct (assoc_get "nlp_scaling_method" o).
Qed.

(** A user's option is in [options_for_ipopt] with its value, unless the
    wrapper took it out. *)
Lemma options_for_ipopt_user (o : dict) (k : string) (v : value) :
  assoc_get k o = Some v ->
  user_scaling o = false \/ ~ In k wrapper_names ->
  assoc_get k (options_for_ipopt o) = Some v.
Proof.
  intros E H.
  assert (B : assoc_get k (set_default "nlp_scaling_method"
                             (VStr "user-scaling") (watertap_defaults o))
              = Some v).
  { rewrite assoc_get_set_default, watertap_defaults_lookup.
    unfold overlay. now rewrite E. }
  unfold options_for_ipopt. destruct (user_scaling o) eqn:U; [|exact B].
  destruct H as [H|H]; [discriminate|].
  now rewrite without_wrapper_lookup_out.
Qed.

(** Where the user set nothing, [options_for_ipopt] has the six defaults and
    the scaling method, and nothing else. *)
Lemma options_for_ipopt_default (o : dict) (k : string) :
  assoc_get k o = None ->
  assoc_get k (options_for_ipopt o) =
  assoc_get k (default_values
                 ++ [("nlp_scaling_method", VStr "user-scaling")])%list.
Proof.
  intros E.
  assert (B : assoc_get k (set_default "nlp_scaling_method"
                             (VStr "user-scaling") (watertap_defaults o))
              = assoc_get k (default_values
                   ++ [("nlp_scaling_method", VStr "user-scaling")])%list).
  { rewrite assoc_get_set_default, watertap_defaults_lookup.
    unfold overlay. rewrite E. unfold default_values, assoc_get, app.
    repeat match goal with
           | |- context [String.eqb ?a k] => destruct (String.eqb a k)
           end; reflexivity. }
  unfold options_for_ipopt. destruct (user_scaling o) eqn:U; [|exact B].
  destruct (in_dec string_dec k wrapper_names) as [I|N].
  - rewrite (without_wrapper_lookup_in _ _ I).
    unfold wrapper_names in I. simpl in I.
    destruct I as [<-|[<-|[<-|[<-|[]]]]]; reflexivity.
  - now rewrite without_wrapper_lookup_out.
Qed.

(** [_presolve] as a whole: what Ipopt's own [_presolve] was given, and the
    scaling factors afterwards. *)
Lemma presolve_spec (C : Callees) (cons : list (string * bool))
  (args : list arg) (tee : bool) (st st' : State) (res : outcome unit) :
  _presolve C cons args tee st = (st', res) ->
  exists l,
    seen st' = (seen st ++ l)%list /\
    (l = [] \/
     exists o', l = [o'] /\ keeps (options_for_ipopt (options st)) o') /\
    match res with
    | Done _ =>
        l <> [] /\
        if user_scaling (options st)
        then ready (cache_of cons (factors st)) st' /\
             forall c, ~ In c (active_names cons) ->
                       assoc_get c (fold_left put_back
                                      (cache_of cons (factors st))
                                      (factors st'))
                       = assoc_get c (factors st')
        else _cleanup_needed st' = false /\ factors st' = factors st
    | Fails _ =>
        forall c, In c (active_names cons) ->
                  assoc_get c (factors st') = assoc_get c (factors st)
    end.
Proof.
  intros H.
  assert (T : forall msg,
             (st, @Fails unit (TypeError msg)) = (st', res) ->
             exists l,
               seen st' = (seen st ++ l)%list /\
               (l = [] \/
                exists o', l = [o'] /\
                           keeps (options_for_ipopt (options st)) o') /\
               match res with
               | Done _ =>
                   l <> [] /\
                   if user_scaling (options st)
                   then ready (cache_of cons (factors st)) st' /\
                        forall c, ~ In c (active_names cons) ->
                          assoc_get c (fold_left put_back
                                         (cache_of cons (factors st))
                                         (factors st'))
                          = assoc_get c (factors st')
                   else _cleanup_needed st' = false /\
                        factors st' = factors st
               | Fails _ =>
                   forall c, In c (active_names cons) ->
                     assoc_get c (factors st') = assoc_get c (factors st)
               end).
  { intros msg E. inversion E; subst. exists [].
    rewrite app_nil_r. auto. }
  destruct args as [|[|] [|b r]]; try (eapply T; exact H).
  clear T.
  destruct (user_scaling (options st)) eqn:U.
  - destruct (presolve_user C cons tee st U) as (a & b & c & d & l0 & E).
    rewrite E in H. clear E.
    eapply after_scaling_spec with (cache := cache_of cons (factors st))
      in H; [|repeat split].
    destruct H as (l & S & K & M). proj_in S. proj_in K. proj_in M.
    exists l. split; [exact S|]. split.
    + unfold options_for_ipopt. rewrite U. exact K.
    + destruct res.
      * destruct M as (M1 & M2 & M3). split; [exact M1|]. split; [exact M3|].
        intros c0 N. rewrite reset_from_cache.
        destruct (in_dec string_dec c0 (active_names cons));
          [contradiction | reflexivity].
      * intros c0 I. rewrite M, reset_from_cache.
        destruct (in_dec string_dec c0 (active_names cons));
          [reflexivity | contradiction].
  - unfold _presolve in H.
    match type of H with
    | context [_is_user_scaling C ?s] =>
        destruct (is_user_scaling_frame C s) as [l0 E]
    end.
    rewrite E in H. clear E. proj_in H.
    rewrite user_scaling_defaults, U in H. simpl negb in H. cbv iota in H.
    proj_in H.
    exists [set_default "nlp_scaling_method" (VStr "user-scaling")
              (watertap_defaults (options st))].
    assert (K : keeps (options_for_ipopt (options st))
                  (set_default "nlp_scaling_method" (VStr "user-scaling")
                     (watertap_defaults (options st)))).
    { unfold options_for_ipopt. rewrite U. apply keeps_refl. }
    destruct (super_presolve C _ tee) as [e|].
    + inversion H; subst; clear H. proj. split; [reflexivity|].
      split; [right; eexists; split; [reflexivity | exact K]|].
      reflexivity.
    + unfold _cleanup in H. proj_in H. inversion H; subst; clear H. proj.
      split; [reflexivity|].
      split; [right; eexists; split; [reflexivity | exact K]|].
      split; [discriminate|]. split; reflexivity.
Qed.

(** X20.  Every option the user set reaches Ipopt with the user's value: the
    defaults of [_presolve] never replace one, and Ipopt's own [_presolve] is
    called at most once.  The only options held back are the four the wrapper
    reads for itself, and those only under user scaling. *)
Theorem presolve_passes_user_options (C : Callees)
  (cons : list (string * bool)) (args : list arg) (tee : bool)
  (st st' : State) (res : outcome unit) :
  _presolve C cons args tee st = (st', res) ->
  exists l,
    seen st' = (seen st ++ l)%list /\ (List.length l <= 1)%nat /\
    forall o' k v,
      In o' l ->
      assoc_get k (options st) = Some v ->
      user_scaling (options st) = false \/ ~ In k wrapper_names ->
      assoc_get k o' = Some v.
Proof.
  intros H. destruct (presolve_spec C cons args tee st st' res H)
    as (l & S & K & _).
  exists l. split; [exact S|].
  destruct K as [->|(o & -> & K1 & _)].
  - split; [simpl; lia|]. intros o' k v [].
  - split; [simpl; lia|]. intros o' k v [<-|[]] E U.
    apply K1. now apply options_for_ipopt_user.
Qed.

Lemma presolve_passes_user_options_witness :
  exists l,
    seen (fst lp_run) = (seen lp_start ++ l)%list /\
    (List.length l <= 1)%nat /\
    forall o' k v,
      In o' l ->
      assoc_get k (options lp_start) = Some v ->
      user_scaling (options lp_start) = false \/ ~ In k wrapper_names ->
      assoc_get k o' = Some v.
Proof.
  assert (H : _presolve lp_callees two_constraints [ABlock] false lp_start
              = (fst lp_run, snd lp_run)) by (vm_compute; reflexivity).
  exact (presolve_passes_user_options _ _ _ _ _ _ _ H).
Defined.

(** X21.  Where the user set nothing, Ipopt gets the six watertap defaults
    and [nlp_scaling_method = user-scaling], and no other option, except that
    [alpha_for_y] may be there as [bound-mult]. *)
Theorem presolve_fills_defaults_only (C : Callees)
  (cons : list (string * bool)) (args : list arg) (tee : bool)
  (st st' : State) (res : outcome unit) :
  _presolve C cons args tee st = (st', res) ->
  forall o' k,
    In o' (seen st') -> ~ In o' (seen st) ->
    assoc_get k (options st) = None ->
    if String.eqb k "alpha_for_y"
    then assoc_get k o' = None \/ assoc_get k o' = Some (VStr "bound-mult")
    else assoc_get k o' =
         assoc_get k (default_values
                        ++ [("nlp_scaling_method", VStr "user-scaling")])%list.
Proof.
  intros H o' k I N E.
  destruct (presolve_spec C cons args tee st st' res H) as (l & S & K & _).
  rewrite S in I. apply in_app_or in I. destruct I as [I|I]; [contradiction|].
  destruct K as [->|(o & -> & K1 & K2 & K3)]; [destruct I|].
  destruct I as [<-|[]].
  destruct (String.eqb_spec k "alpha_for_y") as [->|D].
  - apply K3. now rewrite options_for_ipopt_default.
  - rewrite (K2 k D). now apply options_for_ipopt_default.
Qed.

Lemma presolve_fills_defaults_only_witness :
  In lp_sent (seen (fst lp_run)) /\ ~ In lp_sent (seen lp_start) /\
  assoc_get "ma27_pivtol" (options lp_start) = None /\
  assoc_get "ma27_pivtol" lp_sent =
  assoc_get "ma27_pivtol"
    (default_values ++ [("nlp_scaling_method", VStr "user-scaling")])%list.
Proof.
  assert (H : _presolve lp_callees two_constraints [ABlock] false lp_start
              = (fst lp_run, snd lp_run)) by (vm_compute; reflexivity).
  assert (I : In lp_sent (seen (fst lp_run))) by (left; reflexivity).
  assert (N : ~ In lp_sent (seen lp_start)) by (intros []).
  assert (E : assoc_get "ma27_pivtol" (options lp_start) = None)
    by reflexivity.
  split; [exact I|]. split; [exact N|]. split; [exact E|].
  exact (presolve_fills_defaults_only _ _ _ _ _ _ _ H lp_sent "ma27_pivtol"
           I N E).
Defined.

(** X22.  Under user scaling the four options the wrapper reads for itself
    ([nlp_scaling_max_gradient], [nlp_scaling_min_value],
    [ignore_variable_scaling], [ignore_constraint_scaling]) are never passed
    on to Ipopt. *)
Theorem presolve_hides_wrapper_options (C : Callees)
  (cons : list (string * bool)) (args : list arg) (tee : bool)
  (st st' : State) (res : outcome unit) :
  user_scaling (options st) = true ->
  _presolve C cons args tee st = (st', res) ->
  forall o' k,
    In o' (seen st') -> ~ In o' (seen st) ->
    In k wrapper_names -> assoc_get k o' = None.
Proof.
  intros U H o' k I N W.
  destruct (presolve_spec C cons args tee st st' res H) as (l & S & K & _).
  rewrite S in I. apply in_app_or in I. destruct I as [I|I]; [contradiction|].
  destruct K as [->|(o & -> & K1 & K2 & K3)]; [destruct I|].
  destruct I as [<-|[]].
  rewrite K2.
  - unfold options_for_ipopt. rewrite U.
    now apply without_wrapper_lookup_in.
  - intros ->. unfold wrapper_names in W. simpl in W.
    destruct W as [W|[W|[W|[W|[]]]]]; discriminate.
Qed.

Lemma presolve_hides_wrapper_options_witness :
  user_scaling (options lp_start) = true /\
  assoc_get "nlp_scaling_max_gradient" (options lp_start) = Some (VNum 10) /\
  In lp_sent (seen (fst lp_run)) /\ ~ In lp_sent (seen lp_start) /\
  assoc_get "nlp_scaling_max_gradient" lp_sent = None.
Proof.
  assert (U : user_scaling (options lp_start) = true) by reflexivity.
  assert (H : _presolve lp_callees two_constraints [ABlock] false lp_start
              = (fst lp_run, snd lp_run)) by (vm_compute; reflexivity).
  assert (I : In lp_sent (seen (fst lp_run))) by (left; reflexivity).
  assert (N : ~ In lp_sent (seen lp_start)) by (intros []).
  split; [exact U|]. split; [reflexivity|].
  split; [exact I|]. split; [exact N|].
  apply (presolve_hides_wrapper_options _ _ _ _ _ _ _ U H lp_sent
           "nlp_scaling_max_gradient" I N).
  left. reflexivity.
Defined.

(** X23.  When [_presolve] raises, whatever the reason, every active
    constraint has the scaling factor it had before the call. *)
Theorem presolve_failure_restores_scaling (C : Callees)
  (cons : list (string * bool)) (args : list arg) (tee : bool)
  (st st' : State) (e : error) (c : string) :
  _presolve C cons args tee st = (st', Fails e) ->
  In c (active_names cons) ->
  assoc_get c (factors st') = assoc_get c (factors st).
Proof.
  intros H I.
  destruct (presolve_spec C cons args tee st st' _ H) as (l & _ & _ & M).
  now apply M.
Qed.

Lemma presolve_failure_restores_scaling_witness :
  snd failed_run = Fails (Passed "the writer failed") /\
  assoc_get "balance" (factors (fst failed_run))
  = assoc_get "balance" (factors lp_start).
Proof.
  assert (H : _presolve failing_writer two_constraints [ABlock] false
                lp_start
              = (fst failed_run, Fails (Passed "the writer failed")))
    by (vm_compute; reflexivity).
  split; [reflexivity|].
  apply (presolve_failure_restores_scaling _ _ _ _ _ _ _ _ H).
  left. reflexivity.
Defined.

(** X24.  After a [_presolve] that returned, [_postsolve] does not fail in
    its clean-up; it gives every active constraint the scaling factor it had
    before [_presolve], and leaves the factor of any other constraint as the
    scaling routine left it. *)
Theorem postsolve_restores_scaling (C : Callees)
  (cons : list (string * bool)) (args : list arg) (tee : bool)
  (st st' : State) :
  _presolve C cons args tee st = (st', Done tt) ->
  exists st'',
    _postsolve C st' = (st'', super_postsolve C) /\
    (forall c, In c (active_names cons) ->
               assoc_get c (factors st'') = assoc_get c (factors st)) /\
    (forall c, ~ In c (active_names cons) ->
               assoc_get c (factors st'') = assoc_get c (factors st')).
Proof.
  intros H.
  destruct (presolve_spec C cons args tee st st' _ H) as (l & _ & _ & _ & M).
  unfold _postsolve.
  destruct (user_scaling (options st)).
  - destruct M as (R & _). rewrite (cleanup_ready _ _ R).
    eexists. split; [reflexivity|]. proj. split; intros c I.
    + rewrite reset_from_cache.
      destruct (in_dec string_dec c (active_names cons));
        [reflexivity | contradiction].
    + rewrite reset_from_cache.
      destruct (in_dec string_dec c (active_names cons));
        [contradiction | reflexivity].
  - destruct M as (N & F). unfold _cleanup. rewrite N.
    exists st'. split; [reflexivity|]. split; intros c I.
    + now rewrite F.
    + reflexivity.
Qed.

Lemma postsolve_restores_scaling_witness :
  exists st'',
    _postsolve lp_callees (fst lp_run) = (st'', super_postsolve lp_callees) /\
    (forall c, In c (active_names two_constraints) ->
               assoc_get c (factors st'') = assoc_get c (factors lp_start)) /\
    (forall c, ~ In c (active_names two_constraints) ->
               assoc_get c (factors st'')
               = assoc_get c (factors (fst lp_run))).
Proof.
  assert (H : _presolve lp_callees two_constraints [ABlock] false lp_start
              = (fst lp_run, Done tt)) by (vm_compute; reflexivity).
  exact (postsolve_restores_scaling _ _ _ _ _ _ H).
Defined.

Lemma halt_lookup (o : dict) :
  user_scaling o = true ->
  assoc_get "halt_on_ampl_error" (options_for_ipopt o)
  = assoc_get "halt_on_ampl_error" o.
Proof.
  intros U. destruct (assoc_get "halt_on_ampl_error" o) as [v|] eqn:E.
  - apply options_for_ipopt_user; [exact E|]. right.
    unfold wrapper_names. simpl. intuition discriminate.
  - rewrite (options_for_ipopt_default _ _ E). reflexivity.
Qed.

(** X25.  When the scaling routine fails with "Error in AMPL evaluation"
    under user scaling, [_presolve] raises a [RuntimeError] without calling
    Ipopt's own [_presolve], unless the option [halt_on_ampl_error] is
    ["no"]: then the solve goes on, and Ipopt's own [_presolve] is called
    once. *)
Theorem ampl_error_halts_unless_told_not_to (C : Callees)
  (cons : list (string * bool)) (tee : bool) (st : State) :
  user_scaling (options st) = true ->
  (forall a b c d f,
     snd (autoscale C a b c d f) = ScalingError "Error in AMPL evaluation") ->
  if match assoc_get "halt_on_ampl_error" (options st) with
     | Some v => is_str v "no"
     | None => false
     end
  then exists o',
         seen (fst (_presolve C cons [ABlock] tee st))
         = (seen st ++ [o'])%list /\
         snd (_presolve C cons [ABlock] tee st)
         = match super_presolve C o' tee with
           | None => Done tt
           | Some e => Fails e
           end
  else seen (fst (_presolve C cons [ABlock] tee st)) = seen st /\
       snd (_presolve C cons [ABlock] tee st)
       = Fails (RuntimeError ampl_message).
Proof.
  intros U A.
  destruct (presolve_user C cons tee st U) as (a & b & c & d & l & E).
  rewrite E, A. clear E. unfold after_scaling.
  rewrite String.eqb_refl. cbv zeta. proj.
  pose proof (halt_lookup (options st) U) as HL.
  unfold options_for_ipopt in HL. rewrite U in HL. rewrite HL. clear HL.
  match goal with
  | |- context [cleanup_and_raise _ ?s] =>
      assert (R : ready (cache_of cons (factors st)) s)
        by (repeat split)
  end.
  assert (B : (match assoc_get "halt_on_ampl_error" (options st) with
               | Some v => is_str v "no"
               | None => false
               end)
              = is_str match assoc_get "halt_on_ampl_error" (options st) with
                       | Some v => v
                       | None => VStr "yes"
                       end "no").
  { destruct (assoc_get "halt_on_ampl_error" (options st)); reflexivity. }
  rewrite B. clear B.
  destruct (is_str _ "no").
  - match goal with
    | |- context [write_problem C tee None ?s] =>
        destruct (write_problem C tee None s) as [st' res] eqn:W;
        apply (write_problem_spec C tee None (cache_of cons (factors st)))
          in W; [|repeat split]
    end.
    destruct W as (o' & _ & S & Rs & _). exists o'. proj.
    proj_in S. split; [exact S | exact Rs].
  - unfold cleanup_and_raise. rewrite (cleanup_ready _ _ R). proj.
    split; reflexivity.
Qed.

Lemma ampl_error_halts_unless_told_not_to_witness :
  seen (fst ampl_run) = seen lp_start /\
  snd ampl_run = Fails (RuntimeError ampl_message).
Proof.
  assert (U : user_scaling (options lp_start) = true) by reflexivity.
  assert (A : forall a b c d f,
             snd (autoscale ampl_callees a b c d f)
             = ScalingError "Error in AMPL evaluation")
    by (intros; reflexivity).
  exact (ampl_error_halts_unless_told_not_to ampl_callees two_constraints
           false lp_start U A).
Defined.

(** X26.  [_cleanup] does not clear [_cleanup_needed]: once it has run, a
    second call without a [_presolve] in between finds no scaling cache and
    raises an [AttributeError]. *)
Theorem cleanup_is_not_repeatable (st st1 : State) :
  _cleanup_needed st = true ->
  _cleanup st = (st1, None) ->
  _cleanup st1 = (st1, Some AttributeError).
Proof.
  unfold _cleanup, _reset_scaling_factors. intros N H. rewrite N in H.
  destruct (_scaling_cache st); [|discriminate H]. proj_in H.
  destruct (_model st); [|discriminate H].
  inversion H; subst; clear H. reflexivity.
Qed.

Lemma cleanup_is_not_repeatable_witness :
  _cleanup (fst (_cleanup (fst lp_run)))
  = (fst (_cleanup (fst lp_run)), Some AttributeError).
Proof.
  apply (cleanup_is_not_repeatable (fst lp_run)).
  - reflexivity.
  - vm_compute. reflexivity.
Defined.

(** ** The debug wrapper *)

Lemma cache_initial_other (vs : list Var) :
  forall (cache : list (string * option Q)) (k : string),
    ~ In k (map v_name vs) ->
    assoc_get k (_cache_initial_values vs cache) = assoc_get k cache.
Proof.
  unfold _cache_initial_values.
  induction vs as [|v vs IH]; intros cache k N; simpl; [reflexivity|].
  rewrite IH.
  - apply assoc_get_set_other. intros E. apply N. left. exact E.
  - intros I. apply N. right. exact I.
Qed.

Lemma cache_initial_lookup (vs : list Var) :
  NoDup (map v_name vs) ->
  forall (cache : list (string * option Q)) (v : Var),
    In v vs ->
    assoc_get (v_name v) (_cache_initial_values vs cache)
    = Some (v_value v).
Proof.
  induction vs as [|u vs IH]; intros ND cache v I; [destruct I|].
  simpl in ND. inversion ND as [|? ? N ND']; subst.
  destruct I as [<-|I].
  - change (_cache_initial_values (u :: vs) cache)
      with (_cache_initial_values vs
              (assoc_set (v_name u) (v_value u) cache)).
    rewrite (cache_initial_other vs _ _ N). apply assoc_get_set_same.
  - exact (IH ND' _ v I).
Qed.

Lemma restore_loaded (cache : list (string * option Q))
  (sol : string -> option Q) (ws : list Var) :
  (forall v, In v ws -> assoc_get (v_name v) cache = Some (v_value v)) ->
  restore_initial_values cache (load_values sol ws) = (ws, None).
Proof.
  induction ws as [|v ws IH]; intros H; [reflexivity|].
  simpl. rewrite (H v (or_introl eq_refl)).
  rewrite IH by (intros u Hu; apply H; right; exact Hu).
  destruct v; reflexivity.
Qed.

(** X27.  The debug wrapper never fails in [restore_initial_values]: when
    the base solver raises, returns nothing or does not end optimal, every
    variable of the block has again the value it had before the solve by
    the time the interactive session opens; when the solve ends optimal the
    values are the solver's and no session opens. *)
Theorem debug_solve_restores_start_values (solver : base_solver)
  (wrapper_options solver_options : dict)
  (cache : list (string * option Q)) (vs : list Var) :
  NoDup (map v_name vs) ->
  exists d,
    debug_solve true solver wrapper_options solver_options cache vs = Done d /\
    d_results d = snd (solver (copy_options wrapper_options solver_options) vs)
    /\
    match d_results d with
    | Some Optimal =>
        d_session d = false /\
        d_vars d =
        load_values
          (fst (solver (copy_options wrapper_options solver_options) vs)) vs
    | _ => d_session d = true /\ d_vars d = vs
    end.
Proof.
  intros ND. unfold debug_solve. simpl negb. cbv iota.
  destruct (solver (copy_options wrapper_options solver_options) vs)
    as [sol results].
  cbn [fst snd].
  assert (R : restore_initial_values (_cache_initial_values vs cache)
                (load_values sol vs) = (vs, None)).
  { apply restore_loaded. intros v I. now apply cache_initial_lookup. }
  destruct results as [[|]|].
  - eexists. split; [reflexivity|]. cbn. auto.
  - rewrite R. eexists. split; [reflexivity|]. cbn. auto.
  - rewrite R. eexists. split; [reflexivity|]. cbn. auto.
Qed.

Lemma debug_solve_restores_start_values_witness :
  exists d,
    debug_solve true stuck_solver [("tol", VNum (1 # 1000000))] [] [] two_vars
    = Done d /\
    d_results d
    = snd (stuck_solver
             (copy_options [("tol", VNum (1 # 1000000))] []) two_vars) /\
    match d_results d with
    | Some Optimal =>
        d_session d = false /\
        d_vars d =
        load_values
          (fst (stuck_solver
                  (copy_options [("tol", VNum (1 # 1000000))] []) two_vars))
          two_vars
    | _ => d_session d = true /\ d_vars d = two_vars
    end.
Proof.
  apply (debug_solve_restores_start_values stuck_solver
           [("tol", VNum (1 # 1000000))] [] [] two_vars).
  simpl. repeat constructor; simpl; intuition discriminate.
Defined.

(** X28.  [restore_initial_values] on a block with a variable that was never
    cached raises a [KeyError] at that variable: the variables before it
    have their cached values by then, the variable and those after it are
    as they were. *)
Theorem restore_stops_at_uncached_variable
  (cache : list (string * option Q)) (pre : list Var) (v : Var)
  (post : list Var) :
  (forall u, In u pre -> assoc_get (v_name u) cache <> None) ->
  assoc_get (v_name v) cache = None ->
  restore_initial_values cache (pre ++ v :: post)
  = ((map (cached cache) pre ++ v :: post)%list, Some KeyError).
Proof.
  intros H N. induction pre as [|u pre IH]; simpl.
  - now rewrite N.
  - unfold cached at 1.
    destruct (assoc_get (v_name u) cache) as [val|] eqn:E.
    + rewrite IH by (intros w Hw; apply H; right; exact Hw). reflexivity.
    + exfalso. exact (H u (or_introl eq_refl) E).
Qed.

Lemma restore_stops_at_uncached_variable_witness :
  restore_initial_values [("x", Some 4%Q)]
    ([mkVar "x" (Some 1%Q) None None Reals false]
       ++ mkVar "y" None (Some 0%Q) None Reals false :: [])
  = (([mkVar "x" (Some 4%Q) None None Reals false]
        ++ mkVar "y" None (Some 0%Q) None Reals false :: [])%list,
     Some KeyError).
Proof.
  apply (restore_stops_at_uncached_variable [("x", Some 4%Q)]
           [mkVar "x" (Some 1%Q) None None Reals false]
           (mkVar "y" None (Some 0%Q) None Reals false) []).
  - intros u [<-|[]]. discriminate.
  - reflexivity.
Defined.
